(** * datadog-cli: query normalisation and correlation layer

    A shallow embedding of the log and span helpers of the CLI
    (time-range resolution, message masking, pattern clustering, live-tail
    de-duplication, period comparison, span error summary and trace-tree
    reconstruction), together with the properties checked against them. *)

From Stdlib Require Import ZArith NArith QArith Qcanon Qround Lqa.
From Stdlib Require Import List Bool Lia Ascii String.
From stdpp Require Import base tactics option numbers list gmap sorting.

Local Open Scope Z_scope.

(** ** JavaScript strings

    A JavaScript string is a sequence of UTF-16 code units; a regular
    expression without the [u] flag works on code units. *)

Module Js.

Abbreviation jsstring := (list N).

(** The code units of an ASCII literal. *)
Definition codes (s : string) : jsstring :=
  map N_of_ascii (list_ascii_of_string s).

Definition inRange (lo hi c : N) : bool := ((lo <=? c) && (c <=? hi))%N.

(** [\d] *)
Definition isDigit (c : N) : bool := inRange 48 57 c.

(** [[0-9a-f]] under the [i] flag: no code unit outside ASCII
    canonicalises to an ASCII letter, so the class is [[0-9a-fA-F]]. *)
Definition isHex (c : N) : bool :=
  isDigit c || inRange 97 102 c || inRange 65 70 c.

(** [\w] *)
Definition isWord (c : N) : bool :=
  isDigit c || inRange 97 122 c || inRange 65 90 c || (c =? 95)%N.

(** [\s], which is also the set removed by [String.prototype.trim]:
    WhiteSpace and LineTerminator of ECMAScript. *)
Definition isSpace (c : N) : bool :=
  (inRange 9 13 c || (c =? 32) || (c =? 160) || (c =? 5760)
   || inRange 8192 8202 c || (c =? 8232) || (c =? 8233) || (c =? 8239)
   || (c =? 8287) || (c =? 12288) || (c =? 65279))%N.

(** [[\w.-]] *)
Definition isMailChar (c : N) : bool :=
  (isWord c || (c =? 46) || (c =? 45))%N.

(** Truthiness of an optional string: [undefined] and [""] are falsy. *)
Definition truthy (s : option jsstring) : bool :=
  match s with
  | Some (_ :: _) => true
  | _ => false
  end.

(** Comparison of strings by code units, as [<] and [>] on strings do. *)
Fixpoint strLt (a b : jsstring) : bool :=
  match a, b with
  | _, [] => false
  | [], _ :: _ => true
  | x :: a', y :: b' => ((x <? y) || ((x =? y) && strLt a' b'))%N
  end.

End Js.

(** ** Regular expressions

    The expressions of the source are sequences of character classes with
    a greedy quantifier, word boundaries and the end anchor.  The matcher
    follows the backtracking order of ECMAScript: a quantifier first takes
    as many code units as it can and gives them back one at a time. *)

Module Regex.
Import Js.

Inductive item :=
| Cls (p : N -> bool) (lo : nat) (hi : option nat)  (* [p{lo,hi}], greedy *)
| WordB                                              (* [\b] *)
| Eos.                                               (* [$] *)

Definition regex := list item.

Definition LitC (c : N) : item := Cls (N.eqb c) 1 (Some 1%nat).
Definition Lit (a : ascii) : item := LitC (N_of_ascii a).
Definition Exactly (p : N -> bool) (n : nat) : item := Cls p n (Some n).
Definition AtLeast (p : N -> bool) (n : nat) : item := Cls p n None.
Definition Between (p : N -> bool) (lo hi : nat) : item := Cls p lo (Some hi).
Definition Opt (a : ascii) : item := Cls (N.eqb (N_of_ascii a)) 0 (Some 1%nat).

Definition isWordAt (c : option N) : bool :=
  match c with
  | Some x => isWord x
  | None => false
  end.

(** [rep p k lo hi prev s]: match [p{lo,hi}] at the head of [s] and then
    the rest of the expression [k]; the result is the number of code units
    taken by the class and the lengths taken by the items of [k]. *)
Fixpoint rep (p : N -> bool) (k : option N -> jsstring -> option (list nat))
    (lo : nat) (hi : option nat) (prev : option N) (s : jsstring)
    : option (nat * list nat) :=
  let stop :=
    match lo with
    | O => match k prev s with
           | Some ns => Some (O, ns)
           | None => None
           end
    | S _ => None
    end in
  match s with
  | c :: s' =>
      if p c && negb (bool_decide (hi = Some O)) then
        match rep p k (Nat.pred lo) (Nat.pred <$> hi) (Some c) s' with
        | Some (n, ns) => Some (S n, ns)
        | None => stop
        end
      else stop
  | [] => stop
  end.

(** [matchHere r prev s]: match [r] at the head of [s], where [prev] is the
    code unit before it; the result lists the code units taken by each
    item. *)
Fixpoint matchHere (r : regex) (prev : option N) (s : jsstring)
    : option (list nat) :=
  match r with
  | [] => Some []
  | WordB :: r' =>
      if xorb (isWordAt prev) (isWordAt (head s))
      then cons O <$> matchHere r' prev s
      else None
  | Eos :: r' =>
      match s with
      | [] => cons O <$> matchHere r' prev s
      | _ :: _ => None
      end
  | Cls p lo hi :: r' =>
      match rep p (matchHere r') lo hi prev s with
      | Some (n, ns) => Some (n :: ns)
      | None => None
      end
  end.

Definition matchLen (r : regex) (prev : option N) (s : jsstring) : option nat :=
  (fun ns => foldr Nat.add O ns) <$> matchHere r prev s.

(** [s.replace(/r/g, repl)] for a replacement without [$] patterns: the
    matches are searched from left to right, each search starting where the
    previous match ended; [skip] counts the code units of the current match
    still to be dropped. *)
Fixpoint replaceFrom (r : regex) (repl : jsstring) (skip : nat)
    (prev : option N) (s : jsstring) : jsstring :=
  match s with
  | [] =>
      match skip, matchLen r prev [] with
      | O, Some _ => repl
      | _, _ => []
      end
  | c :: s' =>
      match skip with
      | S k => replaceFrom r repl k (Some c) s'
      | O =>
          match matchLen r prev s with
          | Some (S k) => repl ++ replaceFrom r repl k (Some c) s'
          | Some O => repl ++ c :: replaceFrom r repl O (Some c) s'
          | None => c :: replaceFrom r repl O (Some c) s'
          end
      end
  end.

Definition replaceAll (r : regex) (repl : jsstring) (s : jsstring) : jsstring :=
  replaceFrom r repl O None s.

(** [s.match(/^r/)] for an expression that ends in [$]: the lengths of the
    items when the whole string matches. *)
Definition matchWhole (r : regex) (s : jsstring) : option (list nat) :=
  matchHere r None s.

End Regex.

(** ** Numbers and dates

    A JavaScript number is an IEEE double.  The numbers of this layer are
    integers (milliseconds, counts), modelled as [Z] with the rounding of
    every operation written out: an integer of magnitude at most [2^53] is
    exact, a larger one is rounded to 53 significant bits (ties to even),
    and [2^1024] stands for [Infinity]. *)

Module Num.

Definition roundDouble (z : Z) : Z :=
  let a := Z.abs z in
  if a <=? 2 ^ 53 then z
  else
    let e := Z.log2 a - 52 in
    let q := a / 2 ^ e in
    let r := a mod 2 ^ e in
    let q' :=
      if 2 * r <? 2 ^ e then q
      else if 2 ^ e <? 2 * r then q + 1
      else if Z.even q then q else q + 1 in
    let m := q' * 2 ^ e in
    Z.sgn z * (if 2 ^ 1024 <=? m then 2 ^ 1024 else m).

Definition mul (a b : Z) : Z := roundDouble (a * b).
Definition sub (a b : Z) : Z := roundDouble (a - b).
Definition add (a b : Z) : Z := roundDouble (a + b).

(** The value of a string of decimal digits. *)
Definition digitsValue (ds : Js.jsstring) : Z :=
  fold_left (fun acc c => 10 * acc + (Z.of_N c - 48)) ds 0.

(** [parseInt(value, 10)] on a string of decimal digits. *)
Definition parseInt (ds : Js.jsstring) : Z := roundDouble (digitsValue ds).

(** A [Date] holds a time value in milliseconds, or is an Invalid Date
    ([None]); [new Date(v)] clips [v] to the range of time values. *)
Definition maxTime : Z := 8640000000000000.

Definition validTime (t : Z) : Prop := Z.abs t <= maxTime.

Definition Date := option Z.

Definition newDate (v : Z) : Date :=
  if Z.abs v <=? maxTime then Some v else None.

End Num.

(** ** Time ranges

    [parseTimeRange] and [parseRelativeTime] are the same in the log and in
    the span helpers.  The clock ([new Date()]) is the argument [now], a
    valid time value; parsing of an absolute date-time ([new Date(timeStr)])
    is left to the engine and is the parameter [Date_parse], [None] being an
    Invalid Date.  A time range holds its two instants; their rendering as
    ISO strings is not modelled, except that [toISOString] throws on an
    Invalid Date ([None] below). *)

Module Time.
Import Js Regex Num.

Definition ch (a : ascii) : N := N_of_ascii a.

Definition isMHD (c : N) : bool :=
  ((c =? ch "m") || (c =? ch "h") || (c =? ch "d"))%N.

Definition isSMHD (c : N) : bool :=
  ((c =? ch "s") || (c =? ch "m") || (c =? ch "h") || (c =? ch "d"))%N.

(** [/^(\d+)([mhd])$/] and [/^(\d+)([smhd])$/] *)
Definition reRelative : regex := [AtLeast isDigit 1; Exactly isMHD 1; Eos].
Definition reDuration : regex := [AtLeast isDigit 1; Exactly isSMHD 1; Eos].

(** The two capture groups of a match of one of these expressions. *)
Definition matchValueUnit (r : regex) (s : jsstring) : option (jsstring * N) :=
  match matchWhole r s with
  | Some (n :: _) =>
      match s !! n with
      | Some unit => Some (take n s, unit)
      | None => None
      end
  | _ => None
  end.

Record TimeRange := { from : Z; to : Z }.

Section WithDateParse.

Variable Date_parse : jsstring -> option Z.

Definition parseRelativeTime (timeStr : jsstring) (now : Z) : Date :=
  match matchValueUnit reRelative timeStr with
  | None =>
      match Date_parse timeStr with
      | Some parsed => Some parsed
      | None => Some now
      end
  | Some (value, unit) =>
      let num := parseInt value in
      let ms := now in
      if (unit =? ch "m")%N then newDate (sub ms (mul (mul num 60) 1000))
      else if (unit =? ch "h")%N then
        newDate (sub ms (mul (mul (mul num 60) 60) 1000))
      else if (unit =? ch "d")%N then
        newDate (sub ms (mul (mul (mul (mul num 24) 60) 60) 1000))
      else Some now
  end.

Definition parseTimeRange (from_ to_ : option jsstring) (now : Z)
    : option TimeRange :=
  let toDate :=
    match to_ with
    | Some ((_ :: _) as t) => parseRelativeTime t now
    | _ => Some now
    end in
  let fromDate :=
    match from_ with
    | Some ((_ :: _) as f) => parseRelativeTime f now
    | _ => newDate (sub now (mul (mul 15 60) 1000))
    end in
  f ← fromDate; t ← toDate; Some {| from := f; to := t |}.

End WithDateParse.

Definition parseDurationToMs (duration : jsstring) : Z :=
  match matchValueUnit reDuration duration with
  | None => mul (mul 5 60) 1000
  | Some (value, unit) =>
      let num := parseInt value in
      if (unit =? ch "s")%N then mul num 1000
      else if (unit =? ch "m")%N then mul (mul num 60) 1000
      else if (unit =? ch "h")%N then mul (mul (mul num 60) 60) 1000
      else if (unit =? ch "d")%N then mul (mul (mul (mul num 24) 60) 60) 1000
      else mul (mul 5 60) 1000
  end.

End Time.

(** ** The query backend

    The Datadog client is the one collaborator of this layer.  A function
    that calls it is a tree of requests: each call names its request and
    continues with the response.  Only successful responses are followed;
    a rejected call aborts a one-shot query, and the live tail, which
    catches it, takes the outcome of its call as an argument instead. *)

Module Backend.
Import Js.

(** A time bound of a filter: an ISO string, given by its instant when it
    was rendered from a [Date] and verbatim otherwise. *)
Inductive stamp :=
| Instant (t : Z)
| Iso (s : jsstring).

Record Filter := { f_query : jsstring; f_from : stamp; f_to : stamp }.

Record ListRequest := { l_filter : Filter; l_sort : jsstring; l_limit : Z }.

(** A group-by clause; all of them sort by count, descending. *)
Record GroupBy := { g_facet : jsstring; g_limit : Z }.

(** An aggregation; all of them compute the total count [c0]. *)
Record AggregateRequest := { a_filter : Filter; a_groupBy : list GroupBy }.

(** A bucket of an aggregation: the facet values it stands for (already as
    strings) and its count, either of which may be missing. *)
Record Bucket := { b_by : list (jsstring * jsstring); b_c0 : option Z }.

Inductive Request :=
| ReqList (r : ListRequest)
| ReqAggregate (r : AggregateRequest).

Inductive Api (Raw A : Type) : Type :=
| Ret (a : A)
| CallList (r : ListRequest) (k : list Raw -> Api Raw A)
| CallAggregate (r : AggregateRequest) (k : list Bucket -> Api Raw A).

Arguments Ret {Raw A} a.
Arguments CallList {Raw A} r k.
Arguments CallAggregate {Raw A} r k.

Fixpoint bind {Raw A B} (m : Api Raw A) (f : A -> Api Raw B) : Api Raw B :=
  match m with
  | Ret a => f a
  | CallList r k => CallList r (fun x => bind (k x) f)
  | CallAggregate r k => CallAggregate r (fun x => bind (k x) f)
  end.

Definition listCall {Raw} (r : ListRequest) : Api Raw (list Raw) :=
  CallList r Ret.
Definition aggregateCall {Raw} (r : AggregateRequest) : Api Raw (list Bucket) :=
  CallAggregate r Ret.

Notation "'call' x <- m ; k" := (bind m (fun x => k))
  (at level 100, x name, m at level 50, k at level 200, right associativity).

(** A backend answers each request; [run] gives the result of a query
    against it and [issued] the requests the query makes, in order. *)
Record Handler (Raw : Type) := {
  onList : ListRequest -> list Raw;
  onAggregate : AggregateRequest -> list Bucket
}.
Arguments onList {Raw} h r.
Arguments onAggregate {Raw} h r.

Fixpoint run {Raw A} (h : Handler Raw) (m : Api Raw A) : A :=
  match m with
  | Ret a => a
  | CallList r k => run h (k (onList h r))
  | CallAggregate r k => run h (k (onAggregate h r))
  end.

Fixpoint issued {Raw A} (h : Handler Raw) (m : Api Raw A) : list Request :=
  match m with
  | Ret _ => []
  | CallList r k => ReqList r :: issued h (k (onList h r))
  | CallAggregate r k => ReqAggregate r :: issued h (k (onAggregate h r))
  end.

(** The count of the first bucket of an ungrouped aggregation. *)
Definition firstCount (buckets : list Bucket) : option Z :=
  b ← head buckets; b_c0 b.

(** [Array.prototype.sort]: stable, an element staying before the ones it
    does not compare greater than. *)
Fixpoint insertBy {A} (cmp : A -> A -> Z) (x : A) (l : list A) : list A :=
  match l with
  | [] => [x]
  | y :: l' => if 0 <? cmp x y then y :: insertBy cmp x l' else x :: l
  end.

Definition sortBy {A} (cmp : A -> A -> Z) (l : list A) : list A :=
  foldr (insertBy cmp) [] l.

(** Lookup in an object or a [Map] held as an association list. *)
Fixpoint assoc {V} (k : jsstring) (l : list (jsstring * V)) : option V :=
  match l with
  | [] => None
  | (k', v) :: l' => if decide (k' = k) then Some v else assoc k l'
  end.

(** The buckets that carry a value for [facet], each with its count. *)
Definition bucketCounts (facet : jsstring) (buckets : list Bucket)
    : list (jsstring * Z) :=
  omap (fun bucket =>
          key ← assoc facet (b_by bucket);
          Some (key, default 0 (b_c0 bucket))) buckets.

(** The options and the base query of the two error summaries. *)
Record ErrorSummaryOptions := {
  e_from : option jsstring;
  e_to : option jsstring;
  e_service : option jsstring
}.

Definition errorQuery (service : option jsstring) : jsstring :=
  match service with
  | Some ((_ :: _) as svc) => codes "status:error service:" ++ svc
  | _ => codes "status:error"
  end.

Definition filterOf (query : jsstring) (tr : Time.TimeRange) : Filter :=
  {| f_query := query; f_from := Instant (Time.from tr);
     f_to := Instant (Time.to tr) |}.

End Backend.

(** ** The log helpers *)

Module Logs.
Import Js Regex Num Time Backend.

(** [String.prototype.trim] *)
Fixpoint trimStart (s : jsstring) : jsstring :=
  match s with
  | c :: s' => if isSpace c then trimStart s' else s
  | [] => []
  end.

Definition trimEnd (s : jsstring) : jsstring := rev (trimStart (rev s)).

Definition trim (s : jsstring) : jsstring := trimEnd (trimStart s).

Definition notSpace (c : N) : bool := negb (isSpace c).
Definition dquote : N := 34%N.
Definition squote : N := 39%N.
Definition notDQuote (c : N) : bool := negb (c =? dquote)%N.
Definition notSQuote (c : N) : bool := negb (c =? squote)%N.

(** [/[0-9a-f]{8}-[0-9a-f]{4}-[0-9a-f]{4}-[0-9a-f]{4}-[0-9a-f]{12}/gi] *)
Definition reUuid : regex :=
  [Exactly isHex 8; Lit "-"; Exactly isHex 4; Lit "-"; Exactly isHex 4;
   Lit "-"; Exactly isHex 4; Lit "-"; Exactly isHex 12].

(** [/\b[0-9a-f]{32,}\b/gi] *)
Definition reHex : regex := [WordB; AtLeast isHex 32; WordB].

(** [/\b\d+\b/g] *)
Definition reNumber : regex := [WordB; AtLeast isDigit 1; WordB].

(** [/\b\d{1,3}\.\d{1,3}\.\d{1,3}\.\d{1,3}\b/g] *)
Definition reIp : regex :=
  [WordB; Between isDigit 1 3; Lit "."; Between isDigit 1 3; Lit ".";
   Between isDigit 1 3; Lit "."; Between isDigit 1 3; WordB].

(** [/\b[\w.-]+@[\w.-]+\.\w+\b/g] *)
Definition reEmail : regex :=
  [WordB; AtLeast isMailChar 1; Lit "@"; AtLeast isMailChar 1; Lit ".";
   AtLeast isWord 1; WordB].

(** [/https?:\/\/[^\s]+/g] *)
Definition reUrl : regex :=
  [Lit "h"; Lit "t"; Lit "t"; Lit "p"; Opt "s"; Lit ":"; Lit "/"; Lit "/";
   AtLeast notSpace 1].

(** The double-quoted and the single-quoted string literal: a quote, any
    code units other than that quote, and the quote again. *)
Definition reDQuoted : regex := [LitC dquote; AtLeast notDQuote 0; LitC dquote].
Definition reSQuoted : regex := [LitC squote; AtLeast notSQuote 0; LitC squote].

(** [/\s+/g] *)
Definition reSpaces : regex := [AtLeast isSpace 1].

(** The substitutions of [extractPattern] before the quoted strings. *)
Definition maskTokens (message : jsstring) : jsstring :=
  let s := replaceAll reUuid (codes "<UUID>") message in
  let s := replaceAll reHex (codes "<HEX>") s in
  let s := replaceAll reNumber (codes "<N>") s in
  let s := replaceAll reIp (codes "<IP>") s in
  let s := replaceAll reEmail (codes "<EMAIL>") s in
  replaceAll reUrl (codes "<URL>") s.

(** The substitutions of [extractPattern] from the quoted strings on. *)
Definition maskQuoted (s : jsstring) : jsstring :=
  let s := replaceAll reDQuoted (dquote :: codes "<STR>" ++ [dquote]) s in
  let s := replaceAll reSQuoted (squote :: codes "<STR>" ++ [squote]) s in
  let s := replaceAll reSpaces (codes " ") s in
  trim s.

Definition extractPattern (message : jsstring) : jsstring :=
  maskQuoted (maskTokens message).

(** [truncateMessage] with its default [maxLength] of 100. *)
Definition truncateMessage (message : jsstring) : jsstring :=
  let cleaned := trim (replaceAll reSpaces (codes " ") message) in
  if Z.of_nat (length cleaned) <=? 100 then cleaned
  else take 100 cleaned ++ codes "...".

(** *** Records

    A raw log, with the fields this layer reads besides the tag list and
    the custom attributes; the timestamp is the ISO rendering of the
    record's [Date].  The trace id, the host and the attribute bag of a
    normalised log are derived from the tags and attributes and play no
    part below. *)
Record RawLog := {
  r_id : option jsstring;
  r_timestamp : option jsstring;
  r_service : option jsstring;
  r_status : option jsstring;
  r_message : option jsstring
}.

Record NormalizedLog := {
  id : jsstring;
  timestamp : jsstring;
  service : option jsstring;
  status : option jsstring;
  message : option jsstring
}.

Definition normalizeLog (log : RawLog) : NormalizedLog :=
  {| id := default [] (r_id log);
     timestamp := default [] (r_timestamp log);
     service := r_service log;
     status := r_status log;
     message := r_message log |}.

Abbreviation LogsApi := (Api RawLog).

(** *** Live tail

    The state of a tail session.  [seenIds] is a [Set], held in insertion
    order without repetition. *)
Record TailState := {
  seenIds : list jsstring;
  lastTimestamp : jsstring;
  running : bool
}.

Definition tailStart (nowIso : jsstring) : TailState :=
  {| seenIds := []; lastTimestamp := nowIso; running := true |}.

Definition tailRequest (query nowIso : jsstring) (st : TailState) : ListRequest :=
  {| l_filter := {| f_query := query; f_from := Iso (lastTimestamp st);
                    f_to := Iso nowIso |};
     l_sort := codes "timestamp"; l_limit := 100 |}.

Section Tail.

(** The caller's callback: [true] when it returns, [false] when it throws. *)
Variable onLog : NormalizedLog -> bool.

(** The loop over [response.data]: the state it reaches, the logs handed to
    the callback, and whether it ran to its end. *)
Fixpoint pollLoop (data : list RawLog) (st : TailState)
    : TailState * list NormalizedLog * bool :=
  match data with
  | [] => (st, [], true)
  | log :: rest =>
      let normalized := normalizeLog log in
      if bool_decide (id normalized ∈ seenIds st) then pollLoop rest st
      else
        let seen := seenIds st ++ [id normalized] in
        if onLog normalized then
          let last :=
            if strLt (lastTimestamp st) (timestamp normalized)
            then timestamp normalized else lastTimestamp st in
          let '(st', out, ok) :=
            pollLoop rest {| seenIds := seen; lastTimestamp := last;
                             running := running st |} in
          (st', normalized :: out, ok)
        else
          ({| seenIds := seen; lastTimestamp := lastTimestamp st;
              running := running st |}, [normalized], false)
  end.

(** "Keep seenIds bounded". *)
Definition boundSeen (st : TailState) : TailState :=
  if 10000 <? Z.of_nat (length (seenIds st)) then
    let idsArray := seenIds st in
    {| seenIds := drop (Z.to_nat (Z.of_nat (length idsArray) - 5000)) idsArray;
       lastTimestamp := lastTimestamp st; running := running st |}
  else st.

Inductive Cycle :=
| Idle          (* the session was stopped: nothing is done *)
| Completed     (* the [try] block ran to its end *)
| Failed.       (* the call or the callback threw *)

(** One call of [poll]; [answer] is the outcome of its [listLogs] call,
    [None] when the call is rejected. *)
Definition poll (answer : option (list RawLog)) (st : TailState)
    : Cycle * TailState * list NormalizedLog :=
  if negb (running st) then (Idle, st, [])
  else
    match answer with
    | None => (Failed, st, [])
    | Some data =>
        let '(st1, out, ok) := pollLoop data st in
        if ok then (Completed, boundSeen st1, out) else (Failed, st1, out)
    end.

(** A session: the polls that follow [tailLogs], each with the outcome of
    its call, and [stop] requests in between. *)
Inductive TailEvent :=
| Poll (answer : option (list RawLog))
| Stop.

Definition tailStep (st : TailState) (e : TailEvent) : TailState :=
  match e with
  | Poll answer => (poll answer st).1.2
  | Stop => {| seenIds := seenIds st; lastTimestamp := lastTimestamp st;
               running := false |}
  end.

Definition tailLogs (nowIso : jsstring) (events : list TailEvent) : TailState :=
  fold_left tailStep events (tailStart nowIso).

End Tail.

(** *** One-shot queries *)

Record ContextOptions := {
  c_timestamp : jsstring;
  c_service : option jsstring;
  c_before : option jsstring;
  c_after : option jsstring
}.

Record ContextWindows := {
  beforeFrom : Z; beforeTo : Z; afterFrom : Z; afterTo : Z
}.

Section WithDateParse.

Variable Date_parse : jsstring -> option Z.

(** The four bounds of [getLogContext]; [None] when a [toISOString]
    throws. *)
Definition contextWindows (options : ContextOptions) : option ContextWindows :=
  let targetTimestamp : Date := Date_parse (c_timestamp options) in
  let beforeMs := parseDurationToMs (default (codes "5m") (c_before options)) in
  let afterMs := parseDurationToMs (default (codes "5m") (c_after options)) in
  bf ← (t ← targetTimestamp; newDate (sub t beforeMs));
  bt ← targetTimestamp;
  af ← targetTimestamp;
  at_ ← (t ← targetTimestamp; newDate (add t afterMs));
  Some {| beforeFrom := bf; beforeTo := bt; afterFrom := af; afterTo := at_ |}.

Definition getLogContext (options : ContextOptions)
    : option (LogsApi (list NormalizedLog * list NormalizedLog)) :=
  w ← contextWindows options;
  let query :=
    match c_service options with
    | Some ((_ :: _) as svc) => codes "service:" ++ svc
    | _ => codes "*"
    end in
  Some (
    call beforeResponse <- listCall
      {| l_filter := {| f_query := query; f_from := Instant (beforeFrom w);
                        f_to := Instant (beforeTo w) |};
         l_sort := codes "-timestamp"; l_limit := 50 |};
    call afterResponse <- listCall
      {| l_filter := {| f_query := query; f_from := Instant (afterFrom w);
                        f_to := Instant (afterTo w) |};
         l_sort := codes "timestamp"; l_limit := 50 |};
    Ret (rev (normalizeLog <$> beforeResponse), normalizeLog <$> afterResponse)).

(** *** Error summary *)

Record ErrorSummaryResult := {
  total : Z;
  byService : list (jsstring * Z);
  byStatus : list (jsstring * Z);
  topMessages : list (jsstring * Z);
  summaryRange : TimeRange
}.

(** [messageCounts.set(msg, (messageCounts.get(msg) ?? 0) + 1)] *)
Fixpoint setAssoc {V} (k : jsstring) (v : V) (m : list (jsstring * V))
    : list (jsstring * V) :=
  match m with
  | [] => [(k, v)]
  | (k', v') :: m' =>
      if decide (k' = k) then (k', v) :: m' else (k', v') :: setAssoc k v m'
  end.

Definition countMessage (m : list (jsstring * Z)) (log : RawLog)
    : list (jsstring * Z) :=
  let msg := truncateMessage (default [] (r_message log)) in
  setAssoc msg (default 0 (assoc msg m) + 1) m.

Definition getErrorSummary (options : ErrorSummaryOptions) (now : Z)
    : option (LogsApi ErrorSummaryResult) :=
  tr ← parseTimeRange Date_parse (e_from options) (e_to options) now;
  let baseQuery := errorQuery (e_service options) in
  Some (
    call byServiceRes <- aggregateCall
      {| a_filter := filterOf baseQuery tr;
         a_groupBy := [{| g_facet := codes "service"; g_limit := 20 |}] |};
    call byStatusRes <- aggregateCall
      {| a_filter := filterOf baseQuery tr;
         a_groupBy := [{| g_facet := codes "@error.kind"; g_limit := 20 |}] |};
    call totalRes <- aggregateCall
      {| a_filter := filterOf baseQuery tr; a_groupBy := [] |};
    call messagesRes <- listCall
      {| l_filter := filterOf baseQuery tr; l_sort := codes "-timestamp";
         l_limit := 500 |};
    let messageCounts := fold_left countMessage messagesRes [] in
    Ret {| total := default 0 (firstCount totalRes);
           byService := bucketCounts (codes "service") byServiceRes;
           byStatus := bucketCounts (codes "@error.kind") byStatusRes;
           topMessages := take 10 (sortBy (fun a b => b.2 - a.2) messageCounts);
           summaryRange := tr |}).

(** *** Period comparison

    Counts are integers.  The percentage is a quotient: it is computed here
    in exact rationals, which the doubles of the source follow up to their
    rounding. *)

Record Change := { absolute : Z; percentage : Qc }.

Record Window := { w_count : Z; w_from : Z; w_to : Z }.

Record CompareResult := {
  current : Window;
  previous : Window;
  change : Change
}.

(** [Math.round]: the nearest integer, a tie going up. *)
Definition mathRound (x : Qc) : Z := Qfloor (x + Qc_of_Z 1 / Qc_of_Z 2)%Qc.

Definition compareCounts (currentCount previousCount : Z) : Change :=
  let absolute := sub currentCount previousCount in
  let percentage : Qc :=
    if 0 <? previousCount
    then (Qc_of_Z absolute / Qc_of_Z previousCount * Qc_of_Z 100)%Qc
    else if 0 <? currentCount then Qc_of_Z 100 else Qc_of_Z 0 in
  {| absolute := absolute;
     percentage :=
       (Qc_of_Z (mathRound (percentage * Qc_of_Z 10)) / Qc_of_Z 10)%Qc |}.

Definition comparePeriods (query period : jsstring) (now : Z)
    : option (LogsApi CompareResult) :=
  let periodMs := parseDurationToMs period in
  let currentTo := now in
  currentFrom ← newDate (sub now periodMs);
  let previousTo := currentFrom in
  previousFrom ← newDate (sub now (mul periodMs 2));
  Some (
    call currentRes <- aggregateCall
      {| a_filter := {| f_query := query; f_from := Instant currentFrom;
                        f_to := Instant currentTo |};
         a_groupBy := [] |};
    call previousRes <- aggregateCall
      {| a_filter := {| f_query := query; f_from := Instant previousFrom;
                        f_to := Instant previousTo |};
         a_groupBy := [] |};
    let currentCount := default 0 (firstCount currentRes) in
    let previousCount := default 0 (firstCount previousRes) in
    Ret {| current := {| w_count := currentCount; w_from := currentFrom;
                         w_to := currentTo |};
           previous := {| w_count := previousCount; w_from := previousFrom;
                          w_to := previousTo |};
           change := compareCounts currentCount previousCount |}).

(** *** Patterns *)

Record PatternOptions := {
  p_query : jsstring;
  p_from : option jsstring;
  p_to : option jsstring;
  p_limit : option Z
}.

Record PatternEntry := { pattern : jsstring; count : Z; sample : jsstring }.

Record PatternResult := {
  patterns : list PatternEntry;
  patternRange : TimeRange;
  totalLogs : Z
}.

(** The [Map] from a pattern to its count and sample, in insertion order. *)
Abbreviation PatternMap := (list (jsstring * (Z * jsstring))).

(** [existing.count++] on the entry of [k]. *)
Fixpoint countUp (k : jsstring) (m : PatternMap) : PatternMap :=
  match m with
  | [] => []
  | (k', (c, smp)) :: m' =>
      if decide (k' = k) then (k', (c + 1, smp)) :: m'
      else (k', (c, smp)) :: countUp k m'
  end.

Definition addLog (patternMap : PatternMap) (log : RawLog) : PatternMap :=
  let message := default [] (r_message log) in
  let pattern := extractPattern message in
  match assoc pattern patternMap with
  | Some existing => countUp pattern patternMap
  | None => patternMap ++ [(pattern, (1, message))]
  end.

Definition patternsOf (data : list RawLog) : list PatternEntry :=
  let patternMap := fold_left addLog data [] in
  (fun e => {| pattern := e.1; count := e.2.1; sample := e.2.2 |})
    <$> take 50 (sortBy (fun a b => b.2.1 - a.2.1) patternMap).

Definition getLogPatterns (options : PatternOptions) (now : Z)
    : option (LogsApi PatternResult) :=
  tr ← parseTimeRange Date_parse (p_from options) (p_to options) now;
  let limit := default 500 (p_limit options) in
  Some (
    call data <- listCall
      {| l_filter := filterOf (p_query options) tr;
         l_sort := codes "-timestamp"; l_limit := limit |};
    Ret {| patterns := patternsOf data;
           patternRange := tr;
           totalLogs := Z.of_nat (length data) |}).

End WithDateParse.

End Logs.


(** ** The span helpers *)

Module Spans.
Import Js Num Time Backend.

(** A raw span, with what this layer reads of it: its fields, and from the
    two attribute bags ([additionalProperties] and [custom]) the status
    flag, the operation names and whether an [error] object is there.  The
    merged attribute bag of a normalised span plays no part below. *)
Record RawSpan := {
  s_id : option jsstring;
  s_spanId : option jsstring;
  s_traceId : option jsstring;
  s_parentId : option jsstring;
  s_startTimestamp : option Z;
  s_endTimestamp : option Z;
  s_service : option jsstring;
  s_resourceName : option jsstring;
  s_type : option jsstring;
  s_env : option jsstring;
  s_host : option jsstring;
  s_statusFromProps : option jsstring;
  s_operationFromProps : option jsstring;
  s_operationFromCustom : option jsstring;
  s_errorInProps : bool;
  s_errorInCustom : bool
}.

Record NormalizedSpan := {
  spanId : jsstring;
  traceId : jsstring;
  parentId : option jsstring;
  timestamp : jsstring;
  service : option jsstring;
  resourceName : option jsstring;
  operationName : option jsstring;
  duration : option Z;
  status : jsstring;
  env : option jsstring;
  host : option jsstring;
  spanType : option jsstring
}.

(** A node of the trace tree.  Nodes are objects that the builder shares
    and updates in place: they live in a heap, the node made for the
    [i]-th span at address [i], and [children] holds addresses. *)
Record TraceNode := {
  span : NormalizedSpan;
  children : list nat;
  depth : nat
}.

Abbreviation Heap := (list TraceNode).

Definition setNodeDepth (d : nat) (node : TraceNode) : TraceNode :=
  {| span := span node; children := children node; depth := d |}.

Definition pushChild (c : nat) (node : TraceNode) : TraceNode :=
  {| span := span node; children := children node ++ [c];
     depth := depth node |}.

Definition setChildren (cs : list nat) (node : TraceNode) : TraceNode :=
  {| span := span node; children := cs; depth := depth node |}.

Definition childrenAt (heap : Heap) (node : nat) : list nat :=
  match heap !! node with
  | Some n => children n
  | None => []
  end.

Definition depthAt (heap : Heap) (node : nat) : nat :=
  match heap !! node with
  | Some n => depth n
  | None => O
  end.

(** A loop whose body may fail to return. *)
Fixpoint forEach {S A} (body : S -> A -> option S) (s : S) (l : list A)
    : option S :=
  match l with
  | [] => Some s
  | x :: l' =>
      match body s x with
      | Some s' => forEach body s' l'
      | None => None
      end
  end.

(** "Create nodes for all spans": the map from a span id to the address of
    the node last made for it. *)
Fixpoint createNodes (spans : list NormalizedSpan) (next : nat)
    (spanMap : gmap jsstring nat) : gmap jsstring nat :=
  match spans with
  | [] => spanMap
  | span :: rest => createNodes rest (S next) (<[spanId span := next]> spanMap)
  end.

(** "Build parent-child relationships". *)
Fixpoint linkNodes (spanMap : gmap jsstring nat) (spans : list NormalizedSpan)
    (heap : Heap) (roots : list nat) : Heap * list nat :=
  match spans with
  | [] => (heap, roots)
  | span :: rest =>
      match spanMap !! spanId span with
      | None => linkNodes spanMap rest heap roots
      | Some node =>
          let parent :=
            match parentId span with
            | Some ((_ :: _) as pid) => spanMap !! pid
            | _ => None
            end in
          match parent with
          | Some parent =>
              linkNodes spanMap rest (alter (pushChild node) parent heap) roots
          | None => linkNodes spanMap rest heap (roots ++ [node])
          end
      end
  end.

(** "Calculate depths".  The recursion of the source ends only if no node
    is met again below itself; [fuel] bounds its depth and [None] is a
    call that does not return. *)
Fixpoint setDepth (fuel : nat) (heap : Heap) (node : nat) (d : nat)
    : option Heap :=
  match fuel with
  | O => None
  | S fuel' =>
      let heap1 := alter (setNodeDepth d) node heap in
      forEach (fun h child => setDepth fuel' h child (S d)) heap1
              (childrenAt heap1 node)
  end.

Section WithDateParse.

Variable Date_parse : jsstring -> option Z.

(** The comparison of two nodes by the time of their spans; a difference
    with an Invalid Date is [NaN], which [sort] takes as [0]. *)
Definition byTimestamp (heap : Heap) (a b : nat) : Z :=
  match heap !! a, heap !! b with
  | Some na, Some nb =>
      match Date_parse (timestamp (span na)), Date_parse (timestamp (span nb)) with
      | Some ta, Some tb => ta - tb
      | _, _ => 0
      end
  | _, _ => 0
  end.

(** "Sort children by timestamp". *)
Fixpoint sortChildren (fuel : nat) (heap : Heap) (node : nat) : option Heap :=
  match fuel with
  | O => None
  | S fuel' =>
      let sorted := sortBy (byTimestamp heap) (childrenAt heap node) in
      let heap1 := alter (setChildren sorted) node heap in
      forEach (fun h child => sortChildren fuel' h child) heap1 sorted
  end.

(** [buildTraceTree]: the heap of nodes and the addresses of the roots. *)
Definition buildTraceTree (fuel : nat) (spans : list NormalizedSpan)
    : option (Heap * list nat) :=
  let spanMap := createNodes spans O ∅ in
  let heap0 :=
    (fun span => {| span := span; children := []; depth := O |}) <$> spans in
  let '(heap1, roots) := linkNodes spanMap spans heap0 [] in
  heap2 ← forEach (fun h root => setDepth fuel h root O) heap1 roots;
  heap3 ← forEach (fun h root => sortChildren fuel h root) heap2 roots;
  Some (heap3, roots).

(** *** Normalisation and error summary *)

(** The ISO rendering of a valid time value. *)
Variable toISOString : Z -> jsstring.

Definition normalizeSpan (raw : RawSpan) : NormalizedSpan :=
  let duration :=
    match s_startTimestamp raw, s_endTimestamp raw with
    | Some startTs, Some endTs => Some (sub endTs startTs)
    | _, _ => None
    end in
  let status :=
    if bool_decide (s_statusFromProps raw = Some (codes "error"))
       || s_errorInProps raw || s_errorInCustom raw
    then codes "error" else codes "ok" in
  let operationName :=
    match s_operationFromProps raw with
    | Some o => Some o
    | None =>
        match s_operationFromCustom raw with
        | Some o => Some o
        | None => s_type raw
        end
    end in
  {| spanId := default (default [] (s_id raw)) (s_spanId raw);
     traceId := default [] (s_traceId raw);
     parentId := s_parentId raw;
     timestamp := default [] (toISOString <$> s_startTimestamp raw);
     service := s_service raw;
     resourceName := s_resourceName raw;
     operationName := operationName;
     duration := duration;
     status := status;
     env := s_env raw;
     host := s_host raw;
     spanType := s_type raw |}.

Record ErrorSummaryResult := {
  total : Z;
  byService : list (jsstring * Z);
  byResource : list (jsstring * Z);
  recentErrors : list NormalizedSpan;
  summaryRange : TimeRange
}.

Definition getSpanErrors (options : ErrorSummaryOptions) (now : Z)
    : option (Api RawSpan ErrorSummaryResult) :=
  tr ← parseTimeRange Date_parse (e_from options) (e_to options) now;
  let baseQuery := errorQuery (e_service options) in
  Some (
    call byServiceRes <- aggregateCall
      {| a_filter := filterOf baseQuery tr;
         a_groupBy := [{| g_facet := codes "service"; g_limit := 20 |}] |};
    call byResourceRes <- aggregateCall
      {| a_filter := filterOf baseQuery tr;
         a_groupBy := [{| g_facet := codes "resource_name"; g_limit := 20 |}] |};
    call recentRes <- listCall
      {| l_filter := filterOf baseQuery tr; l_sort := codes "-timestamp";
         l_limit := 20 |};
    let byService := bucketCounts (codes "service") byServiceRes in
    Ret {| total := fold_left (fun sum s => add sum s.2) byService 0;
           byService := byService;
           byResource := bucketCounts (codes "resource_name") byResourceRes;
           recentErrors := normalizeSpan <$> recentRes;
           summaryRange := tr |}).

End WithDateParse.

End Spans.

(** ** The other log queries *)

Module LogQueries.
Import Js Regex Num Time Backend Logs.

(** A page of a listing, with the cursor that follows it
    ([response.meta?.page?.after]); a missing [data] is an empty page. *)
Record Page := { data : list RawLog; after : option jsstring }.

(** A query that reads the cursor of its pages. *)
Inductive Paged (A : Type) : Type :=
| Done (a : A)
| ListLogs (r : ListRequest) (k : Page -> Paged A).

Arguments Done {A} a.
Arguments ListLogs {A} r k.

Fixpoint bindPaged {A B} (m : Paged A) (f : A -> Paged B) : Paged B :=
  match m with
  | Done a => f a
  | ListLogs r k => ListLogs r (fun page => bindPaged (k page) f)
  end.

Fixpoint runPaged {A} (h : ListRequest -> Page) (m : Paged A) : A :=
  match m with
  | Done a => a
  | ListLogs r k => runPaged h (k (h r))
  end.

Fixpoint issuedPaged {A} (h : ListRequest -> Page) (m : Paged A)
    : list ListRequest :=
  match m with
  | Done _ => []
  | ListLogs r k => r :: issuedPaged h (k (h r))
  end.

Record SearchOptions := {
  o_query : jsstring;
  o_from : option jsstring;
  o_to : option jsstring;
  o_limit : option Z;
  o_sort : option jsstring
}.

Record SearchResult := {
  logs : list NormalizedLog;
  total : Z;
  cursor : option jsstring;
  timeRange : TimeRange
}.

Record NamedQuery := {
  q_name : jsstring;
  q_query : jsstring;
  q_from : option jsstring;
  q_to : option jsstring
}.

Section WithDateParse.

Variable Date_parse : jsstring -> option Z.

Definition searchLogs (options : SearchOptions) (now : Z)
    : option (Paged SearchResult) :=
  tr ← parseTimeRange Date_parse (o_from options) (o_to options) now;
  let limit := Z.min (default 100 (o_limit options)) 1000 in
  Some (
    ListLogs
      {| l_filter := filterOf (o_query options) tr;
         l_sort := if bool_decide (o_sort options = Some (codes "timestamp"))
                   then codes "timestamp" else codes "-timestamp";
         l_limit := limit |}
      (fun response =>
         let logs := normalizeLog <$> data response in
         Done {| logs := logs;
                 total := Z.of_nat (length logs);
                 cursor := after response;
                 timeRange := tr |})).

(** [aggregateLogs]: the buckets and the time range. *)
Definition aggregateLogs (query facet : jsstring) (from_ to_ : option jsstring)
    (now : Z) : option (LogsApi (list (jsstring * Z) * TimeRange)) :=
  tr ← parseTimeRange Date_parse from_ to_ now;
  Some (
    call response <- aggregateCall
      {| a_filter := filterOf query tr;
         a_groupBy := [{| g_facet := facet; g_limit := 100 |}] |};
    Ret (bucketCounts facet response, tr)).

(** [getLogsByTraceId]: the logs and the time range; the total is the
    number of logs. *)
Definition getLogsByTraceId (traceId : jsstring) (from_ to_ : option jsstring)
    (now : Z) : option (LogsApi (list NormalizedLog * TimeRange)) :=
  tr ← parseTimeRange Date_parse (Some (default (codes "24h") from_)) to_ now;
  Some (
    call response <- listCall
      {| l_filter :=
           filterOf (codes "@trace_id:" ++ traceId ++ codes " OR @dd.trace_id:"
                     ++ traceId) tr;
         l_sort := codes "timestamp"; l_limit := 1000 |};
    Ret (normalizeLog <$> response, tr)).

Definition listServices (from_ to_ : option jsstring) (now : Z)
    : option (LogsApi (list jsstring * TimeRange)) :=
  tr ← parseTimeRange Date_parse (Some (default (codes "24h") from_)) to_ now;
  Some (
    call response <- aggregateCall
      {| a_filter := filterOf (codes "*") tr;
         a_groupBy := [{| g_facet := codes "service"; g_limit := 500 |}] |};
    Ret (fst <$> bucketCounts (codes "service") response, tr)).

(** [output[name] = result] on a plain object: the name [__proto__] sets
    the prototype and adds no key. *)
Definition setKey {V} (name : jsstring) (v : V) (output : gmap jsstring V)
    : gmap jsstring V :=
  if bool_decide (name = codes "__proto__") then output
  else <[name := v]> output.

(** The searches of [multiQuery], in the order of the queries; [clock]
    gives the time at which each of them reads it.  A search whose time
    range cannot be rendered rejects the whole. *)
Fixpoint searchAll (queries : list NamedQuery) (i : nat) (clock : nat -> Z)
    : option (Paged (list (jsstring * SearchResult))) :=
  match queries with
  | [] => Some (Done [])
  | q :: rest =>
      search ← searchLogs {| o_query := q_query q; o_from := q_from q;
                              o_to := q_to q; o_limit := Some 100;
                              o_sort := None |} (clock i);
      others ← searchAll rest (S i) clock;
      Some (bindPaged search (fun result =>
            bindPaged others (fun results =>
            Done ((q_name q, result) :: results))))
  end.

Definition multiQuery (queries : list NamedQuery) (clock : nat -> Z)
    : option (Paged (gmap jsstring SearchResult)) :=
  searches ← searchAll queries O clock;
  Some (bindPaged searches (fun results =>
        Done (fold_left (fun output nr => setKey nr.1 nr.2 output)
                        results ∅))).

End WithDateParse.

End LogQueries.

(** ** The trace hierarchy *)

Module SpanQueries.
Import Js Num Time Backend Spans.

Record TraceHierarchyResult := {
  h_spans : list NormalizedSpan;
  h_tree : Heap * list nat;
  h_traceId : jsstring;
  totalSpans : Z;
  totalDuration : option Z;
  h_range : TimeRange
}.

(** [!s.parentId || !spans.some(p => p.spanId === s.parentId)] *)
Definition isRootSpan (spans : list NormalizedSpan) (s : NormalizedSpan) : bool :=
  negb (truthy (parentId s))
  || negb (existsb (fun p => bool_decide (Some (spanId p) = parentId s)) spans).

(** [Math.max(...durations)] of a list that is not empty. *)
Definition maxOf (durations : list Z) : option Z :=
  match durations with
  | [] => None
  | d :: ds => Some (fold_left Z.max ds d)
  end.

Section WithDateParse.

Variable Date_parse : jsstring -> option Z.
Variable toISOString : Z -> jsstring.

(** [getTraceHierarchy]; the inner [None] is a tree whose construction
    does not return within [fuel] nested calls. *)
Definition getTraceHierarchy (fuel : nat) (traceId : jsstring)
    (from_ to_ : option jsstring) (now : Z)
    : option (Api RawSpan (option TraceHierarchyResult)) :=
  tr ← parseTimeRange Date_parse (Some (default (codes "24h") from_)) to_ now;
  Some (
    call response <- listCall
      {| l_filter := filterOf (codes "trace_id:" ++ traceId) tr;
         l_sort := codes "timestamp"; l_limit := 1000 |};
    let spans := normalizeSpan toISOString <$> response in
    Ret (tree ← buildTraceTree Date_parse fuel spans;
         let rootSpans := filter (fun s => isRootSpan spans s = true) spans in
         let totalDuration :=
           maxOf ((fun s => default 0 (duration s)) <$> rootSpans) in
         Some {| h_spans := spans;
                 h_tree := tree;
                 h_traceId := traceId;
                 totalSpans := Z.of_nat (length spans);
                 totalDuration := totalDuration;
                 h_range := tr |})).

End WithDateParse.

End SpanQueries.

(** ** The command line

    The arguments of the program are a list of strings.  What [main] does
    with them is given up to the call of a command handler; of the
    handlers, the ones of [errors] and [services] are followed to the
    options they pass on.  [parseArgs] returns a plain object; it is read
    below only at the names of flags, none of which the prototype of an
    object defines, so that it is a finite map. *)

Module Cli.
Import Js Backend.

(** [s.startsWith(prefix)] *)
Definition startsWith (prefix s : jsstring) : bool :=
  bool_decide (take (length prefix) s = prefix).

(** [result[key] = value] for a string [value]: the name [__proto__] is an
    accessor that ignores a string, and adds no key. *)
Definition setArg (key value : jsstring) (result : gmap jsstring jsstring)
    : gmap jsstring jsstring :=
  if bool_decide (key = codes "__proto__") then result
  else <[key := value]> result.

(** The loop of [parseArgs] from the argument at hand on. *)
Fixpoint parseArgsFrom (args : list jsstring) (result : gmap jsstring jsstring)
    : gmap jsstring jsstring :=
  match args with
  | [] => result
  | arg :: rest =>
      if startsWith (codes "--") arg then
        let key := drop 2 arg in
        match rest with
        | nextArg :: rest' =>
            if truthy (Some nextArg) && negb (startsWith (codes "--") nextArg)
            then parseArgsFrom rest' (setArg key nextArg result)
            else parseArgsFrom rest (setArg key (codes "true") result)
        | [] => parseArgsFrom rest (setArg key (codes "true") result)
        end
      else parseArgsFrom rest result
  end.

Definition parseArgs (args : list jsstring) : gmap jsstring jsstring :=
  parseArgsFrom args ∅.

Record GlobalFlags := {
  pretty : bool;
  site : option jsstring;
  output : option jsstring
}.

Fixpoint extractGlobalFlagsFrom (args : list jsstring) (flags : GlobalFlags)
    : GlobalFlags :=
  match args with
  | [] => flags
  | arg :: rest =>
      let next := head rest in
      extractGlobalFlagsFrom rest
        (if bool_decide (arg = codes "--pretty") then
           {| pretty := true; site := site flags; output := output flags |}
         else if bool_decide (arg = codes "--site") && truthy next then
           {| pretty := pretty flags; site := next; output := output flags |}
         else if bool_decide (arg = codes "--output") && truthy next then
           {| pretty := pretty flags; site := site flags; output := next |}
         else flags)
  end.

Definition extractGlobalFlags (args : list jsstring) : GlobalFlags :=
  extractGlobalFlagsFrom args
    {| pretty := false; site := None; output := None |}.

(** "Handle --output flag value", the loop of [main]. *)
Fixpoint outputFlag (args : list jsstring) (flags : GlobalFlags) : GlobalFlags :=
  match args with
  | [] => flags
  | arg :: rest =>
      let next := head rest in
      outputFlag rest
        (if bool_decide (arg = codes "--output") && truthy next then
           {| pretty := pretty flags; site := site flags; output := next |}
         else flags)
  end.

Definition isPositional (arg : jsstring) : bool :=
  negb (startsWith (codes "--pretty") arg)
  && negb (startsWith (codes "--site") arg)
  && negb (startsWith (codes "--output") arg).

(** [validateEnvVars]: the names of the variables that are missing; the
    process exits when there is one. *)
Definition validateEnvVars (apiKey appKey : option jsstring) : list jsstring :=
  if negb (truthy apiKey) || negb (truthy appKey) then
    (if negb (truthy apiKey) then [codes "DD_API_KEY"] else [])
    ++ (if negb (truthy appKey) then [codes "DD_APP_KEY"] else [])
  else [].

(** What a run of [main] comes to. *)
Inductive Outcome :=
| Usage
| MissingEnv (missing : list jsstring)
| LogsCommand (subcommand : jsstring) (args : list jsstring)
    (flags : GlobalFlags)
| MetricsCommand (subcommand : jsstring) (args : list jsstring)
    (flags : GlobalFlags)
| ErrorsCommand (args : list jsstring) (flags : GlobalFlags)
| ServicesCommand (args : list jsstring) (flags : GlobalFlags)
| UnknownCommand (command : option jsstring) (flags : GlobalFlags).

Definition main (apiKey appKey : option jsstring) (args : list jsstring)
    : Outcome :=
  if bool_decide (args = []) || bool_decide (head args = Some (codes "--help"))
     || bool_decide (head args = Some (codes "-h"))
  then Usage
  else
    let globalFlags := extractGlobalFlags args in
    let filteredArgs := filter (fun arg => isPositional arg = true) args in
    let globalFlags := outputFlag args globalFlags in
    let command := filteredArgs !! O in
    let subcommand := filteredArgs !! 1%nat in
    let rest := drop 2 filteredArgs in
    match validateEnvVars apiKey appKey with
    | _ :: _ as missing => MissingEnv missing
    | [] =>
        if bool_decide (command = Some (codes "logs")) then
          LogsCommand (default [] subcommand) rest globalFlags
        else if bool_decide (command = Some (codes "metrics")) then
          MetricsCommand (default [] subcommand) rest globalFlags
        else if bool_decide (command = Some (codes "errors")) then
          ErrorsCommand rest globalFlags
        else if bool_decide (command = Some (codes "services")) then
          ServicesCommand rest globalFlags
        else UnknownCommand command globalFlags
    end.

(** The options that [handleErrorsCommand] passes to [getErrorSummary]. *)
Definition handleErrorsCommand (args : list jsstring) : ErrorSummaryOptions :=
  let parsed := parseArgs args in
  {| e_from := parsed !! codes "from";
     e_to := parsed !! codes "to";
     e_service := parsed !! codes "service" |}.

(** The bounds that [handleServicesCommand] passes to [listServices]. *)
Definition handleServicesCommand (args : list jsstring)
    : option jsstring * option jsstring :=
  let parsed := parseArgs args in
  (parsed !! codes "from", parsed !! codes "to").

End Cli.

(** * Vocabulary of the properties *)

Module Spec.
Import Js Regex Num Time Backend.

(** The code unit before the position reached after [s1]. *)
Definition lastOr (prev : option N) (s1 : jsstring) : option N :=
  match last s1 with
  | Some c => Some c
  | None => prev
  end.

(** The milliseconds of a unit of time. *)
Definition unitMs (u : N) : Z :=
  if (u =? ch "s")%N then 1000
  else if (u =? ch "m")%N then 60 * 1000
  else if (u =? ch "h")%N then 60 * 60 * 1000
  else if (u =? ch "d")%N then 24 * 60 * 60 * 1000
  else 0.

(** [s] is a run of decimal digits [ds] followed by one unit [u] of the
    class [units]. *)
Definition digitsUnit (units : N -> bool) (s ds : jsstring) (u : N) : Prop :=
  s = ds ++ [u] ∧ ds ≠ [] ∧ Forall (λ c, isDigit c = true) ds
  ∧ units u = true.

(** The offset from the clock that an optional time string stands for: the
    default when it is absent or empty, and [N] units for a relative string
    whose product is exact in a double. *)
Inductive Offset (dflt : Z) : option jsstring -> Z -> Prop :=
| OffsetDefault s : truthy s = false -> Offset dflt s dflt
| OffsetRelative s ds u :
    digitsUnit isMHD s ds u ->
    digitsValue ds * unitMs u <= 2 ^ 53 ->
    Offset dflt (Some s) (digitsValue ds * unitMs u).

(** [parseRelativeTime] resolves [s] to [n] times [unit] before the clock,
    whatever the clock. *)
Definition resolvesBefore (Date_parse : jsstring -> option Z)
    (s : jsstring) (n unit : Z) : Prop :=
  ∀ now, validTime now -> validTime (now - n * unit) ->
         parseRelativeTime Date_parse s now = Some (now - n * unit).



(** The sum of a list of counts. *)
Definition sumZ (l : list Z) : Z := foldr Z.add 0 l.


(** The strings of one code unit [start], [start + 1], ..., [n] of them. *)
Fixpoint idRange (n : nat) (start : N) : list jsstring :=
  match n with
  | O => []
  | S n' => [start] :: idRange n' (N.succ start)
  end.


Definition logWithId (i : N) : Logs.RawLog :=
  {| Logs.r_id := Some [i]; Logs.r_timestamp := None;
     Logs.r_service := None; Logs.r_status := None;
     Logs.r_message := None |}.

(** A backend that counts 150 records up to [now] and 200 in any other
    window. *)
Definition demoCounts (now : Z) : Handler Logs.RawLog :=
  {| onList := λ _, [];
     onAggregate := λ r,
       match f_to (a_filter r) with
       | Instant t =>
           if decide (t = now) then [{| b_by := []; b_c0 := Some 150 |}]
           else [{| b_by := []; b_c0 := Some 200 |}]
       | Iso _ => []
       end |}.

(** A span backend with two services in error, three spans of the one and
    four of the other, whatever the request. *)
Definition demoSpans : Handler Spans.RawSpan :=
  {| onList := λ _, [];
     onAggregate := λ _,
       [{| b_by := [(codes "service", codes "api")]; b_c0 := Some 3 |};
        {| b_by := [(codes "service", codes "web")]; b_c0 := Some 4 |}] |}.

Definition noOptions : ErrorSummaryOptions :=
  {| e_from := None; e_to := None; e_service := None |}.

(** The message of a log as [getLogPatterns] reads it, and its masked
    key. *)
Definition messageOf (log : Logs.RawLog) : jsstring :=
  default [] (Logs.r_message log).

Definition keyOf (log : Logs.RawLog) : jsstring :=
  Logs.extractPattern (messageOf log).

(** The first log of a page with the key [k], and its position. *)
Definition firstSeen (k : jsstring) (data : list Logs.RawLog)
    : option (nat * Logs.RawLog) :=
  list_find (λ log, keyOf log = k) data.

Definition firstIndex (k : jsstring) (data : list Logs.RawLog) : nat :=
  match firstSeen k data with
  | Some (i, _) => i
  | None => length data
  end.

(** The number of logs of a page with the key [k]. *)
Definition occurrences (k : jsstring) (data : list Logs.RawLog) : Z :=
  Z.of_nat (length (filter (λ log, keyOf log = k) data)).

(** The cluster of [k1] comes before that of [k2]: it is larger, or as
    large and seen first. *)
Definition ranksBefore (data : list Logs.RawLog) (k1 k2 : jsstring) : Prop :=
  occurrences k2 data < occurrences k1 data
  ∨ (occurrences k1 data = occurrences k2 data
     ∧ (firstIndex k1 data < firstIndex k2 data)%nat).

(** An order by a count, descending, then by a second order. *)
Definition rankedBy {A} (f : A -> Z) (R : A -> A -> Prop) (a b : A) : Prop :=
  f b < f a ∨ (f a = f b ∧ R a b).

(** Fifty-one logs whose messages are the single letters from [A] on, and a
    backend that answers every listing with them. *)
Definition manyMessages : list Logs.RawLog :=
  (λ m, {| Logs.r_id := None; Logs.r_timestamp := None;
           Logs.r_service := None; Logs.r_status := None;
           Logs.r_message := Some m |}) <$> idRange 51 65.

Definition demoLogs : Handler Logs.RawLog :=
  {| onList := λ _, manyMessages; onAggregate := λ _, [] |}.

(** What the list of patterns is to a page: at most fifty clusters; each
    with the number of logs of its key and the message of the first of
    them; larger clusters first and, among equals, the one seen first;
    and every cluster left out coming after all those kept. *)
Definition patternsSpec (data : list Logs.RawLog)
    (ps : list Logs.PatternEntry) : Prop :=
  (length ps ≤ 50)%nat
  ∧ (∀ e, e ∈ ps →
       ∃ i log, firstSeen (Logs.pattern e) data = Some (i, log)
         ∧ Logs.sample e = messageOf log
         ∧ Logs.count e = occurrences (Logs.pattern e) data)
  ∧ (∀ i j e1 e2, (i < j)%nat → ps !! i = Some e1 → ps !! j = Some e2 →
       ranksBefore data (Logs.pattern e1) (Logs.pattern e2))
  ∧ (∀ log, log ∈ data →
       (∃ e, e ∈ ps ∧ Logs.pattern e = keyOf log)
       ∨ (length ps = 50%nat
          ∧ ∀ e, e ∈ ps → ranksBefore data (Logs.pattern e) (keyOf log))).

(** The address of the parent of the [i]-th span: that of the first span
    whose id is its parent id, when it has one that is not empty. *)
Definition parentOf (spans : list Spans.NormalizedSpan) (i : nat) : option nat :=
  span ← spans !! i;
  match Spans.parentId span with
  | Some ((_ :: _) as pid) =>
      fst <$> list_find (λ s, Spans.spanId s = pid) spans
  | _ => None
  end.

(** The [k]-th ancestor of a span. *)
Fixpoint ancestor (spans : list Spans.NormalizedSpan) (k : nat) (i : nat)
    : option nat :=
  match k with
  | O => Some i
  | S k' => parentOf spans i ≫= ancestor spans k'
  end.

(** The parent links lead every span to a span without a parent. *)
Definition Acyclic (spans : list Spans.NormalizedSpan) : Prop :=
  ∀ i, (i < length spans)%nat →
       ∃ k r, ancestor spans k i = Some r ∧ parentOf spans r = None.

(** The nodes of the forest: those met from a root by following
    [children]. *)
Inductive Reachable (heap : list Spans.TraceNode) (roots : list nat)
    : nat -> Prop :=
| ReachRoot r : r ∈ roots -> Reachable heap roots r
| ReachChild p c :
    Reachable heap roots p -> c ∈ Spans.childrenAt heap p ->
    Reachable heap roots c.

(** A span with the given id, parent id and timestamp. *)
Definition spanOf (i : jsstring) (p : option jsstring) (t : jsstring)
    : Spans.NormalizedSpan :=
  {| Spans.spanId := i; Spans.traceId := []; Spans.parentId := p;
     Spans.timestamp := t; Spans.service := None;
     Spans.resourceName := None; Spans.operationName := None;
     Spans.duration := None; Spans.status := codes "ok"; Spans.env := None;
     Spans.host := None; Spans.spanType := None |}.


Definition smallTrace : list Spans.NormalizedSpan :=
  [spanOf (codes "a") None (codes "5");
   spanOf (codes "b") (Some (codes "a")) (codes "9");
   spanOf (codes "c") (Some (codes "a")) (codes "3");
   spanOf (codes "d") (Some (codes "c")) (codes "1")].

(** The children lists of a heap follow the parent links of the spans. *)
Definition Linked (spans : list Spans.NormalizedSpan)
    (heap : list Spans.TraceNode) : Prop :=
  length heap = length spans
  ∧ ∀ p c, c ∈ Spans.childrenAt heap p ↔ parentOf spans c = Some p.

(** Two heaps hold the same spans and the same children, in some order. *)
Definition SameTree (h h' : list Spans.TraceNode) : Prop :=
  length h' = length h
  ∧ ∀ i, Spans.childrenAt h' i ≡ₚ Spans.childrenAt h i
         ∧ Spans.span <$> h' !! i = Spans.span <$> h !! i.

(** The same, and the same depths. *)
Definition Ordered (h h' : list Spans.TraceNode) : Prop :=
  SameTree h h' ∧ ∀ i, Spans.depthAt h' i = Spans.depthAt h i.

(** A span at [e] parent links from a span without parent. *)
Definition RootedAt (spans : list Spans.NormalizedSpan) (e node : nat) : Prop :=
  ∃ r, ancestor spans e node = Some r ∧ parentOf spans r = None.

(** What a visit from [node] with depth [d] does to the depths: a node
    keeps its depth or is [k] links below [node] and gets [d + k], and
    every node below [node] gets its depth. *)
Definition Deepens (spans : list Spans.NormalizedSpan) (node d : nat)
    (h h' : list Spans.TraceNode) : Prop :=
  SameTree h h'
  ∧ (∀ m, Spans.depthAt h' m = Spans.depthAt h m
          ∨ ∃ k, ancestor spans k m = Some node
                 ∧ Spans.depthAt h' m = (d + k)%nat)
  ∧ (∀ m k, ancestor spans k m = Some node →
            Spans.depthAt h' m = (d + k)%nat).

(** The same for the visits from the nodes of a list, one after the
    other. *)
Definition DeepensAll (spans : list Spans.NormalizedSpan) (cs : list nat)
    (d : nat) (h h' : list Spans.TraceNode) : Prop :=
  SameTree h h'
  ∧ (∀ m, Spans.depthAt h' m = Spans.depthAt h m
          ∨ ∃ c k, c ∈ cs ∧ ancestor spans k m = Some c
                   ∧ Spans.depthAt h' m = (d + k)%nat)
  ∧ (∀ c m k, c ∈ cs → ancestor spans k m = Some c →
              Spans.depthAt h' m = (d + k)%nat).


(** *** Vocabulary of the masking steps *)

(** An expression whose matches do not depend on the code unit before. *)
Definition ContextFree (r : regex) : Prop :=
  ∀ prev prev' s, matchLen r prev s = matchLen r prev' s.

(** The string literal in quotes [q]; [Logs.reDQuoted] and
    [Logs.reSQuoted] are its two instances. *)
Definition reQuoted (q : N) : regex :=
  [LitC q; AtLeast (λ c, negb (c =? q)%N) 0; LitC q].

(** [QForm q body lone s]: every pair of quotes [q] of [s] holds [body]
    between them; with [lone], one more quote may follow the last pair. *)
Inductive QForm (q : N) (body : jsstring) : bool → jsstring → Prop :=
| QF_nil b : QForm q body b []
| QF_plain b c s : c ≠ q → QForm q body b s → QForm q body b (c :: s)
| QF_pair b s : QForm q body b s → QForm q body b (q :: body ++ q :: s)
| QF_lone s : q ∉ s → QForm q body true (q :: s).

(** What the replacement of [/\s+/g] by one space computes: [inRun] tells
    that the code unit before was white space. *)
Fixpoint squeeze (inRun : bool) (s : jsstring) : jsstring :=
  match s with
  | [] => []
  | c :: s' =>
      if isSpace c
      then (if inRun then squeeze true s' else 32%N :: squeeze true s')
      else c :: squeeze false s'
  end.

(** White space occurs as single spaces only. *)
Fixpoint singleSpaced (inRun : bool) (s : jsstring) : bool :=
  match s with
  | [] => true
  | c :: s' =>
      if isSpace c
      then (c =? 32)%N && negb inRun && singleSpaced true s'
      else singleSpaced false s'
  end.

(** No white space at the head. *)
Definition noLead (s : jsstring) : Prop :=
  match s with
  | c :: _ => isSpace c = false
  | [] => True
  end.

Definition strMask : jsstring := codes "<STR>".

(** The result of the quote and white space steps: both kinds of quoted
    strings are masked, white space is single spaces, none at the ends. *)
Definition Settled (s : jsstring) : Prop :=
  QForm Logs.dquote strMask true s ∧ QForm Logs.squote strMask true s
  ∧ singleSpaced false s = true ∧ noLead s ∧ noLead (rev s).


End Spec.

(** * Vocabulary of the further properties *)

Module MaskTerms.
Import Js Regex Spec.

(** An expression matches nowhere in [t], [prev] being the code unit
    before [t]. *)
Definition NoMatch (r : regex) (prev : option N) (t : jsstring) : Prop :=
  ∀ t1 t2, t = t1 ++ t2 → matchLen r (lastOr prev t1) t2 = None.

(** The run of decimal digits at the head of a string, and what follows
    it. *)
Fixpoint digitRun (s : jsstring) : jsstring :=
  match s with
  | c :: s' => if isDigit c then c :: digitRun s' else []
  | [] => []
  end.

Fixpoint afterRun (s : jsstring) : jsstring :=
  match s with
  | c :: s' => if isDigit c then afterRun s' else s
  | [] => []
  end.

End MaskTerms.

Module WindowTerms.
Import Js Regex Num Time Backend.

(** A page of logs in the order of their timestamps, oldest first or
    newest first; timestamps are compared as strings. *)
Definition oldestFirst (l : list Logs.NormalizedLog) : Prop :=
  StronglySorted (λ a b, strLt (Logs.timestamp b) (Logs.timestamp a) = false) l.

Definition newestFirst (l : list Logs.NormalizedLog) : Prop :=
  StronglySorted (λ a b, strLt (Logs.timestamp a) (Logs.timestamp b) = false) l.

(** An ungrouped count of the logs of [query] between two instants. *)
(** The options of a context query for two minutes after an instant. *)
Definition demoContext : Logs.ContextOptions :=
  {| Logs.c_timestamp := codes "2023-11-14T22:13:20Z";
     Logs.c_service := None; Logs.c_before := None;
     Logs.c_after := Some (codes "2m") |}.

Definition countRequest (query : jsstring) (from_ to_ : Z) : Request :=
  ReqAggregate
    {| a_filter := {| f_query := query; f_from := Instant from_;
                      f_to := Instant to_ |};
       a_groupBy := [] |}.

End WindowTerms.

Module SummaryTerms.
Import Js Regex Num Time Backend.

(** The message of a log as the error summary counts it, and the number of
    logs of a page with the message [m]. *)
Definition truncatedOf (log : Logs.RawLog) : jsstring :=
  Logs.truncateMessage (default [] (Logs.r_message log)).

Definition heard (m : jsstring) (data : list Logs.RawLog) : Z :=
  Z.of_nat (length (filter (λ log, truncatedOf log = m) data)).

(** What the top messages are to a page: at most ten different messages,
    each with the number of logs that carry it, larger counts first, and
    no message left out that is carried by more logs than one kept. *)
Definition topMessagesSpec (data : list Logs.RawLog)
    (tm : list (jsstring * Z)) : Prop :=
  (length tm ≤ 10)%nat
  ∧ NoDup tm.*1
  ∧ (∀ m c, (m, c) ∈ tm → c = heard m data ∧ 0 < c)
  ∧ (∀ i j e1 e2, (i < j)%nat → tm !! i = Some e1 → tm !! j = Some e2 →
       e2.2 <= e1.2)
  ∧ (∀ log, log ∈ data →
       truncatedOf log ∈ tm.*1
       ∨ (length tm = 10%nat
          ∧ ∀ e, e ∈ tm → heard (truncatedOf log) data <= e.2)).

End SummaryTerms.

Module TailTerms.
Import Js Regex Num Time Backend.

(** [a] is not after [b] in the order of strings. *)
Definition strLe (a b : jsstring) : Prop := strLt b a = false.


End TailTerms.

Module QueryTerms.
Import Js Regex Num Time Backend Logs LogQueries Spec.

(** The result that [searchLogs] makes of a page. *)
Definition resultOf (page : Page) (tr : TimeRange) : SearchResult :=
  {| logs := normalizeLog <$> data page;
     total := Z.of_nat (length (data page));
     cursor := after page;
     timeRange := tr |}.

(** The request that [multiQuery] makes for a query, once its time range
    is resolved. *)
Definition requestOf (q : NamedQuery) (tr : TimeRange) : ListRequest :=
  {| l_filter := filterOf (q_query q) tr;
     l_sort := codes "-timestamp"; l_limit := 100 |}.

(** A backend that answers every listing with the same page, and two
    queries that bear the same name. *)
Definition demoPages : ListRequest → Page :=
  λ _, {| data := manyMessages; after := Some (codes "next") |}.

Definition demoSearch : SearchOptions :=
  {| o_query := codes "status:error"; o_from := None; o_to := None;
     o_limit := Some 5000; o_sort := Some (codes "asc") |}.

Definition demoQueries : list NamedQuery :=
  [{| q_name := codes "errors"; q_query := codes "status:error";
      q_from := None; q_to := None |};
   {| q_name := codes "errors"; q_query := codes "status:warn";
      q_from := None; q_to := None |}].

End QueryTerms.

Module TraceTerms.
Import Js Num Time Backend Spans SpanQueries.

(** The spans at the roots of a tree, and the duration that a span counts
    for. *)
Definition rootSpansOf (tree : Heap * list nat) : list NormalizedSpan :=
  omap (λ root, span <$> tree.1 !! root) tree.2.

Definition durationOf (s : NormalizedSpan) : Z := default 0 (duration s).

(** A raw span with an id, a parent and its two instants, and a backend
    that answers every listing with a root span and a child of it. *)
Definition rawSpanOf (i : jsstring) (p : option jsstring) (start finish : Z)
    : RawSpan :=
  {| s_id := None; s_spanId := Some i; s_traceId := None; s_parentId := p;
     s_startTimestamp := Some start; s_endTimestamp := Some finish;
     s_service := None; s_resourceName := None; s_type := None;
     s_env := None; s_host := None; s_statusFromProps := None;
     s_operationFromProps := None; s_operationFromCustom := None;
     s_errorInProps := false; s_errorInCustom := false |}.

Definition demoTrace : Handler RawSpan :=
  {| onList := λ _, [rawSpanOf (codes "a") None 0 50;
                     rawSpanOf (codes "b") (Some (codes "a")) 10 30];
     onAggregate := λ _, [] |}.

End TraceTerms.

Module OrderTerms.
Import Js Num Time Backend.

(** The instant at which the [i]-th span starts, as the sort reads it. *)
Definition startOf (Date_parse : jsstring → option Z)
    (spans : list Spans.NormalizedSpan) (i : nat) : Z :=
  default 0 (spans !! i ≫= λ s, Date_parse (Spans.timestamp s)).

(** The children of a node are in the order of their starts. *)
Definition ChildrenByStart (Date_parse : jsstring → option Z)
    (spans : list Spans.NormalizedSpan) (heap : list Spans.TraceNode)
    (node : nat) : Prop :=
  StronglySorted
    (λ a b, startOf Date_parse spans a <= startOf Date_parse spans b)
    (Spans.childrenAt heap node).

End OrderTerms.

Module CliTerms.
Import Js Backend Cli.

(** The arguments that give each flag of a list with its value. *)
Definition flagArgs (kvs : list (jsstring * jsstring)) : list jsstring :=
  kvs ≫= (λ kv, [codes "--" ++ kv.1; kv.2]).

(** A string that [parseArgs] takes as the value of a flag. *)
Definition isValue (v : jsstring) : Prop :=
  v ≠ [] ∧ startsWith (codes "--") v = false.

(** The value of the last [--output] of the arguments, [o] without one. *)
Fixpoint lastOutput (args : list jsstring) (o : option jsstring)
    : option jsstring :=
  match args with
  | [] => o
  | arg :: rest =>
      lastOutput rest
        (if bool_decide (arg = codes "--output") && truthy (head rest)
         then head rest else o)
  end.

Definition noErrorOptions : ErrorSummaryOptions :=
  {| e_from := None; e_to := None; e_service := None |}.

End CliTerms.

(** * Properties *)

(** ** The matcher *)

Module RegexFacts.
Import Js Regex Spec.

Lemma lastOr_cons prev c s1 : lastOr prev (c :: s1) = lastOr (Some c) s1.
Proof.
  unfold lastOr. destruct s1 as [|d s1]; [done|].
  change (last (c :: d :: s1)) with (last (d :: s1)).
  destruct (last (d :: s1)) eqn:E; [done|].
  by apply last_None in E.
Qed.

Lemma lastOr_snoc prev s1 c : lastOr prev (s1 ++ [c]) = Some c.
Proof. unfold lastOr. by rewrite last_snoc. Qed.

(** What a successful match of a quantified class has taken. *)
Lemma rep_sound p k lo hi prev s n ns :
  rep p k lo hi prev s = Some (n, ns) →
  ∃ s1 s2, s = s1 ++ s2 ∧ length s1 = n ∧ Forall (λ c, p c = true) s1
    ∧ (lo ≤ n)%nat ∧ (∀ h, hi = Some h → (n ≤ h)%nat)
    ∧ k (lastOr prev s1) s2 = Some ns.
Proof.
  revert lo hi prev n ns.
  induction s as [|c s IH]; intros lo hi prev n ns H; simpl in H.
  - destruct lo; [|done]. destruct (k prev []) eqn:Hk; [|done].
    simplify_eq. exists [], []. repeat split; auto with lia.
  - assert (Hstop :
      match lo with
      | O => match k prev (c :: s) with Some ns0 => Some (O, ns0) | None => None end
      | S _ => None
      end = Some (n, ns) →
      ∃ s1 s2, c :: s = s1 ++ s2 ∧ length s1 = n ∧ Forall (λ c, p c = true) s1
        ∧ (lo ≤ n)%nat ∧ (∀ h, hi = Some h → (n ≤ h)%nat)
        ∧ k (lastOr prev s1) s2 = Some ns).
    { intros Hs. destruct lo; [|done].
      destruct (k prev (c :: s)) eqn:Hk; [|done]. simplify_eq.
      exists [], (c :: s). repeat split; auto with lia. }
    destruct (p c && negb (bool_decide (hi = Some O))) eqn:Hpc; [|by apply Hstop].
    apply andb_true_iff in Hpc as [Hp Hhi].
    apply negb_true_iff, bool_decide_eq_false in Hhi.
    destruct (rep p k (Nat.pred lo) (Nat.pred <$> hi) (Some c) s)
      as [[n' ns']|] eqn:Hrec; [|by apply Hstop].
    simplify_eq.
    destruct (IH _ _ _ _ _ Hrec) as (s1 & s2 & -> & Hlen & Hall & Hlo & Hhi' & Hk).
    exists (c :: s1), s2. rewrite lastOr_cons.
    repeat split; simpl; auto with lia.
    intros h ->. destruct h as [|h]; [done|].
    specialize (Hhi' h eq_refl). lia.
Qed.

(** A class with no upper bound takes a whole run, when the rest of the
    expression matches after it. *)
Lemma rep_run p k lo prev s1 s2 ns :
  Forall (λ c, p c = true) s1 →
  (lo ≤ length s1)%nat →
  match s2 with c :: _ => p c = false | [] => True end →
  k (lastOr prev s1) s2 = Some ns →
  rep p k lo None prev (s1 ++ s2) = Some (length s1, ns).
Proof.
  revert lo prev.
  induction s1 as [|c s1 IH]; intros lo prev Hall Hlo Hnext Hk; simpl in *.
  - assert (lo = O) as -> by lia.
    unfold lastOr in Hk; simpl in Hk.
    destruct s2 as [|c s2]; simpl; [by rewrite Hk|].
    by rewrite Hnext, Hk.
  - inversion_clear Hall as [|? ? Hc Hall'].
    rewrite Hc; simpl. rewrite lastOr_cons in Hk.
    rewrite (IH (Nat.pred lo) (Some c)); auto with lia.
Qed.

(** If the rest of the expression fails after the whole run and the next
    code unit is not of the class, giving code units back is tried, and
    fails when the rest cannot start inside the run. *)
Lemma rep_none p k lo hi prev s :
  (∀ s1 s2, s = s1 ++ s2 → Forall (λ c, p c = true) s1 →
     k (lastOr prev s1) s2 = None) →
  rep p k lo hi prev s = None.
Proof.
  revert lo hi prev.
  induction s as [|c s IH]; intros lo hi prev Hk; simpl.
  - destruct lo; [|done].
    pose proof (Hk [] [] eq_refl (Forall_nil_2 _)) as H0.
    unfold lastOr in H0; simpl in H0. by rewrite H0.
  - assert (Hstop :
      match lo with
      | O => match k prev (c :: s) with Some ns0 => Some (O, ns0) | None => None end
      | S _ => None
      end = None).
    { destruct lo; [|done].
      pose proof (Hk [] (c :: s) eq_refl (Forall_nil_2 _)) as H0.
      unfold lastOr in H0; simpl in H0. by rewrite H0. }
    destruct (p c && negb (bool_decide (hi = Some O))) eqn:Hpc; [|done].
    apply andb_true_iff in Hpc as [Hp _].
    rewrite IH; [done|].
    intros s1 s2 -> Hall. rewrite <- lastOr_cons with (prev := prev).
    apply (Hk (c :: s1) s2 eq_refl). by constructor.
Qed.

End RegexFacts.

(** ** Numbers and time strings *)

Module TimeFacts.
Import Js Regex Num Time Spec RegexFacts.

Lemma roundDouble_exact z : Z.abs z <= 2 ^ 53 → roundDouble z = z.
Proof. intros H. unfold roundDouble. by rewrite (Zle_imp_le_bool _ _ H). Qed.

(** Rounding leaves the operations of a goal exact, innermost first, when
    [lia] bounds their results by [2^53]. *)
Ltac exact_round :=
  repeat match goal with
  | |- context [roundDouble ?z] =>
      lazymatch z with
      | context [roundDouble _] => fail
      | _ => rewrite (roundDouble_exact z) by lia
      end
  end.

Lemma maxTime_exact t : validTime t → Z.abs t <= 2 ^ 53.
Proof. unfold validTime, maxTime. lia. Qed.

Lemma newDate_valid t : validTime t → newDate t = Some t.
Proof. intros H. unfold newDate. by rewrite (Zle_imp_le_bool _ _ H). Qed.

Lemma isDigit_range c : isDigit c = true → (48 <= c <= 57)%N.
Proof.
  unfold isDigit, inRange. intros [H1 H2]%andb_true_iff.
  apply N.leb_le in H1, H2. lia.
Qed.

Lemma digitsValue_snoc ds c :
  digitsValue (ds ++ [c]) = 10 * digitsValue ds + (Z.of_N c - 48).
Proof. unfold digitsValue. by rewrite fold_left_app. Qed.

Lemma digitsValue_nonneg ds :
  Forall (λ c, isDigit c = true) ds → 0 <= digitsValue ds.
Proof.
  induction ds as [|c ds IH] using rev_ind; intros H; [done|].
  apply Forall_app in H as [H1 H2]. inversion_clear H2 as [|? ? Hc _].
  apply isDigit_range in Hc. rewrite digitsValue_snoc.
  specialize (IH H1). lia.
Qed.

(** The expressions [^(\d+)(units)$]: a match gives back the digits and
    the unit, and every string of that shape matches. *)
Lemma matchValueUnit_sound units s v u :
  matchValueUnit [AtLeast isDigit 1; Exactly units 1; Eos] s = Some (v, u) →
  digitsUnit units s v u.
Proof.
  unfold matchValueUnit, matchWhole, AtLeast, Exactly. simpl.
  destruct (rep isDigit _ 1 None None s) as [[n ns]|] eqn:H1; [|done].
  apply rep_sound in H1 as (s1 & s2 & -> & Hlen & Hdig & Hlo & _ & Hk).
  destruct (rep units _ 1 (Some 1%nat) (lastOr None s1) s2)
    as [[n2 ns2]|] eqn:H2; [|done].
  apply rep_sound in H2 as (t1 & t2 & -> & Hlen2 & Hu & Hlo2 & Hhi2 & Hk2).
  specialize (Hhi2 _ eq_refl).
  destruct t2; [|done].
  destruct t1 as [|c [|? ?]]; simpl in *; try lia.
  inversion_clear Hu as [|? ? Hc _].
  subst n. rewrite lookup_app_r, Nat.sub_diag by lia. simpl.
  rewrite take_app_length. intros [= <- <-].
  repeat split; auto. intros ->. simpl in Hlo. lia.
Qed.

Lemma matchValueUnit_complete units s ds u :
  (∀ c, units c = true → isDigit c = false) →
  digitsUnit units s ds u →
  matchValueUnit [AtLeast isDigit 1; Exactly units 1; Eos] s = Some (ds, u).
Proof.
  intros Hdisj (-> & Hne & Hdig & Hu).
  unfold matchValueUnit, matchWhole, AtLeast, Exactly. simpl.
  rewrite (rep_run isDigit _ 1 None ds [u] [1%nat; O]); auto.
  - rewrite lookup_app_r, Nat.sub_diag by lia. simpl.
    by rewrite take_app_length.
  - destruct ds; [done|simpl; lia].
  - simpl. by rewrite Hu.
Qed.

Lemma isMHD_not_digit c : isMHD c = true → isDigit c = false.
Proof.
  unfold isMHD, ch. intros H. repeat (apply orb_true_iff in H as [H|H]);
    apply N.eqb_eq in H; by subst.
Qed.

Lemma isSMHD_not_digit c : isSMHD c = true → isDigit c = false.
Proof.
  unfold isSMHD, ch. intros H. repeat (apply orb_true_iff in H as [H|H]);
    apply N.eqb_eq in H; by subst.
Qed.

Lemma isMHD_cases u :
  isMHD u = true → u = ch "m" ∨ u = ch "h" ∨ u = ch "d".
Proof.
  unfold isMHD. intros H. repeat (apply orb_true_iff in H as [H|H]);
    apply N.eqb_eq in H; auto.
Qed.

(** A relative string with a unit of [m], [h] or [d] resolves to the clock
    minus [N] units, when the product is exact in a double. *)
Lemma parseRelativeTime_relative Date_parse s ds u now :
  digitsUnit isMHD s ds u →
  digitsValue ds * unitMs u <= 2 ^ 53 →
  validTime (now - digitsValue ds * unitMs u) →
  parseRelativeTime Date_parse s now = Some (now - digitsValue ds * unitMs u).
Proof.
  intros Hs Hexact Hvalid. unfold parseRelativeTime, reRelative.
  rewrite (matchValueUnit_complete isMHD s ds u isMHD_not_digit Hs).
  destruct Hs as (_ & _ & Hdig & Hu).
  pose proof (digitsValue_nonneg ds Hdig) as Hnn.
  apply maxTime_exact in Hvalid as Hsub.
  unfold parseInt, mul, sub.
  destruct (isMHD_cases u Hu) as [-> | [-> | ->]];
    change (unitMs _) with (60 * 1000) in *||
    change (unitMs _) with (60 * 60 * 1000) in *||
    change (unitMs _) with (24 * 60 * 60 * 1000) in *; simpl N.eqb; cbv iota.
  all: exact_round.
  all: rewrite newDate_valid; [f_equal; lia|].
  all: unfold validTime in *.
  all: match goal with |- Z.abs ?a <= _ =>
         match type of Hvalid with Z.abs ?b <= _ =>
           replace a with b by lia end end; done.
Qed.

End TimeFacts.

(** ** Time ranges and durations *)

Module RangeFacts.
Import Js Regex Num Time Backend Logs Spec RegexFacts TimeFacts.

Lemma validTime_0 : validTime 0.
Proof. unfold validTime, maxTime. lia. Qed.

Lemma unitMs_nonneg u : 0 <= unitMs u.
Proof. unfold unitMs. repeat case_match; lia. Qed.

Lemma Offset_nonneg dflt s a : 0 <= dflt → Offset dflt s a → 0 <= a.
Proof.
  intros Hd [? _ | ? ds u (_ & _ & Hdig & _) _]; [done|].
  pose proof (digitsValue_nonneg ds Hdig). pose proof (unitMs_nonneg u). lia.
Qed.

(** What [parseTimeRange] takes for one bound. *)
Lemma bound_resolves Date_parse dflt s a now :
  validTime now → Offset dflt s a → validTime (now - a) →
  0 <= dflt <= 2 ^ 52 →
  match s with
  | Some ((_ :: _) as t) => parseRelativeTime Date_parse t now
  | _ => newDate (sub now dflt)
  end = Some (now - a).
Proof.
  intros Hnow Hoff Hvalid Hd.
  destruct Hoff as [s Hs | s ds u Hs Hexact].
  - assert (match s with
            | Some ((_ :: _) as t) => parseRelativeTime Date_parse t now
            | _ => newDate (sub now dflt)
            end = newDate (sub now dflt)) as ->.
    { by destruct s as [[|? ?]|]. }
    unfold sub. apply maxTime_exact in Hvalid as Hx.
    rewrite roundDouble_exact by done. by apply newDate_valid.
  - assert (s ≠ []) as Hne.
    { destruct Hs as (-> & _). by destruct ds. }
    destruct s as [|c s]; [done|].
    by apply parseRelativeTime_relative.
Qed.

(** C2 (the claim as stated is refuted): no way of parsing absolute dates
    makes ["30s"] resolve to thirty seconds before the clock; the unit [s]
    is not one that [parseRelativeTime] takes. *)
Lemma relative_seconds_unresolved :
  ¬ ∃ Date_parse, resolvesBefore Date_parse (codes "30s") 30 1000.
Proof.
  intros [dp H].
  assert (Hv : ∀ t, 0 <= t <= 1 → validTime t ∧ validTime (t - 30 * 1000)).
  { intros t Ht. unfold validTime, maxTime. lia. }
  pose proof (H 0 (proj1 (Hv 0 ltac:(lia))) (proj2 (Hv 0 ltac:(lia)))) as H0.
  pose proof (H 1 (proj1 (Hv 1 ltac:(lia))) (proj2 (Hv 1 ltac:(lia)))) as H1.
  unfold parseRelativeTime in H0, H1.
  change (matchValueUnit reRelative (codes "30s")) with
    (@None (jsstring * N)) in H0, H1.
  destruct (dp (codes "30s")); simplify_eq.
Qed.

(** C2 (amended): for every string of decimal digits [N] followed by a unit
    among [m], [h] and [d], and every clock, [parseRelativeTime] returns the
    clock minus [N] units, provided the product is exact in a double
    (at most [2^53]) and the result is a time value of a [Date]. *)
Theorem relative_time_resolves Date_parse s ds u :
  digitsUnit isMHD s ds u →
  digitsValue ds * unitMs u <= 2 ^ 53 →
  resolvesBefore Date_parse s (digitsValue ds) (unitMs u).
Proof.
  intros Hs Hexact now _ Hvalid. by apply parseRelativeTime_relative.
Qed.

Lemma relative_time_resolves_witness :
  parseRelativeTime (λ _, None) (codes "2h") 1705320000000
  = Some 1705312800000.
Proof.
  refine (relative_time_resolves (λ _, None) (codes "2h") (codes "2") (ch "h")
            _ _ 1705320000000 _ _).
  - repeat split; [done | by repeat constructor].
  - vm_compute. discriminate.
  - vm_compute. discriminate.
  - vm_compute. discriminate.
Defined.

(** C3 (the claim as stated is refuted): with [from] absent and [to] set to
    ["1h"], the range starts fifteen minutes and ends one hour before the
    clock. *)
Lemma timeRange_reversed :
  ∃ now, validTime now ∧ ∀ Date_parse, ∃ tr,
    parseTimeRange Date_parse None (Some (codes "1h")) now = Some tr
    ∧ to tr < from tr.
Proof.
  exists 1705320000000. split; [vm_compute; discriminate|].
  intros dp. eexists. split; [vm_compute; reflexivity|]. simpl. lia.
Qed.

(** C3 (amended): [parseTimeRange] takes each bound by itself and does not
    order them.  When [from] and [to] are each absent, empty or a relative
    string of [m], [h] or [d], the range is the clock minus the offset of
    [from] (fifteen minutes by default) up to the clock minus the offset
    of [to] (none by default); so [from ≤ to] exactly when the offset of
    [to] is at most that of [from], which is the case whenever [to] is
    absent or empty. *)
Theorem timeRange_order Date_parse from_ to_ now a b :
  validTime now →
  Offset (15 * 60 * 1000) from_ a → Offset 0 to_ b →
  validTime (now - a) → validTime (now - b) →
  ∃ tr, parseTimeRange Date_parse from_ to_ now = Some tr
    ∧ from tr = now - a ∧ to tr = now - b
    ∧ (from tr <= to tr ↔ b <= a)
    ∧ (truthy to_ = false → from tr <= to tr).
Proof.
  intros Hnow Ha Hb Hva Hvb.
  exists {| from := now - a; to := now - b |}.
  split; [|simpl; repeat split; try lia].
  - unfold parseTimeRange.
    pose proof (bound_resolves Date_parse _ _ _ now Hnow Ha Hva) as Hf.
    pose proof (bound_resolves Date_parse _ _ _ now Hnow Hb Hvb) as Ht.
    change (mul (mul 15 60) 1000) with (15 * 60 * 1000).
    rewrite Hf by lia.
    assert (match to_ with
            | Some ((_ :: _) as t) => parseRelativeTime Date_parse t now
            | _ => Some now
            end = Some (now - b)) as ->; [|done].
    destruct to_ as [[|c t]|]; try apply Ht; try lia.
    all: inversion Hb as [? ? | ? ds u (Hs & _) _]; subst;
      try (by destruct ds); by rewrite Z.sub_0_r.
  - intros Hto.
    assert (b = 0) as ->.
    { inversion Hb as [|? ds u (-> & _) _]; subst; [done|]. by destruct ds. }
    pose proof (Offset_nonneg (15 * 60 * 1000) _ _ ltac:(lia) Ha). lia.
Qed.

Lemma timeRange_order_witness :
  ∃ tr, parseTimeRange (λ _, None) (Some (codes "2h")) None 1705320000000
        = Some tr
    ∧ from tr = 1705320000000 - 7200000 ∧ to tr = 1705320000000 - 0
    ∧ (from tr <= to tr ↔ 0 <= 7200000)
    ∧ (truthy None = false → from tr <= to tr).
Proof.
  refine (timeRange_order (λ _, None) (Some (codes "2h")) None 1705320000000
            (digitsValue (codes "2") * unitMs (ch "h")) 0 _ _ _ _ _).
  - vm_compute. discriminate.
  - apply OffsetRelative.
    + repeat split; [done | by repeat constructor].
    + vm_compute. discriminate.
  - by apply OffsetDefault.
  - vm_compute. discriminate.
  - vm_compute. discriminate.
Defined.



End RangeFacts.

(** ** Masking *)

Module MaskFacts.
Import Js Regex Logs Spec RegexFacts.

(** C1 (the code departs from the claim): on the message of the example the
    integers of the address are masked before the address is looked for, so
    that the result holds four [<N>] separated by dots and no [<IP>]. *)
Theorem extractPattern_example :
  extractPattern
    (codes "User 123e4567-e89b-12d3-a456-426614174000 failed at 10.0.0.1")
  = codes "User <UUID> failed at <N>.<N>.<N>.<N>".
Proof. vm_compute. reflexivity. Qed.


Local Open Scope nat_scope.

(** *** Scanning *)

Lemma replaceFrom_skip r repl k prev s :
  k ≤ length s →
  replaceFrom r repl k prev s
  = replaceFrom r repl 0 (lastOr prev (take k s)) (drop k s).
Proof.
  revert k prev. induction s as [|c s IH]; intros k prev Hk; simpl in *.
  - by assert (k = 0) as -> by lia.
  - destruct k as [|k]; [done|]. rewrite IH by lia.
    change (take (S k) (c :: s)) with (c :: take k s).
    by rewrite lastOr_cons.
Qed.

Lemma replaceFrom_miss r repl prev c s :
  matchLen r prev (c :: s) = None →
  replaceFrom r repl 0 prev (c :: s) = c :: replaceFrom r repl 0 (Some c) s.
Proof. simpl. by intros ->. Qed.

Lemma replaceFrom_hit r repl prev s k :
  matchLen r prev s = Some (S k) → S k ≤ length s →
  replaceFrom r repl 0 prev s
  = repl ++ replaceFrom r repl 0 (lastOr prev (take (S k) s)) (drop (S k) s).
Proof.
  destruct s as [|c s]; [simpl; lia|]. intros Hm Hk.
  simpl replaceFrom. rewrite Hm. simpl in Hk.
  rewrite replaceFrom_skip by lia.
  change (take (S k) (c :: s)) with (c :: take k s).
  by rewrite lastOr_cons.
Qed.

(** An expression without [\b] matches the same whatever comes before. *)
Lemma replaceFrom_context r repl :
  ContextFree r →
  ∀ s k prev prev', replaceFrom r repl k prev s = replaceFrom r repl k prev' s.
Proof.
  intros Hr. induction s as [|c s IH]; intros k prev prev'; simpl.
  - by rewrite (Hr prev prev').
  - destruct k; [|apply IH]. by rewrite (Hr prev prev').
Qed.

(** *** A quoted string *)

Lemma rep_lit c k prev s :
  rep (N.eqb c) k 1 (Some 1) prev s
  = match s with
    | x :: s' =>
        if (c =? x)%N
        then match k (Some x) s' with Some ns => Some (1, ns) | None => None end
        else None
    | [] => None
    end.
Proof.
  destruct s as [|x s']; simpl; [done|].
  destruct (c =? x)%N; simpl; [|done].
  destruct s' as [|y s'']; simpl; rewrite ?andb_false_r;
    by destruct (k (Some x) _).
Qed.

Lemma matchHere_lit c r prev s :
  matchHere (LitC c :: r) prev s
  = match s with
    | x :: s' =>
        if (c =? x)%N then cons 1 <$> matchHere r (Some x) s' else None
    | [] => None
    end.
Proof.
  unfold LitC. simpl matchHere. rewrite rep_lit.
  destruct s as [|x s']; [done|]. destruct (c =? x)%N; [|done].
  by destruct (matchHere r (Some x) s').
Qed.

Lemma notq_Forall q (mid : jsstring) :
  q ∉ mid → Forall (λ c, negb (c =? q)%N = true) mid.
Proof.
  intros Hq. apply Forall_forall. intros c Hc.
  apply negb_true_iff, N.eqb_neq. intros ->. done.
Qed.

Lemma matchQuoted_pair q prev mid rest :
  q ∉ mid →
  matchLen (reQuoted q) prev (q :: mid ++ q :: rest) = Some (S (S (length mid))).
Proof.
  intros Hq. unfold matchLen, reQuoted. rewrite matchHere_lit, N.eqb_refl.
  unfold AtLeast. simpl matchHere.
  rewrite (rep_run _ _ 0 (Some q) mid (q :: rest) [1]).
  - simpl. f_equal. lia.
  - by apply notq_Forall.
  - lia.
  - by rewrite N.eqb_refl.
  - rewrite rep_lit, N.eqb_refl. done.
Qed.

Lemma matchQuoted_lone q prev mid :
  q ∉ mid → matchLen (reQuoted q) prev (q :: mid) = None.
Proof.
  intros Hq. unfold matchLen, reQuoted. rewrite matchHere_lit, N.eqb_refl.
  unfold AtLeast. simpl matchHere. rewrite rep_none; [done|].
  intros s1 s2 -> _. rewrite rep_lit.
  destruct s2 as [|x s2]; [done|].
  destruct (q =? x)%N eqn:Hx; [|done]. apply N.eqb_eq in Hx as <-.
  destruct Hq. apply elem_of_app. right. apply list_elem_of_here.
Qed.

Lemma matchQuoted_other q prev c s :
  c ≠ q → matchLen (reQuoted q) prev (c :: s) = None.
Proof.
  intros Hc. unfold matchLen, reQuoted. rewrite matchHere_lit.
  destruct (q =? c)%N eqn:Hx; [|done]. apply N.eqb_eq in Hx. congruence.
Qed.

Lemma matchQuoted_nil q prev : matchLen (reQuoted q) prev [] = None.
Proof. reflexivity. Qed.

Lemma quoted_context q : ContextFree (reQuoted q).
Proof.
  intros prev prev' s. destruct s as [|c s]; [done|].
  destruct (decide (c = q)) as [->|Hc].
  - destruct (decide (q ∈ s)) as [Hin|Hnot].
    + apply list_elem_of_split_l in Hin as (mid & rest & -> & Hmid).
      by rewrite !matchQuoted_pair.
    + by rewrite !matchQuoted_lone.
  - by rewrite !matchQuoted_other.
Qed.

(** A code unit that is no part of a masked string is not inside one. *)
Lemma body_split (q : N) (body : jsstring) c x y s :
  c ≠ q → c ∉ body → x ++ c :: y = body ++ q :: s →
  ∃ x', x = body ++ q :: x' ∧ s = x' ++ c :: y.
Proof.
  intros Hc. revert x. induction body as [|b0 bd IH]; intros x Hb Heq.
  - destruct x as [|a x]; simpl in *; simplify_eq. by exists x.
  - apply not_elem_of_cons in Hb as [Hb0 Hb].
    destruct x as [|a x]; simpl in *; simplify_eq.
    destruct (IH x Hb) as (x' & -> & ->); [done|]. by exists x'.
Qed.

Section Quoted.
Variables (q : N) (body : jsstring).
Hypothesis body_plain : q ∉ body.

Let repl := q :: body ++ [q].
Let R := replaceAll (reQuoted q) repl.

Lemma R_from prev s : replaceFrom (reQuoted q) repl 0 prev s = R s.
Proof. apply replaceFrom_context, quoted_context. Qed.

Lemma R_nil : R [] = [].
Proof. reflexivity. Qed.

Lemma R_other c s : c ≠ q → R (c :: s) = c :: R s.
Proof.
  intros Hc. unfold R, replaceAll.
  rewrite replaceFrom_miss by (by apply matchQuoted_other).
  by rewrite R_from.
Qed.

Lemma R_none s : q ∉ s → R s = s.
Proof.
  induction s as [|c s IH]; [done|]. intros [Hc Hs]%not_elem_of_cons.
  rewrite R_other by done. by rewrite IH.
Qed.

Lemma R_lone mid : q ∉ mid → R (q :: mid) = q :: mid.
Proof.
  intros Hq. unfold R, replaceAll.
  rewrite replaceFrom_miss by (by apply matchQuoted_lone).
  by rewrite R_from, R_none.
Qed.

Lemma R_pair mid rest :
  q ∉ mid → R (q :: mid ++ q :: rest) = repl ++ R rest.
Proof.
  intros Hq. unfold R, replaceAll.
  rewrite (replaceFrom_hit _ _ _ _ (S (length mid)));
    [|by apply matchQuoted_pair|simpl; rewrite length_app; simpl; lia].
  f_equal. rewrite R_from.
  change (drop (S (S (length mid))) (q :: mid ++ q :: rest))
    with (drop (S (length mid)) (mid ++ q :: rest)).
  rewrite cons_middle, app_assoc.
  by rewrite drop_app_length' by (rewrite length_app; simpl; lia).
Qed.

Lemma repl_eq s : repl ++ s = q :: body ++ q :: s.
Proof. unfold repl. simpl. by rewrite <- app_assoc. Qed.

Lemma R_form s : QForm q body true (R s).
Proof.
  remember (length s) as k eqn:Hk. revert s Hk.
  induction k as [k IH] using lt_wf_ind. intros s ->.
  destruct s as [|c s]; [constructor|].
  destruct (decide (c = q)) as [->|Hc].
  - destruct (decide (q ∈ s)) as [Hin|Hnot].
    + apply list_elem_of_split_l in Hin as (mid & rest & -> & Hmid).
      rewrite R_pair, repl_eq by done. apply QF_pair.
      eapply IH; [|done]. simpl. rewrite length_app. simpl. lia.
    + rewrite R_lone by done. by apply QF_lone.
  - rewrite R_other by done. apply QF_plain; [done|].
    eapply IH; [|done]. simpl. lia.
Qed.


Lemma R_elem x s : x ∈ R s → x ∈ s ∨ x ∈ repl.
Proof.
  remember (length s) as k eqn:Hk. revert s Hk.
  induction k as [k IH] using lt_wf_ind. intros s ->.
  destruct s as [|c s]; [by left|].
  destruct (decide (c = q)) as [->|Hc].
  - destruct (decide (q ∈ s)) as [Hin|Hnot].
    + apply list_elem_of_split_l in Hin as (mid & rest & -> & Hmid).
      rewrite R_pair by done. intros [Hx|Hx]%elem_of_app; [by right|].
      assert (x ∈ rest ∨ x ∈ repl) as [?|?]; [|left|by right].
      { eapply IH; [|done|done]. simpl. rewrite length_app. simpl. lia. } apply elem_of_cons. right. apply elem_of_app. right.
      apply elem_of_cons. by right.
    + rewrite R_lone by done. by left.
  - rewrite R_other by done. intros [->|Hx]%elem_of_cons.
    + left. apply list_elem_of_here.
    + assert (x ∈ s ∨ x ∈ repl) as [?|?]; [|left|by right].
      { eapply IH; [|done|done]. simpl. lia. }
      apply elem_of_cons. by right.
Qed.

Lemma QF_weaken b s : QForm q body b s → QForm q body true s.
Proof.
  induction 1; [apply QF_nil|by apply QF_plain|by apply QF_pair|by apply QF_lone].
Qed.

Lemma QF_plain_all b s : q ∉ s → QForm q body b s.
Proof.
  induction s as [|c s IH]; [intros; apply QF_nil|].
  intros [Hc Hs]%not_elem_of_cons. apply QF_plain; [done|]. by apply IH.
Qed.

Lemma QF_prefix b p s : q ∉ p → QForm q body b s → QForm q body b (p ++ s).
Proof.
  induction p as [|c p IH]; [done|].
  intros [Hc Hp]%not_elem_of_cons Hs. simpl. apply QF_plain; [done|]. by apply IH.
Qed.

Lemma QF_drop_prefix b p s : q ∉ p → QForm q body b (p ++ s) → QForm q body b s.
Proof.
  induction p as [|c p IH]; [done|].
  intros [Hc Hp]%not_elem_of_cons Hs. simpl in Hs. apply IH; [done|].
  inversion Hs; subst; by try done.
Qed.

Lemma QF_split b c x y :
  c ≠ q → c ∉ body → QForm q body b (x ++ c :: y) →
  (QForm q body false x ∧ QForm q body b y) ∨ (b = true ∧ QForm q body true x ∧ q ∉ y).
Proof.
  intros Hc Hb. remember (length x) as k eqn:Hk. revert x Hk.
  induction k as [k IH] using lt_wf_ind. intros x -> H.
  destruct x as [|a x]; simpl in H.
  - inversion H; subst; try done. left. split; [apply QF_nil|done].
  - inversion H as [|b' c' s' Ha Hs|b' s' Hs E1 E2|s' Hs E1 E2].
    + destruct (IH (length x)) with (x := x) as [[? ?]|(? & ? & ?)];
        [simpl; lia|done|done|left|right].
      * split; [by apply QF_plain|done].
      * split; [done|]. split; [by apply QF_plain|done].
    + subst a.
      match goal with E : _ ++ _ :: _ = _ |- _ => symmetry in E;
        destruct (body_split _ _ c x y s' Hc Hb E) as (x' & -> & ->) end.
      destruct (IH (length x')) with (x := x') as [[? ?]|(? & ? & ?)];
        [simpl; rewrite length_app; simpl; lia|done|done|left|right].
      * split; [by apply QF_pair|done].
      * split; [done|]. split; [by apply QF_pair|done].
    + subst a. subst s'. right.
      apply not_elem_of_app in Hs as [Hx Hy].
      apply not_elem_of_cons in Hy as [_ Hy].
      split; [done|]. split; [by apply QF_lone|done].
Qed.

Lemma QF_false b s : QForm q body false s → QForm q body b s.
Proof.
  remember false as b0 eqn:Hb0. intros H. revert Hb0.
  induction H; intros Hb0; [apply QF_nil|apply QF_plain; auto|apply QF_pair; auto|done].
Qed.

Lemma QF_inv b c s :
  QForm q body b (c :: s) →
  (c ≠ q ∧ QForm q body b s)
  ∨ (c = q ∧ ∃ s', s = body ++ q :: s' ∧ QForm q body b s')
  ∨ (c = q ∧ b = true ∧ q ∉ s).
Proof.
  inversion 1 as [|b' c' s' Ha Hs|b' s' Hs E1 E2|s' Hs E1 E2].
  - by left.
  - right. left. split; [done|]. by exists s'.
  - right. right. by subst.
Qed.

Lemma R_prefix p s : q ∉ p → R (p ++ s) = p ++ R s.
Proof.
  induction p as [|c p IH]; [done|].
  intros [Hc Hp]%not_elem_of_cons. simpl.
  rewrite R_other by done. by rewrite IH.
Qed.

End Quoted.

(** The substitution of the strings in one kind of quotes keeps the form of
    the strings in the other kind. *)
Section OtherQuote.
Variables (q q' : N) (body : jsstring).
Hypothesis quotes_differ : q ≠ q'.
Hypothesis body_plain : q ∉ body.
Hypothesis body_plain' : q' ∉ body.

Let repl' := q' :: body ++ [q'].
Let R' := replaceAll (reQuoted q') repl'.

Lemma R'_pair mid rest :
  q' ∉ mid → R' (q' :: mid ++ q' :: rest) = repl' ++ R' rest.
Proof. apply R_pair. Qed.

Lemma R'_lone mid : q' ∉ mid → R' (q' :: mid) = q' :: mid.
Proof. apply R_lone. Qed.

Lemma R'_other c s : c ≠ q' → R' (c :: s) = c :: R' s.
Proof. apply R_other. Qed.

Lemma R'_prefix p s : q' ∉ p → R' (p ++ s) = p ++ R' s.
Proof. apply R_prefix. Qed.

Lemma repl'_plain : q ∉ repl'.
Proof.
  unfold repl'. intros [?|[?|H]%elem_of_app]%elem_of_cons; try done.
  by apply list_elem_of_singleton in H.
Qed.

Lemma R'_keeps_out s : q ∉ s → q ∉ R' s.
Proof.
  intros Hs Hin. apply R_elem in Hin.
  destruct Hin as [?|?]; [done|]. by apply repl'_plain.
Qed.

Lemma other_quote_form b t : QForm q body b t → QForm q body b (R' t).
Proof.
  remember (length t) as k eqn:Hk. revert t Hk.
  induction k as [k IH] using lt_wf_ind. intros t -> H.
  destruct t as [|c s]; [apply QF_nil|].
  destruct (decide (c = q')) as [->|Hc].
  - destruct (decide (q' ∈ s)) as [Hin|Hnot].
    + apply list_elem_of_split_l in Hin as (mid & rest & -> & Hmid).
      rewrite R'_pair by done.
      apply QF_prefix; [apply repl'_plain|].
      apply QF_inv in H; [|done..].
      destruct H as [[_ H]|[[? _]|[? _]]]; [|by subst|by subst].
      apply QF_split in H; [|done || by apply not_eq_sym..].
      destruct H as [[_ H]|(-> & _ & H)].
      * eapply IH; [|done|done]. simpl. rewrite length_app. simpl. lia.
      * apply QF_plain_all. by apply R'_keeps_out.
    + by rewrite R'_lone.
  - rewrite R'_other by done.
    apply QF_inv in H; [|done..].
    destruct H as [[Hq H]|[(-> & s' & -> & H)|(-> & -> & H)]].
    + apply QF_plain; [done|]. eapply IH; [|done|done]. simpl. lia.
    + replace (body ++ q :: s') with ((body ++ [q]) ++ s')
        by (by rewrite <- app_assoc).
      rewrite R'_prefix.
      * rewrite <- app_assoc. apply QF_pair.
        eapply IH; [|done|done]. simpl. rewrite length_app. simpl. lia.
      * intros [?|H']%elem_of_app; [done|].
        apply list_elem_of_singleton in H'. by subst.
    + apply QF_lone. by apply R'_keeps_out.
Qed.

End OtherQuote.

(** *** Whitespace *)

Lemma rep_spaces_context lo hi prev prev' s :
  rep isSpace (matchHere []) lo hi prev s
  = rep isSpace (matchHere []) lo hi prev' s.
Proof.
  revert lo hi prev prev'.
  induction s as [|c s IH]; intros lo hi prev prev'; simpl; [done|].
  destruct (isSpace c && negb (bool_decide (hi = Some O))); [|done].
  done.
Qed.

Lemma spaces_context : ContextFree reSpaces.
Proof.
  intros prev prev' s. unfold matchLen, reSpaces, AtLeast. simpl.
  by rewrite (rep_spaces_context _ _ prev prev').
Qed.

Lemma matchSpaces_nil prev : matchLen reSpaces prev [] = None.
Proof. reflexivity. Qed.

Lemma matchSpaces_other prev c s :
  isSpace c = false → matchLen reSpaces prev (c :: s) = None.
Proof. intros Hc. unfold matchLen, reSpaces, AtLeast. simpl. by rewrite Hc. Qed.

Lemma matchSpaces_run prev run rest :
  Forall (λ c, isSpace c = true) run → run ≠ [] → noLead rest →
  matchLen reSpaces prev (run ++ rest) = Some (length run).
Proof.
  intros Hall Hne Hrest. unfold matchLen, reSpaces, AtLeast. simpl.
  rewrite (rep_run _ _ _ _ _ _ []); simpl; auto with lia.
  destruct run; [done|]. simpl. lia.
Qed.

Lemma span_spaces s :
  ∃ run, s = run ++ trimStart s ∧ Forall (λ c, isSpace c = true) run.
Proof.
  induction s as [|c s (run & E & Hall)]; [by exists []|].
  simpl. destruct (isSpace c) eqn:Hc.
  - exists (c :: run). split; [simpl; by f_equal|by constructor].
  - by exists [].
Qed.

Lemma trimStart_noLead s : noLead (trimStart s).
Proof.
  induction s as [|c s IH]; [done|].
  simpl. destruct (isSpace c) eqn:Hc; [done|]. by simpl.
Qed.

Lemma trimStart_id s : noLead s → trimStart s = s.
Proof. destruct s as [|c s]; [done|]. simpl. by intros ->. Qed.

Section Spaces.
Let W := replaceAll reSpaces [32%N].

Lemma W_from prev s : replaceFrom reSpaces [32%N] 0 prev s = W s.
Proof. apply replaceFrom_context, spaces_context. Qed.

Lemma W_other c s : isSpace c = false → W (c :: s) = c :: W s.
Proof.
  intros Hc. unfold W, replaceAll.
  rewrite replaceFrom_miss by (by apply matchSpaces_other).
  by rewrite W_from.
Qed.

Lemma W_run run rest :
  Forall (λ c, isSpace c = true) run → run ≠ [] → noLead rest →
  W (run ++ rest) = 32%N :: W rest.
Proof.
  intros Hall Hne Hrest. unfold W, replaceAll.
  destruct run as [|c run]; [done|].
  rewrite (replaceFrom_hit _ _ _ _ (length run));
    [|by apply (matchSpaces_run _ (c :: run))|simpl; rewrite length_app; lia].
  rewrite W_from. simpl. f_equal.
  change (c :: run ++ rest) with ((c :: run) ++ rest).
  by rewrite drop_app_length' by done.
Qed.

Lemma squeeze_run run rest :
  Forall (λ c, isSpace c = true) run →
  squeeze true (run ++ rest) = squeeze true rest.
Proof. induction 1 as [|c run Hc _ IH]; [done|]. simpl. by rewrite Hc. Qed.

Lemma squeeze_noLead f s : noLead s → squeeze f s = squeeze false s.
Proof. destruct s as [|c s]; [done|]. simpl. by intros ->. Qed.

Lemma W_squeeze s : W s = squeeze false s.
Proof.
  remember (length s) as k eqn:Hk. revert s Hk.
  induction k as [k IH] using lt_wf_ind. intros s ->.
  destruct s as [|c s]; [done|].
  destruct (isSpace c) eqn:Hc.
  - destruct (span_spaces s) as (run & E & Hall).
    rewrite E. change (c :: run ++ trimStart s) with ((c :: run) ++ trimStart s).
    rewrite W_run; [|by constructor|done|apply trimStart_noLead].
    simpl. rewrite Hc. f_equal.
    rewrite squeeze_run by done.
    rewrite (squeeze_noLead true) by apply trimStart_noLead.
    eapply IH; [|done]. simpl. rewrite E at 2. rewrite length_app. lia.
  - rewrite W_other by done. simpl. rewrite Hc. f_equal.
    eapply IH; [|done]. simpl. lia.
Qed.

End Spaces.

Lemma squeeze_fixed f s : singleSpaced f s = true → squeeze f s = s.
Proof.
  revert f. induction s as [|c s IH]; intros f; [done|]. simpl.
  destruct (isSpace c).
  - intros [[Hc Hf%negb_true_iff]%andb_true_iff Hs]%andb_true_iff.
    apply N.eqb_eq in Hc. subst. by rewrite IH.
  - intros Hs. by rewrite IH.
Qed.

Lemma squeeze_spaced f s : singleSpaced f (squeeze f s) = true.
Proof.
  revert f. induction s as [|c s IH]; intros f; [done|]. simpl.
  destruct (isSpace c) eqn:Hc.
  - destruct f; [apply IH|]. simpl. apply IH.
  - simpl. rewrite Hc. apply IH.
Qed.

Lemma squeeze_elem x f s : x ∈ squeeze f s → x ∈ s ∨ x = 32%N.
Proof.
  revert f. induction s as [|c s IH]; intros f; [by left|]. simpl.
  destruct (isSpace c), f.
  - intros [?|?]%IH; [left|by right]. apply elem_of_cons. by right.
  - intros [->|[?|?]%IH]%elem_of_cons; [by right|left|by right].
    apply elem_of_cons. by right.
  - intros [->|[?|?]%IH]%elem_of_cons; [left|left|by right].
    + apply list_elem_of_here.
    + apply elem_of_cons. by right.
  - intros [->|[?|?]%IH]%elem_of_cons; [left|left|by right].
    + apply list_elem_of_here.
    + apply elem_of_cons. by right.
Qed.

Lemma squeeze_prefix f p s :
  Forall (λ c, isSpace c = false) p → p ≠ [] →
  squeeze f (p ++ s) = p ++ squeeze false s.
Proof.
  intros Hall. revert f. induction Hall as [|c p Hc Hall IH]; intros f Hne; [done|].
  simpl. rewrite Hc. f_equal.
  destruct p as [|d p]; [done|]. by apply IH.
Qed.

Lemma singleSpaced_trimStart f s :
  singleSpaced f s = true → singleSpaced false (trimStart s) = true.
Proof.
  destruct s as [|c s]; [done|]. simpl.
  destruct (isSpace c) eqn:Hc; [|by simpl; rewrite Hc].
  intros [_ Hs]%andb_true_iff.
  destruct s as [|d s]; [done|]. simpl in *.
  destruct (isSpace d) eqn:Hd; [by rewrite andb_false_r in Hs|].
  simpl. by rewrite Hd.
Qed.

Lemma singleSpaced_app f x y : singleSpaced f (x ++ y) = true → singleSpaced f x = true.
Proof.
  revert f. induction x as [|c x IH]; intros f; [done|]. simpl.
  destruct (isSpace c).
  - intros [H Hs]%andb_true_iff. rewrite H. simpl. by eapply IH.
  - apply IH.
Qed.

Lemma span_spaces_end s :
  ∃ run, s = trimEnd s ++ run ∧ Forall (λ c, isSpace c = true) run.
Proof.
  destruct (span_spaces (rev s)) as (run & E & Hall).
  exists (rev run). split; [|by apply Forall_rev].
  unfold trimEnd. rewrite <- rev_app_distr, <- E. by rewrite rev_involutive.
Qed.

Lemma singleSpaced_trimEnd f s :
  singleSpaced f s = true → singleSpaced f (trimEnd s) = true.
Proof.
  destruct (span_spaces_end s) as (run & E & _). rewrite E at 1.
  apply singleSpaced_app.
Qed.

Lemma trimEnd_id s : noLead (rev s) → trimEnd s = s.
Proof. intros H. unfold trimEnd. rewrite trimStart_id by done. apply rev_involutive. Qed.

Lemma trimEnd_noTrail s : noLead (rev (trimEnd s)).
Proof. unfold trimEnd. rewrite rev_involutive. apply trimStart_noLead. Qed.

Lemma trimEnd_noLead s : noLead s → noLead (trimEnd s).
Proof.
  destruct (span_spaces_end s) as (run & E & Hall).
  destruct (trimEnd s) as [|c x] eqn:Ex; [done|].
  rewrite E. by simpl.
Qed.

Lemma trim_fixed s : noLead s → noLead (rev s) → trim s = s.
Proof.
  intros H1 H2. unfold trim. rewrite trimStart_id by done. by apply trimEnd_id.
Qed.

Lemma trim_noLead s : noLead (trim s).
Proof. apply trimEnd_noLead, trimStart_noLead. Qed.

Lemma trim_noTrail s : noLead (rev (trim s)).
Proof. apply trimEnd_noTrail. Qed.

(** The white space steps keep the form of the quoted strings. *)
Section QuotedSpaces.
Variables (q : N) (body : jsstring).
Hypothesis body_plain : q ∉ body.
Hypothesis quote_solid : isSpace q = false.
Hypothesis body_solid : Forall (λ c, isSpace c = false) body.

Lemma spaces_plain run : Forall (λ c, isSpace c = true) run → q ∉ run.
Proof.
  intros Hall Hin. rewrite Forall_forall in Hall.
  apply Hall in Hin. congruence.
Qed.

Lemma spaces_outside run : Forall (λ c, isSpace c = true) run →
  ∀ c, c ∈ run → c ∉ body.
Proof.
  intros Hall c Hin Hb. rewrite Forall_forall in Hall, body_solid.
  apply Hall in Hin. apply body_solid in Hb. congruence.
Qed.

Lemma squeeze_form b f t : QForm q body b t → QForm q body b (squeeze f t).
Proof.
  intros H. revert f. induction H as [b|b c s Hc _ IH|b s _ IH|s Hs]; intros f.
  - apply QF_nil.
  - simpl. destruct (isSpace c) eqn:Hsp.
    + destruct f; [apply IH|]. apply QF_plain; [|apply IH].
      intros <-. done.
    + by apply QF_plain.
  - replace (q :: body ++ q :: s) with ((q :: body ++ [q]) ++ s)
      by (simpl; by rewrite <- app_assoc).
    rewrite squeeze_prefix; [| |done].
    + simpl. rewrite <- app_assoc. apply QF_pair, IH.
    + constructor; [done|]. apply Forall_app. split; [done|]. by constructor.
  - simpl. rewrite quote_solid. apply QF_lone.
    intros [?|E]%squeeze_elem; [done|]. by rewrite E in quote_solid.
Qed.

Lemma squeeze_form_W b t :
  QForm q body b t → QForm q body b (replaceAll reSpaces [32%N] t).
Proof. rewrite W_squeeze. apply squeeze_form. Qed.

Lemma trimStart_form b t : QForm q body b t → QForm q body b (trimStart t).
Proof.
  destruct (span_spaces t) as (run & E & Hall). rewrite E at 1.
  intros H. eapply QF_drop_prefix; [done|apply spaces_plain, Hall|exact H].
Qed.

Lemma trimEnd_form b t : QForm q body b t → QForm q body b (trimEnd t).
Proof.
  destruct (span_spaces_end t) as (run & E & Hall). rewrite E at 1.
  destruct run as [|c run]; [by rewrite app_nil_r|].
  intros H. apply QF_split in H; [|done|..].
  - destruct H as [[H _]|(-> & H & _)]; [by apply QF_false|done].
  - intros ->. apply (spaces_plain (q :: run)); [done|apply list_elem_of_here].
  - apply (spaces_outside (c :: run)); [done|apply list_elem_of_here].
Qed.

Lemma trim_form b t : QForm q body b t → QForm q body b (trim t).
Proof. intros H. by apply trimEnd_form, trimStart_form. Qed.

End QuotedSpaces.

(** *** The steps of [extractPattern] after the token substitutions *)

Lemma maskQuoted_steps s :
  maskQuoted s
  = trim (replaceAll reSpaces [32%N]
      (replaceAll (reQuoted squote) (squote :: strMask ++ [squote])
        (replaceAll (reQuoted dquote) (dquote :: strMask ++ [dquote]) s))).
Proof. reflexivity. Qed.

Lemma strMask_plain q : (q =? 34)%N || (q =? 39)%N = true → q ∉ strMask.
Proof.
  intros Hq Hin. unfold strMask in Hin. simpl in Hin.
  repeat (apply elem_of_cons in Hin as [->|Hin]; [by vm_compute in Hq|]).
  by apply elem_of_nil in Hin.
Qed.

Lemma strMask_solid : Forall (λ c, isSpace c = false) strMask.
Proof. unfold strMask. simpl. by repeat constructor. Qed.

Lemma maskQuoted_settled u : Settled (maskQuoted u).
Proof.
  rewrite maskQuoted_steps. repeat split.
  - apply trim_form; [by apply strMask_plain|done|apply strMask_solid|].
    apply squeeze_form_W; [by apply strMask_plain|done|apply strMask_solid|].
    apply other_quote_form; [done|by apply strMask_plain..|].
    apply R_form.
  - apply trim_form; [by apply strMask_plain|done|apply strMask_solid|].
    apply squeeze_form_W; [by apply strMask_plain|done|apply strMask_solid|].
    apply R_form.
  - unfold trim. apply singleSpaced_trimEnd.
    eapply singleSpaced_trimStart. rewrite W_squeeze. apply squeeze_spaced.
  - apply trim_noLead.
  - apply trim_noTrail.
Qed.





End MaskFacts.

(** ** Period comparison *)

Module CompareFacts.
Import Js Num Time Backend Logs Spec TimeFacts.







End CompareFacts.

(** ** Live tail *)

Module TailFacts.
Import Js Num Time Backend Logs Spec.

Section WithCallback.
Variable onLog : NormalizedLog → bool.

(** The loop only adds to the set, at its end. *)
Lemma pollLoop_appends data st :
  ∃ added, seenIds (pollLoop onLog data st).1.1 = seenIds st ++ added.
Proof.
  revert st. induction data as [|log data IH]; intros st; simpl.
  - exists []. by rewrite app_nil_r.
  - case_bool_decide; [apply IH|].
    destruct (onLog (normalizeLog log)).
    + match goal with |- context [pollLoop onLog data ?s] =>
        destruct (IH s) as [added Hadd];
        destruct (pollLoop onLog data s) as [[st' out] ok] end.
      simpl in *. rewrite Hadd. rewrite <- app_assoc. eauto.
    + simpl. eauto.
Qed.






End WithCallback.


End TailFacts.

(** ** Error summaries *)

Module SummaryFacts.
Import Js Num Time Backend Spec TimeFacts.

Lemma sumZ_cons x l : sumZ (x :: l) = x + sumZ l.
Proof. reflexivity. Qed.

Lemma sumZ_nonneg l : Forall (λ x, 0 <= x) l → 0 <= sumZ l.
Proof.
  induction 1 as [|x l Hx _ IH]; [done|]. rewrite sumZ_cons. lia.
Qed.

(** Adding up counts in doubles is exact while the sum stays below [2^53]. *)
Lemma sum_exact (l : list (jsstring * Z)) a :
  Forall (λ s, 0 <= s.2) l → 0 <= a → a + sumZ (snd <$> l) <= 2 ^ 53 →
  fold_left (λ sum s, add sum s.2) l a = a + sumZ (snd <$> l).
Proof.
  revert a. induction l as [|s l IH]; intros a Hl Ha Hs.
  { simpl. unfold sumZ. simpl. lia. }
  inversion_clear Hl as [|? ? H1 H2].
  rewrite fmap_cons, sumZ_cons in *.
  assert (0 <= sumZ (snd <$> l)) as Hnn.
  { apply sumZ_nonneg, Forall_fmap. by eapply Forall_impl. }
  simpl. unfold add at 2. rewrite roundDouble_exact by lia.
  rewrite IH; auto; lia.
Qed.

Section SpanSummary.
Variable Date_parse : jsstring → option Z.
Variable toISOString : Z → jsstring.

(** C10: whatever the backend answers, the total of [getSpanErrors] is the
    sum of the counts of its [byService] list (the counts being
    non-negative integers whose sum is exact in a double), a list read from
    the aggregation grouped by service with a limit of 20 buckets.  The
    span summary issues three requests, two grouped aggregations and one
    listing, and no aggregation without a group-by; the log summary issues
    such a request and reads its total from it. *)
Theorem span_errors_total options now prog (h : Handler Spans.RawSpan) :
  Spans.getSpanErrors Date_parse toISOString options now = Some prog →
  let r := run h prog in
  (Forall (λ s, 0 <= s.2) (Spans.byService r) →
   sumZ (snd <$> Spans.byService r) <= 2 ^ 53 →
   Spans.total r = sumZ (snd <$> Spans.byService r))
  ∧ (∃ byServiceReq byResourceReq recentReq,
       issued h prog = [ReqAggregate byServiceReq; ReqAggregate byResourceReq;
                        ReqList recentReq]
       ∧ a_groupBy byServiceReq
         = [{| g_facet := codes "service"; g_limit := 20 |}]
       ∧ a_groupBy byResourceReq
         = [{| g_facet := codes "resource_name"; g_limit := 20 |}]
       ∧ Spans.byService r
         = bucketCounts (codes "service") (onAggregate h byServiceReq))
  ∧ (∀ logProg (logs : Handler Logs.RawLog),
       Logs.getErrorSummary Date_parse options now = Some logProg →
       ∃ totalReq, ReqAggregate totalReq ∈ issued logs logProg
         ∧ a_groupBy totalReq = []
         ∧ Logs.total (run logs logProg)
           = default 0 (firstCount (onAggregate logs totalReq))).
Proof.
  unfold Spans.getSpanErrors, Logs.getErrorSummary.
  destruct (parseTimeRange Date_parse (e_from options) (e_to options) now)
    as [tr|]; [|done].
  simpl. intros [= <-]. simpl. split; [|split].
  - intros Hnn Hs. rewrite sum_exact; auto with lia.
  - eexists _, _, _. repeat split.
  - intros logProg logs [= <-]. simpl. eexists. split.
    + rewrite !elem_of_cons. auto.
    + done.
Qed.

End SpanSummary.

Lemma span_errors_total_witness :
  ∃ prog,
    Spans.getSpanErrors (λ _, None) (λ _, []) noOptions 1705320000000
    = Some prog
    ∧ Spans.total (run demoSpans prog)
      = sumZ (snd <$> Spans.byService (run demoSpans prog))
    ∧ sumZ (snd <$> Spans.byService (run demoSpans prog)) = 7.
Proof.
  assert (E : parseTimeRange (λ _, None) None None 1705320000000
              = Some {| from := 1705319100000; to := 1705320000000 |})
    by (vm_compute; reflexivity).
  assert (E' : ∃ prog, Spans.getSpanErrors (λ _, None) (λ _, []) noOptions
                         1705320000000 = Some prog).
  { unfold Spans.getSpanErrors. simpl e_from. simpl e_to. rewrite E.
    eexists. reflexivity. }
  destruct E' as [prog E']. exists prog. split; [exact E'|].
  pose proof (proj1 (span_errors_total (λ _, None) (λ _, []) noOptions
                       1705320000000 prog demoSpans E')) as H.
  unfold Spans.getSpanErrors in E'. simpl e_from in E'. simpl e_to in E'.
  rewrite E in E'. injection E' as <-.
  split; [apply H|].
  - vm_compute. repeat constructor; discriminate.
  - vm_compute. discriminate.
  - vm_compute. reflexivity.
Defined.

End SummaryFacts.

(** ** Patterns *)

Module PatternFacts.
Import Js Num Time Backend Logs Spec.

(** *** The stable sort *)

Section Sorting.
Context {A : Type} (f : A → Z) (R : A → A → Prop).

Let cmp (a b : A) : Z := f b - f a.

Lemma insertBy_perm (c : A → A → Z) x l : insertBy c x l ≡ₚ x :: l.
Proof.
  induction l as [|y l IH]; simpl; [done|].
  case_match; [|done]. rewrite IH. apply Permutation_swap.
Qed.

Lemma sortBy_perm (c : A → A → Z) l : sortBy c l ≡ₚ l.
Proof.
  induction l as [|x l IH]; simpl; [done|].
  rewrite insertBy_perm. by rewrite IH.
Qed.

Lemma insertBy_sorted x l :
  StronglySorted (rankedBy f R) l → Forall (R x) l →
  StronglySorted (rankedBy f R) (insertBy cmp x l).
Proof.
  induction l as [|y l IH]; intros Hs Hx; simpl.
  - repeat constructor.
  - apply StronglySorted_inv in Hs as [Hs Hy].
    apply Forall_cons in Hx as [Hxy Hx].
    unfold cmp at 1. case_match eqn:Hc.
    + apply Z.ltb_lt in Hc. constructor; [by apply IH|].
      rewrite insertBy_perm. constructor; [left; lia|done].
    + apply Z.ltb_ge in Hc. constructor; [by constructor|].
      constructor.
      * destruct (decide (f y = f x)); [right; split; [done|done]|left; lia].
      * rewrite Forall_forall in Hy, Hx |- *. intros z Hz.
        destruct (Hy z Hz) as [?|[? ?]].
        -- left. lia.
        -- destruct (decide (f y = f x)); [right|left; lia].
           split; [lia|]. by apply Hx.
Qed.

Lemma sortBy_sorted l :
  StronglySorted R l → StronglySorted (rankedBy f R) (sortBy cmp l).
Proof.
  induction l as [|x l IH]; intros Hs; simpl; [constructor|].
  apply StronglySorted_inv in Hs as [Hs Hx].
  apply insertBy_sorted; [by apply IH|].
  by rewrite sortBy_perm.
Qed.

Lemma StronglySorted_lookup (Q : A → A → Prop) l i j x y :
  StronglySorted Q l → (i < j)%nat → l !! i = Some x → l !! j = Some y → Q x y.
Proof.
  intros Hs. revert i j. induction Hs as [|z l Hs IH Hz]; intros i j Hij Hi Hj.
  - done.
  - destruct i as [|i], j as [|j]; simpl in *; try lia; simplify_eq.
    + rewrite Forall_forall in Hz. apply Hz. by eapply list_elem_of_lookup_2.
    + eapply IH; [|done..]. lia.
Qed.

End Sorting.

(** *** The map of patterns *)

Lemma assoc_Some_elem {V} k (v : V) m : assoc k m = Some v → (k, v) ∈ m.
Proof.
  induction m as [|[k' v'] m IH]; simpl; [done|].
  case_decide as Hk; [intros [= ->]; subst; apply elem_of_cons; auto|].
  intros H. apply elem_of_cons. auto.
Qed.

Lemma assoc_None {V} k (m : list (jsstring * V)) :
  assoc k m = None ↔ k ∉ m.*1.
Proof.
  induction m as [|[k' v'] m IH]; simpl.
  - split; [intros _; apply not_elem_of_nil|done].
  - rewrite not_elem_of_cons. case_decide as Hk.
    + split; [done|]. intros [Hne _]. by destruct Hne.
    + rewrite IH. split; [by intros ?; split; [apply not_eq_sym|]|by intros [_ ?]].
Qed.

Lemma elem_assoc {V} k (v : V) m :
  NoDup m.*1 → (k, v) ∈ m → assoc k m = Some v.
Proof.
  induction m as [|[k' v'] m IH]; simpl; intros Hnd Hin.
  - by apply elem_of_nil in Hin.
  - apply NoDup_cons in Hnd as [Hk' Hnd].
    apply elem_of_cons in Hin as [[= <- <-]|Hin]; [by rewrite decide_True|].
    rewrite decide_False; [by apply IH|].
    intros ->. apply Hk'. apply list_elem_of_fmap. by exists (k, v).
Qed.

Lemma assoc_app {V} k (m1 m2 : list (jsstring * V)) :
  assoc k (m1 ++ m2)
  = match assoc k m1 with Some v => Some v | None => assoc k m2 end.
Proof.
  induction m1 as [|[k' v'] m1 IH]; simpl; [done|]. by case_decide.
Qed.

Lemma countUp_keys k m : (countUp k m).*1 = m.*1.
Proof.
  induction m as [|[k' [c smp]] m IH]; simpl; [done|].
  case_decide; csimpl; [done|]. by rewrite IH.
Qed.

Lemma assoc_countUp k k0 m :
  assoc k0 (countUp k m)
  = if decide (k0 = k) then (λ v, (v.1 + 1, v.2)) <$> assoc k m
    else assoc k0 m.
Proof.
  induction m as [|[k' [c smp]] m IH]; simpl.
  - by case_decide.
  - destruct (decide (k' = k)) as [->|Hk]; simpl.
    + destruct (decide (k = k0)) as [->|?].
      * by rewrite decide_True.
      * by rewrite decide_False by done.
    + destruct (decide (k' = k0)) as [->|?].
      * by rewrite decide_False by done.
      * by rewrite IH.
Qed.

(** The page seen so far. *)
Lemma firstSeen_snoc k data log :
  firstSeen k (data ++ [log])
  = match firstSeen k data with
    | Some r => Some r
    | None => if decide (keyOf log = k) then Some (length data, log) else None
    end.
Proof.
  unfold firstSeen. destruct (list_find _ data) as [[i x]|] eqn:Hf.
  - by erewrite list_find_app_l.
  - rewrite list_find_app_r by done. simpl.
    case_decide; simpl; [f_equal; f_equal; lia|done].
Qed.

Lemma occurrences_snoc k data log :
  occurrences k (data ++ [log])
  = occurrences k data + (if decide (keyOf log = k) then 1 else 0).
Proof.
  unfold occurrences. rewrite filter_app, length_app.
  rewrite filter_cons, filter_nil. case_decide; simpl; lia.
Qed.

Lemma firstSeen_lt k data i log :
  firstSeen k data = Some (i, log) → (i < length data)%nat ∧ keyOf log = k.
Proof.
  unfold firstSeen. intros (Hi & Hk & _)%list_find_Some.
  split; [by eapply lookup_lt_Some|done].
Qed.

Lemma firstSeen_None k data :
  firstSeen k data = None ↔ k ∉ keyOf <$> data.
Proof.
  unfold firstSeen. rewrite list_find_None, Forall_forall.
  rewrite list_elem_of_fmap. split.
  - intros Hall (x & Hk & Hin). by apply (Hall x Hin).
  - intros Hno x Hin Hx. apply Hno. by exists x.
Qed.

(** What the map holds after a page. *)
Record Clustered (data : list RawLog) (m : list (jsstring * (Z * jsstring)))
    : Prop := {
  clustered_entry k c smp :
    assoc k m = Some (c, smp) →
    ∃ i log, firstSeen k data = Some (i, log)
      ∧ smp = messageOf log ∧ c = occurrences k data;
  clustered_all log : log ∈ data → keyOf log ∈ m.*1;
  clustered_order :
    StronglySorted (λ k1 k2, (firstIndex k1 data < firstIndex k2 data)%nat)
      m.*1
}.

Lemma StronglySorted_impl_elem {A} (R R' : relation A) l :
  (∀ x y, x ∈ l → y ∈ l → R x y → R' x y) →
  StronglySorted R l → StronglySorted R' l.
Proof.
  intros Himpl Hs. induction Hs as [|x l Hs IH Hx]; constructor.
  - apply IH. intros ?????. apply Himpl; try done; by apply elem_of_cons; right.
  - rewrite Forall_forall in Hx |- *. intros y Hy.
    apply Himpl; [apply elem_of_cons; by left|apply elem_of_cons; by right|auto].
Qed.

Lemma occurrences_unseen k data : firstSeen k data = None → occurrences k data = 0.
Proof.
  unfold firstSeen, occurrences. rewrite list_find_None.
  induction 1 as [|x l Hx _ IH]; [done|].
  rewrite filter_cons. by rewrite decide_False.
Qed.

Lemma addLog_clustered data m log :
  Clustered data m → Clustered (data ++ [log]) (addLog m log).
Proof.
  intros [He Ha Ho]. unfold addLog.
  fold (messageOf log). fold (keyOf log).
  assert (Hold : ∀ k, k ∈ m.*1 →
            ∃ i l, firstSeen k data = Some (i, l)
              ∧ firstSeen k (data ++ [log]) = Some (i, l)
              ∧ (i < length data)%nat).
  { intros k Hk. destruct (assoc k m) as [[c smp]|] eqn:Hm.
    - destruct (He _ _ _ Hm) as (i & l & Hf & _). exists i, l.
      rewrite firstSeen_snoc, Hf. repeat split. by eapply firstSeen_lt.
    - by apply assoc_None in Hm. }
  assert (Hidx : ∀ k, k ∈ m.*1 →
            firstIndex k (data ++ [log]) = firstIndex k data
            ∧ (firstIndex k data < length data)%nat).
  { intros k Hk. destruct (Hold k Hk) as (i & l & H1 & H2 & Hlt).
    unfold firstIndex. by rewrite H1, H2. }
  assert (Hsame : StronglySorted
            (λ k1 k2, (firstIndex k1 (data ++ [log])
                       < firstIndex k2 (data ++ [log]))%nat) m.*1).
  { eapply StronglySorted_impl_elem; [|exact Ho]. simpl.
    intros k1 k2 H1 H2. destruct (Hidx k1 H1) as [-> _].
    by destruct (Hidx k2 H2) as [-> _]. }
  assert (Hentry : ∀ k c smp, assoc k m = Some (c, smp) →
            ∃ i l, firstSeen k (data ++ [log]) = Some (i, l)
              ∧ smp = messageOf l
              ∧ c + (if decide (keyOf log = k) then 1 else 0)
                = occurrences k (data ++ [log])).
  { intros k c smp Hm. destruct (He _ _ _ Hm) as (i & l & Hf & -> & ->).
    exists i, l. rewrite firstSeen_snoc, Hf, occurrences_snoc. done. }
  destruct (assoc (keyOf log) m) as [existing|] eqn:Hk.
  - split.
    + intros k c smp. rewrite assoc_countUp.
      destruct (decide (k = keyOf log)) as [->|Hne].
      * rewrite Hk. simpl. intros [= <- <-].
        destruct existing as [c0 smp0].
        destruct (Hentry _ _ _ Hk) as (i & l & ? & ? & Hc).
        rewrite decide_True in Hc by done. eauto.
      * intros Hm. destruct (Hentry _ _ _ Hm) as (i & l & ? & ? & Hc).
        rewrite decide_False in Hc by done. exists i, l.
        repeat split; [done..|lia].
    + intros l [Hl| ->%list_elem_of_singleton]%elem_of_app;
        rewrite countUp_keys; [by apply Ha|].
      destruct (decide (keyOf log ∈ m.*1)); [done|].
      apply assoc_None in n. congruence.
    + by rewrite countUp_keys.
  - apply assoc_None in Hk as Hnew.
    assert (firstSeen (keyOf log) data = None) as Hunseen.
    { apply firstSeen_None. intros (l & Hl & Hin)%list_elem_of_fmap.
      apply Hnew. rewrite Hl. by apply Ha. }
    split.
    + intros k c smp. rewrite assoc_app.
      destruct (assoc k m) as [v|] eqn:Hm.
      * intros [= ->]. destruct (Hentry _ _ _ Hm) as (i & l & ? & ? & Hc).
        rewrite decide_False in Hc.
        -- exists i, l. repeat split; [done..|lia].
        -- intros Heq. apply Hnew. rewrite Heq.
           apply list_elem_of_fmap. exists (k, (c, smp)).
           split; [done|]. by apply assoc_Some_elem.
      * simpl. case_decide as Hd; [|done]. intros [= <- <-]. subst k.
        exists (length data), log.
        rewrite firstSeen_snoc, Hunseen, occurrences_snoc.
        rewrite !decide_True by done.
        rewrite occurrences_unseen by done. done.
    + intros l [Hl| ->%list_elem_of_singleton]%elem_of_app; rewrite fmap_app;
        apply elem_of_app; [left; by apply Ha|right].
      simpl. apply elem_of_cons. by left.
    + rewrite fmap_app. apply StronglySorted_app_2; [|done|repeat constructor].
      intros k1 k2 H1 ->%list_elem_of_singleton.
      destruct (Hidx k1 H1) as [-> Hlt]. simpl.
      unfold firstIndex at 2. rewrite firstSeen_snoc, Hunseen.
      by rewrite decide_True.
Qed.

Lemma fold_clustered data : Clustered data (fold_left addLog data []).
Proof.
  induction data as [|log data IH] using rev_ind.
  - split; simpl; [done| |constructor].
    intros log Hl. by apply elem_of_nil in Hl.
  - rewrite fold_left_app. simpl. by apply addLog_clustered.
Qed.

Lemma StronglySorted_NoDup {A} (R : relation A) l :
  (∀ x, ¬ R x x) → StronglySorted R l → NoDup l.
Proof.
  intros Hirr. induction 1 as [|x l Hs IH Hx]; constructor; [|done].
  intros Hin. rewrite Forall_forall in Hx. by apply (Hirr x), Hx.
Qed.

Lemma StronglySorted_fmap_inv {A B} (f : A → B) (R : relation B) l :
  StronglySorted R (f <$> l) → StronglySorted (λ x y, R (f x) (f y)) l.
Proof.
  induction l as [|x l IH]; [constructor|].
  rewrite fmap_cons. intros [Hs Hx]%StronglySorted_inv.
  constructor; [exact (IH Hs)|]. rewrite Forall_fmap in Hx. exact Hx.
Qed.

Section Patterns.
Variable data : list RawLog.

Let m := fold_left addLog data [].
Let sorted := sortBy (λ a b : jsstring * (Z * jsstring), b.2.1 - a.2.1) m.

Lemma map_keys_NoDup : NoDup m.*1.
Proof.
  eapply StronglySorted_NoDup; [|apply (clustered_order _ _ (fold_clustered data))].
  simpl. lia.
Qed.

Lemma sorted_entry e :
  e ∈ sorted →
  ∃ i log, firstSeen e.1 data = Some (i, log)
    ∧ e.2.2 = messageOf log ∧ e.2.1 = occurrences e.1 data.
Proof.
  unfold sorted. rewrite sortBy_perm. intros He.
  destruct e as [k [c smp]].
  apply (clustered_entry _ _ (fold_clustered data)).
  apply elem_assoc; [apply map_keys_NoDup|done].
Qed.

Lemma sorted_ranked :
  StronglySorted (λ e1 e2, ranksBefore data e1.1 e2.1) sorted.
Proof.
  pose proof (clustered_order _ _ (fold_clustered data)) as Ho.
  fold m in Ho.
  assert (StronglySorted
            (λ e1 e2 : jsstring * (Z * jsstring),
               (firstIndex e1.1 data < firstIndex e2.1 data)%nat) m) as Hm.
  { by apply StronglySorted_fmap_inv in Ho. }
  apply (sortBy_sorted (λ e : jsstring * (Z * jsstring), e.2.1)) in Hm.
  fold sorted in Hm.
  eapply StronglySorted_impl_elem; [|exact Hm]. simpl.
  intros e1 e2 H1 H2 Hr.
  destruct (sorted_entry e1 H1) as (_ & _ & _ & _ & E1).
  destruct (sorted_entry e2 H2) as (_ & _ & _ & _ & E2).
  unfold rankedBy in Hr. unfold ranksBefore. rewrite <- E1, <- E2. exact Hr.
Qed.

Lemma patternsOf_eq :
  patternsOf data
  = (λ e : jsstring * (Z * jsstring),
       {| pattern := e.1; count := e.2.1; sample := e.2.2 |})
    <$> take 50 sorted.
Proof. reflexivity. Qed.

Lemma patternsOf_spec :
  let ps := patternsOf data in
  (length ps ≤ 50)%nat
  ∧ (∀ e, e ∈ ps →
       ∃ i log, firstSeen (pattern e) data = Some (i, log)
         ∧ sample e = messageOf log
         ∧ count e = occurrences (pattern e) data)
  ∧ (∀ i j e1 e2, (i < j)%nat → ps !! i = Some e1 → ps !! j = Some e2 →
       ranksBefore data (pattern e1) (pattern e2))
  ∧ (∀ log, log ∈ data →
       (∃ e, e ∈ ps ∧ pattern e = keyOf log)
       ∨ (length ps = 50%nat
          ∧ ∀ e, e ∈ ps → ranksBefore data (pattern e) (keyOf log))).
Proof.
  simpl. rewrite patternsOf_eq.
  pose proof sorted_ranked as Hs. rewrite <- (take_drop 50 sorted) in Hs.
  split; [|split; [|split]].
  - rewrite length_fmap, length_take. lia.
  - intros e (x & -> & Hx)%list_elem_of_fmap. simpl.
    apply sorted_entry. rewrite <- (take_drop 50 sorted).
    apply elem_of_app. by left.
  - intros i j e1 e2 Hij H1 H2.
    apply list_lookup_fmap_Some in H1 as (x1 & -> & H1).
    apply list_lookup_fmap_Some in H2 as (x2 & -> & H2). simpl.
    apply StronglySorted_app_1_l in Hs.
    exact (StronglySorted_lookup _ _ i j _ _ Hs Hij H1 H2).
  - intros log Hlog.
    pose proof (clustered_all _ _ (fold_clustered data) log Hlog) as Hk.
    fold m in Hk. apply list_elem_of_fmap in Hk as (x & Hkx & Hx).
    assert (x ∈ sorted) as Hin by (unfold sorted; by rewrite sortBy_perm).
    rewrite <- (take_drop 50 sorted) in Hin.
    apply elem_of_app in Hin as [Hin|Hin].
    + left. eexists. split; [apply list_elem_of_fmap; by eexists|]. done.
    + right. split.
      * rewrite length_fmap, length_take.
        assert (drop 50 sorted ≠ []) as Hne by (intros E; rewrite E in Hin; by apply elem_of_nil in Hin).
        destruct (decide (50 ≤ length sorted)%nat); [lia|].
        rewrite drop_ge in Hne by lia. done.
      * intros e (y & -> & Hy)%list_elem_of_fmap. simpl. rewrite Hkx.
        by apply (StronglySorted_app_1_elem_of _ _ _ _ _ Hs).
Qed.

End Patterns.

(** C7 (the claim as stated is refuted): a caller asks for a limit of 1000
    and the page holds 51 logs with 51 different keys; the list has 50
    patterns, not 51. *)
Lemma patterns_cap_not_callers :
  ∃ prog,
    getLogPatterns (λ _, None)
      {| p_query := codes "*"; p_from := None; p_to := None;
         p_limit := Some 1000 |} 1705320000000 = Some prog
    ∧ totalLogs (run demoLogs prog) = 51
    ∧ NoDup (keyOf <$> manyMessages)
    ∧ length (patterns (run demoLogs prog)) = 50%nat.
Proof.
  assert (E : parseTimeRange (λ _, None) None None 1705320000000
              = Some {| from := 1705319100000; to := 1705320000000 |})
    by (vm_compute; reflexivity).
  unfold getLogPatterns. simpl p_from. simpl p_to. rewrite E.
  eexists. split; [reflexivity|].
  split; [vm_compute; reflexivity|]. split; [|vm_compute; reflexivity].
  apply (bool_decide_unpack _). vm_compute. exact I.
Qed.

(** C7 (amended): whatever the backend answers, [getLogPatterns] returns
    the clusters of the page sorted by descending count, ties kept in
    first-seen order, each with the first message seen for its key as
    sample, and the list is cut to its first 50 entries whatever limit the
    caller gives; the caller's limit, 500 by default, is the number of logs
    asked of the backend. *)
Theorem patterns_clustered Date_parse options now prog (h : Handler RawLog) :
  getLogPatterns Date_parse options now = Some prog →
  ∃ req, issued h prog = [ReqList req]
    ∧ l_limit req = default 500 (p_limit options)
    ∧ patternsSpec (onList h req) (patterns (run h prog)).
Proof.
  unfold getLogPatterns.
  destruct (parseTimeRange Date_parse (p_from options) (p_to options) now)
    as [tr|]; [|done].
  simpl. intros [= <-]. simpl. eexists. split; [reflexivity|].
  split; [done|]. apply patternsOf_spec.
Qed.

Lemma patterns_clustered_witness :
  ∃ prog,
    getLogPatterns (λ _, None)
      {| p_query := codes "*"; p_from := None; p_to := None;
         p_limit := None |} 1705320000000 = Some prog
    ∧ ∃ req, issued demoLogs prog = [ReqList req]
        ∧ l_limit req = 500
        ∧ patternsSpec (onList demoLogs req) (patterns (run demoLogs prog)).
Proof.
  assert (E : parseTimeRange (λ _, None) None None 1705320000000
              = Some {| from := 1705319100000; to := 1705320000000 |})
    by (vm_compute; reflexivity).
  assert (E' : ∃ prog, getLogPatterns (λ _, None)
      {| p_query := codes "*"; p_from := None; p_to := None;
         p_limit := None |} 1705320000000 = Some prog).
  { unfold getLogPatterns. simpl p_from. simpl p_to. rewrite E.
    eexists. reflexivity. }
  destruct E' as [prog E']. exists prog. split; [exact E'|].
  exact (patterns_clustered _ _ _ prog demoLogs E').
Defined.

End PatternFacts.

(** ** The trace tree *)

Module TreeFacts.
Import Js Num Time Backend Spans Spec.
Local Open Scope nat_scope.

(** *** The map of span ids *)

Lemma createNodes_lookup spans next spanMap k :
  NoDup (spanId <$> spans) →
  createNodes spans next spanMap !! k
  = match list_find (λ s, spanId s = k) spans with
    | Some (i, _) => Some (next + i)
    | None => spanMap !! k
    end.
Proof.
  revert next spanMap.
  induction spans as [|s spans IH]; intros next spanMap Hnd; simpl; [done|].
  rewrite fmap_cons in Hnd. apply NoDup_cons in Hnd as [Hs Hnd].
  rewrite IH by done. case_decide as Hk.
  - subst k. simpl.
    destruct (list_find _ spans) as [[i x]|] eqn:Hf.
    + apply list_find_Some in Hf as (Hi & Hx & _).
      destruct Hs. rewrite <- Hx. apply list_elem_of_fmap.
      exists x. split; [done|]. by eapply list_elem_of_lookup_2.
    + rewrite lookup_insert_eq. f_equal. lia.
  - destruct (list_find _ spans) as [[i x]|] eqn:Hf; simpl.
    + f_equal. lia.
    + by rewrite lookup_insert_ne.
Qed.

Lemma spanMap_lookup spans k :
  NoDup (spanId <$> spans) →
  createNodes spans 0 ∅ !! k
  = fst <$> list_find (λ s, spanId s = k) spans.
Proof.
  intros Hnd. rewrite createNodes_lookup by done.
  destruct (list_find _ spans) as [[i x]|]; [done|]. apply lookup_empty.
Qed.

Lemma find_own_id spans i s :
  NoDup (spanId <$> spans) → spans !! i = Some s →
  list_find (λ x, spanId x = spanId s) spans = Some (i, s).
Proof.
  intros Hnd Hi. apply list_find_Some. split; [done|]. split; [done|].
  intros j y Hj Hlt Hy.
  assert (j = i); [|lia].
  eapply (NoDup_lookup _ _ _ (spanId s) Hnd); rewrite list_lookup_fmap.
  - by rewrite Hj, <- Hy.
  - by rewrite Hi.
Qed.

Section Tree.
Variable spans : list NormalizedSpan.
Hypothesis distinct : NoDup (spanId <$> spans).

Let n := length spans.
Let par := parentOf spans.
Let spanMap := createNodes spans 0 ∅.

Lemma par_lt c p : par c = Some p → c < n ∧ p < n.
Proof.
  unfold par, parentOf. destruct (spans !! c) as [s|] eqn:Hc; [|done]. simpl.
  intros Hp. split; [by eapply lookup_lt_Some|].
  destruct (parentId s) as [[|x pid]|]; try done.
  destruct (list_find _ spans) as [[i y]|] eqn:Hf; [|done].
  simpl in Hp. simplify_eq. apply list_find_Some in Hf as (Hi & _).
  by eapply lookup_lt_Some.
Qed.

(** The parent that the loop finds for a span is the one of [parentOf]. *)
Lemma loop_parent j s :
  spans !! j = Some s →
  spanMap !! spanId s = Some j
  ∧ match parentId s with
    | Some ((_ :: _) as pid) => spanMap !! pid
    | _ => None
    end = par j.
Proof.
  intros Hj. unfold spanMap, par, parentOf. rewrite Hj. simpl. split.
  - rewrite spanMap_lookup by done. by erewrite find_own_id.
  - destruct (parentId s) as [[|x pid]|]; try done.
    by rewrite spanMap_lookup.
Qed.

Lemma childrenAt_push c p heap q :
  p < length heap →
  childrenAt (alter (pushChild c) p heap) q
  = childrenAt heap q ++ (if decide (q = p) then [c] else []).
Proof.
  intros Hp. unfold childrenAt. destruct (decide (q = p)) as [->|Hne].
  - rewrite list_lookup_alter_eq.
    destruct (lookup_lt_is_Some_2 heap p Hp) as [x ->]. done.
  - rewrite list_lookup_alter_ne by done.
    destruct (heap !! q); by rewrite app_nil_r.
Qed.

Lemma linkNodes_spec rest j heap roots :
  drop j spans = rest → length heap = n →
  ∃ heap' roots',
    linkNodes spanMap rest heap roots = (heap', roots')
    ∧ length heap' = n
    ∧ roots' = roots ++ filter (λ i, par i = None) (seq j (length rest))
    ∧ (∀ p, childrenAt heap' p
            = childrenAt heap p
              ++ filter (λ c, par c = Some p) (seq j (length rest)))
    ∧ (∀ i, span <$> heap' !! i = span <$> heap !! i)
    ∧ (∀ i, depthAt heap' i = depthAt heap i).
Proof.
  revert j heap roots.
  induction rest as [|s rest IH]; intros j heap roots Hdrop Hlen; simpl.
  - exists heap, roots. rewrite app_nil_r.
    repeat split; auto. intros p. by rewrite app_nil_r.
  - assert (spans !! j = Some s) as Hj.
    { pose proof (lookup_drop spans j 0) as Hl.
      rewrite Hdrop, Nat.add_0_r in Hl. by rewrite <- Hl. }
    assert (drop (S j) spans = rest) as Hdrop'.
    { by rewrite <- Nat.add_1_r, <- drop_drop, Hdrop. }
    destruct (loop_parent j s Hj) as [-> ->].
    destruct (par j) as [p|] eqn:Hp.
    + destruct (par_lt _ _ Hp) as [_ Hpn].
      destruct (IH (S j) (alter (pushChild j) p heap) roots Hdrop')
        as (heap' & roots' & -> & Hl & -> & Hch & Hsp & Hd).
      { by rewrite length_alter. }
      exists heap', (roots ++ filter (λ i, par i = None) (seq (S j) (length rest))).
      split; [done|]. split; [done|]. split; [|split; [|split]].
      * rewrite filter_cons, decide_False; [done|]. by rewrite Hp.
      * intros q. rewrite Hch, childrenAt_push by lia.
        rewrite filter_cons, <- app_assoc. f_equal.
        destruct (decide (q = p)) as [->|Hne].
        -- by rewrite decide_True.
        -- rewrite decide_False; [done|]. rewrite Hp. by intros [= ->].
      * intros i. rewrite Hsp. destruct (decide (i = p)) as [->|Hne].
        -- rewrite list_lookup_alter_eq. by destruct (heap !! p).
        -- by rewrite list_lookup_alter_ne.
      * intros i. rewrite Hd. unfold depthAt.
        destruct (decide (i = p)) as [->|Hne].
        -- rewrite list_lookup_alter_eq. by destruct (heap !! p).
        -- by rewrite list_lookup_alter_ne.
    + destruct (IH (S j) heap (roots ++ [j]) Hdrop' Hlen)
        as (heap' & roots' & -> & Hl & -> & Hch & Hsp & Hd).
      eexists _, _. split; [done|]. split; [done|]. split; [|split; [|done]].
      * rewrite filter_cons, decide_True by done. by rewrite <- app_assoc.
      * intros q. rewrite Hch. f_equal. rewrite filter_cons, decide_False; [done|].
        by rewrite Hp.
Qed.

(** *** Ancestors *)

Local Abbreviation anc := (ancestor spans).

Lemma anc_add a b i : anc (a + b) i = anc a i ≫= anc b.
Proof.
  revert i. induction a as [|a IH]; intros i; simpl; [done|].
  destruct (parentOf spans i) as [p|]; simpl; [apply IH|done].
Qed.

Lemma anc_S_r k m node :
  anc (S k) m = Some node ↔ ∃ c, anc k m = Some c ∧ par c = Some node.
Proof.
  replace (S k) with (k + 1) by lia. rewrite anc_add.
  destruct (anc k m) as [c|]; simpl.
  - unfold par. destruct (parentOf spans c) as [p|] eqn:Hp; simpl; split.
    + intros [= ->]. eauto.
    + intros (c' & [= <-] & Hc). congruence.
    + done.
    + intros (c' & [= <-] & Hc). congruence.
  - split; [done|]. by intros (c & ? & _).
Qed.

Lemma anc_root k r : par r = None → anc k r = Some r ∨ anc k r = None.
Proof.
  intros Hr. destruct k; simpl; [by left|]. right.
  unfold par in Hr. by rewrite Hr.
Qed.

(** A span has one distance to a span without parent, and one such
    ancestor. *)
Lemma root_unique m k1 k2 r1 r2 :
  anc k1 m = Some r1 → par r1 = None →
  anc k2 m = Some r2 → par r2 = None →
  k1 = k2 ∧ r1 = r2.
Proof.
  assert (Hle : ∀ k1 k2 r1 r2, k1 ≤ k2 →
            anc k1 m = Some r1 → par r1 = None →
            anc k2 m = Some r2 → k1 = k2 ∧ r1 = r2).
  { clear. intros k1 k2 r1 r2 Hle H1 Hr1 H2.
    replace k2 with (k1 + (k2 - k1)) in H2 by lia.
    rewrite anc_add, H1 in H2. simpl in H2.
    destruct (k2 - k1) as [|j] eqn:Hj; simpl in H2.
    - split; [lia|congruence].
    - unfold par in Hr1. by rewrite Hr1 in H2. }
  intros H1 Hr1 H2 Hr2. destruct (decide (k1 ≤ k2)).
  - by eapply Hle.
  - destruct (Hle k2 k1 r2 r1) as [-> ->]; auto with lia.
Qed.

Lemma no_cycle node e r j :
  anc e node = Some r → par r = None → anc (S j) node ≠ Some node.
Proof.
  intros He Hr Hc.
  assert (anc (S j + e) node = Some r) as H1.
  { by rewrite anc_add, Hc. }
  destruct (root_unique node e (S j + e) r r); auto. lia.
Qed.

Lemma anc_lt k m x : m < n → anc k m = Some x → x < n.
Proof.
  destruct k as [|k]; simpl; [by intros ? [= ->]|].
  intros _ H. change (anc (S k) m = Some x) in H.
  apply anc_S_r in H as (c & _ & Hp). by apply par_lt in Hp as [_ ?].
Qed.

Lemma anc_prefix k j m x :
  anc k m = Some x → j ≤ k → ∃ y, anc j m = Some y ∧ anc (k - j) y = Some x.
Proof.
  intros H Hle. replace k with (j + (k - j)) in H by lia.
  rewrite anc_add in H. destruct (anc j m) as [y|]; [|done]. eauto.
Qed.

(** The distance to a span without parent is less than the number of
    spans: the spans on the way differ from each other. *)
Lemma root_distance_lt k m r :
  anc k m = Some r → par r = None → m < n → k < n.
Proof.
  intros Hk Hr Hm.
  set (f := λ j, default 0 (anc j m)).
  assert (NoDup (f <$> seq 0 (S k))) as Hnd.
  { apply NoDup_fmap_2_strong; [|apply NoDup_seq].
    intros i j Hi Hj Hf. apply elem_of_seq in Hi, Hj.
    destruct (anc_prefix k i m r Hk) as (x & Hx & Hxr); [lia|].
    destruct (anc_prefix k j m r Hk) as (y & Hy & Hyr); [lia|].
    unfold f in Hf. rewrite Hx, Hy in Hf. simpl in Hf. subst y.
    destruct (root_unique x (k - i) (k - j) r r); auto. lia. }
  assert (f <$> seq 0 (S k) ⊆+ seq 0 n) as Hsub.
  { apply NoDup_submseteq; [done|]. intros x (j & -> & Hj)%list_elem_of_fmap.
    apply elem_of_seq in Hj. apply elem_of_seq.
    destruct (anc_prefix k j m r Hk) as (y & Hy & _); [lia|].
    unfold f. rewrite Hy. simpl. split; [lia|]. by eapply anc_lt. }
  apply submseteq_length in Hsub.
  rewrite length_fmap, !length_seq in Hsub. lia.
Qed.

(** *** Heaps of a trace *)

Local Abbreviation Linked := (Spec.Linked spans).
Local Abbreviation RootedAt := (Spec.RootedAt spans).
Local Abbreviation Deepens := (Spec.Deepens spans).
Local Abbreviation DeepensAll := (Spec.DeepensAll spans).

Lemma SameTree_refl h : SameTree h h.
Proof. by split. Qed.

Lemma SameTree_trans h1 h2 h3 :
  SameTree h1 h2 → SameTree h2 h3 → SameTree h1 h3.
Proof.
  intros [Hl1 H1] [Hl2 H2]. split; [congruence|].
  intros i. destruct (H1 i) as [Hp1 He1]. destruct (H2 i) as [Hp2 He2].
  split; [by rewrite Hp2|congruence].
Qed.

Lemma SameTree_Linked h h' : SameTree h h' → Linked h → Linked h'.
Proof.
  intros [Hl Hs] [Hn Hc]. split; [congruence|].
  intros p c. destruct (Hs p) as [Hp _]. rewrite Hp. apply Hc.
Qed.

Lemma forEach_inv {S A} (body : S → A → option S) (P : S → Prop) l :
  (∀ s x s', x ∈ l → P s → body s x = Some s' → P s') →
  ∀ s s', P s → forEach body s l = Some s' → P s'.
Proof.
  induction l as [|x l IH]; intros Hb s s' Hs; simpl.
  - by intros [= <-].
  - destruct (body s x) as [s1|] eqn:Hx; [|done]. apply IH.
    + intros ???? . apply Hb. by apply elem_of_cons; right.
    + eapply Hb; [|done..]. apply elem_of_cons. by left.
Qed.

Lemma forEach_is_Some {S A} (body : S → A → option S) (P : S → Prop) l :
  (∀ s x, x ∈ l → P s → ∃ s', body s x = Some s' ∧ P s') →
  ∀ s, P s → is_Some (forEach body s l).
Proof.
  induction l as [|x l IH]; intros Hb s Hs; simpl; [done|].
  destruct (Hb s x) as (s1 & -> & H1); [apply elem_of_cons; by left|done|].
  apply IH; [|done]. intros ????. apply Hb; [|done]. by apply elem_of_cons; right.
Qed.

Lemma depthAt_set d node h m :
  node < length h →
  depthAt (alter (setNodeDepth d) node h) m
  = if decide (m = node) then d else depthAt h m.
Proof.
  intros Hn. unfold depthAt. destruct (decide (m = node)) as [->|Hne].
  - rewrite list_lookup_alter_eq.
    by destruct (lookup_lt_is_Some_2 h node Hn) as [x ->].
  - by rewrite list_lookup_alter_ne.
Qed.

Lemma SameTree_set d node h : SameTree h (alter (setNodeDepth d) node h).
Proof.
  split; [by rewrite length_alter|]. intros i. unfold childrenAt.
  destruct (decide (i = node)) as [->|Hne].
  - rewrite list_lookup_alter_eq. by destruct (h !! node).
  - by rewrite list_lookup_alter_ne.
Qed.

(** *** Depths *)

Lemma forEach_deepens (visit : list TraceNode → nat → option (list TraceNode))
    d e cs :
  (∀ h c h', Linked h → c ∈ cs → visit h c = Some h' → Deepens c d h h') →
  (∀ c, c ∈ cs → RootedAt e c) →
  ∀ h h', Linked h → forEach visit h cs = Some h' → DeepensAll cs d h h'.
Proof.
  induction cs as [|c1 cs IH]; intros Hvisit Hroot h h' Hh; simpl.
  - intros [= <-]. split; [apply SameTree_refl|]. split; [by left|].
    intros c m k Hc. by apply elem_of_nil in Hc.
  - destruct (visit h c1) as [h1|] eqn:H1; [|done]. intros Hrest.
    destruct (Hvisit h c1 h1 Hh) as (Hs1 & Hf1 & Hv1);
      [apply elem_of_cons; by left|done|].
    destruct (IH) with (h := h1) (h' := h') as (Hs2 & Hf2 & Hv2); auto.
    { intros ??????. apply Hvisit; auto. by apply elem_of_cons; right. }
    { intros ??. apply Hroot. by apply elem_of_cons; right. }
    { by eapply SameTree_Linked. }
    split; [by eapply SameTree_trans|]. split.
    + intros m. destruct (Hf2 m) as [->|(c & k & Hc & Hk & ->)].
      * destruct (Hf1 m) as [->|(k & Hk & ->)]; [by left|].
        right. exists c1, k. split; [apply elem_of_cons; by left|done].
      * right. exists c, k. split; [apply elem_of_cons; by right|done].
    + intros c m k [->|Hc]%elem_of_cons Hk; [|by eapply Hv2].
      destruct (Hf2 m) as [->|(c' & k' & Hc' & Hk' & ->)]; [by apply Hv1|].
      destruct (Hroot c1) as (r1 & Hr1 & Hp1); [apply elem_of_cons; by left|].
      destruct (Hroot c') as (r2 & Hr2 & Hp2); [apply elem_of_cons; by right|].
      destruct (root_unique m (k + e) (k' + e) r1 r2) as [? _]; auto.
      * by rewrite anc_add, Hk.
      * by rewrite anc_add, Hk'.
      * f_equal. lia.
Qed.

Lemma setDepth_deepens fuel h node d e h' :
  Linked h → node < n → RootedAt e node →
  setDepth fuel h node d = Some h' → Deepens node d h h'.
Proof.
  revert h node d e h'.
  induction fuel as [|fuel IH]; intros h node d e h' Hh Hn Hroot; [done|].
  simpl. set (h1 := alter (setNodeDepth d) node h).
  assert (SameTree h h1) as Hs1 by apply SameTree_set.
  assert (Linked h1) as Hh1 by (by eapply SameTree_Linked).
  assert (Hcs : ∀ c, c ∈ childrenAt h1 node → par c = Some node).
  { intros c Hc. by apply Hh1. }
  intros Hfold.
  destruct (forEach_deepens (λ h c, setDepth fuel h c (S d)) (S d) (S e)
              (childrenAt h1 node)) with (h := h1) (h' := h')
    as (Hs2 & Hf2 & Hv2); auto.
  { intros h2 c h3 Hh2 Hc. apply (IH h2 c (S d) (S e)); [done| |].
    - by destruct (par_lt c node (Hcs c Hc)).
    - destruct Hroot as (r & Hr & Hp). exists r. split; [|done].
      simpl. fold par. by rewrite (Hcs c Hc). }
  { intros c Hc. destruct Hroot as (r & Hr & Hp). exists r. split; [|done].
    simpl. fold par. by rewrite (Hcs c Hc). }
  destruct Hh as [Hlen Hch].
  assert (Hd1 : ∀ m, depthAt h1 m = if decide (m = node) then d else depthAt h m).
  { intros m. apply depthAt_set. lia. }
  split; [by eapply SameTree_trans|]. split.
  - intros m. destruct (Hf2 m) as [->|(c & k & Hc & Hk & ->)].
    + rewrite Hd1. destruct (decide (m = node)) as [->|]; [|by left].
      right. exists 0. split; [done|lia].
    + right. exists (S k). split; [|lia].
      apply anc_S_r. exists c. split; [done|]. by apply Hcs.
  - intros m k Hk. destruct k as [|k].
    + simpl in Hk. injection Hk as ->.
      destruct (Hf2 node) as [->|(c & k & Hc & Hk & _)].
      * rewrite Hd1, decide_True by done. lia.
      * destruct Hroot as (r & Hr & Hp).
        destruct (no_cycle node e r k Hr Hp).
        apply anc_S_r. exists c. split; [done|]. by apply Hcs.
    + apply anc_S_r in Hk as (c & Hk & Hp).
      rewrite (Hv2 c m k); [lia| |done]. by apply Hh1.
Qed.

Lemma setDepth_returns fuel h node d e :
  Linked h → node < n → RootedAt e node → n ≤ e + fuel →
  is_Some (setDepth fuel h node d).
Proof.
  revert h node d e.
  induction fuel as [|fuel IH]; intros h node d e Hh Hn Hroot Hfuel.
  - destruct Hroot as (r & Hr & Hp).
    pose proof (root_distance_lt e node r Hr Hp Hn). lia.
  - simpl. set (h1 := alter (setNodeDepth d) node h).
    assert (Linked h1) as Hh1.
    { eapply SameTree_Linked; [apply SameTree_set|done]. }
    apply (forEach_is_Some _
             (λ h2, Linked h2 ∧ childrenAt h2 node ≡ₚ childrenAt h1 node)).
    + intros h2 c Hc [Hh2 Hp].
      assert (par c = Some node) as Hpc by (by apply Hh1).
      assert (RootedAt (S e) c) as Hrc.
      { destruct Hroot as (r & Hr & Hpr). exists r. split; [|done].
        simpl. fold par. by rewrite Hpc. }
      destruct (par_lt c node Hpc) as [Hcn _].
      destruct (IH h2 c (S d) (S e)) as [h3 H3]; auto with lia.
      exists h3. split; [done|].
      destruct (setDepth_deepens fuel h2 c (S d) (S e) h3) as (Hs & _); auto.
      split; [by eapply SameTree_Linked|].
      destruct Hs as [_ Hs]. destruct (Hs node) as [Hpn _]. by rewrite Hpn.
    + done.
Qed.

(** *** Sorting the children *)

Section Sorted.
Variable Date_parse : jsstring → option Z.

Lemma Ordered_trans h1 h2 h3 : Ordered h1 h2 → Ordered h2 h3 → Ordered h1 h3.
Proof.
  intros [Hs1 Hd1] [Hs2 Hd2]. split; [by eapply SameTree_trans|].
  intros i. by rewrite Hd2.
Qed.

Lemma Ordered_set cs node h :
  cs ≡ₚ childrenAt h node → Ordered h (alter (setChildren cs) node h).
Proof.
  intros Hp. split; [split|].
  - by rewrite length_alter.
  - intros i. unfold childrenAt. destruct (decide (i = node)) as [->|Hne].
    + rewrite list_lookup_alter_eq. unfold childrenAt in Hp.
      destruct (h !! node); simpl; [done|]. done.
    + by rewrite list_lookup_alter_ne.
  - intros i. unfold depthAt. destruct (decide (i = node)) as [->|Hne].
    + rewrite list_lookup_alter_eq. by destruct (h !! node).
    + by rewrite list_lookup_alter_ne.
Qed.

Lemma sortChildren_ordered fuel h node h' :
  sortChildren Date_parse fuel h node = Some h' → Ordered h h'.
Proof.
  revert h node h'. induction fuel as [|fuel IH]; intros h node h'; [done|].
  simpl. intros Hfold.
  eapply (forEach_inv _ (Ordered h)); [| |exact Hfold].
  - intros h2 c h3 _ H2 H3. eapply Ordered_trans; [done|]. by eapply IH.
  - apply Ordered_set. apply PatternFacts.sortBy_perm.
Qed.

Lemma sortChildren_returns fuel h node e :
  Linked h → node < n → RootedAt e node → n ≤ e + fuel →
  is_Some (sortChildren Date_parse fuel h node).
Proof.
  revert h node e.
  induction fuel as [|fuel IH]; intros h node e Hh Hn Hroot Hfuel.
  - destruct Hroot as (r & Hr & Hp).
    pose proof (root_distance_lt e node r Hr Hp Hn). lia.
  - simpl.
    set (sorted := sortBy (byTimestamp Date_parse h) (childrenAt h node)).
    set (h1 := alter (setChildren sorted) node h).
    assert (Ordered h h1) as [Hs1 _].
    { apply Ordered_set. apply PatternFacts.sortBy_perm. }
    assert (Linked h1) as Hh1 by (by eapply SameTree_Linked).
    apply (forEach_is_Some _ Linked); [|done].
    intros h2 c Hc Hh2.
    assert (par c = Some node) as Hpc.
    { apply Hh. unfold sorted in Hc. by rewrite PatternFacts.sortBy_perm in Hc. }
    destruct (par_lt c node Hpc) as [Hcn _].
    destruct (IH h2 c (S e)) as [h3 H3]; auto with lia.
    { destruct Hroot as (r & Hr & Hpr). exists r. split; [|done].
      simpl. fold par. by rewrite Hpc. }
    exists h3. split; [done|].
    destruct (sortChildren_ordered fuel h2 c h3 H3) as [Hs _].
    by eapply SameTree_Linked.
Qed.

(** *** The forest *)

Lemma heap0_lookup (i : nat) :
  ((λ span, {| span := span; children := []; depth := 0 |}) <$> spans) !! i
  = (λ span, {| span := span; children := []; depth := 0 |}) <$> spans !! i.
Proof. apply list_lookup_fmap. Qed.


Lemma reachable_rooted heap roots i :
  Linked heap → (∀ r, r ∈ roots → par r = None) →
  Reachable heap roots i → ∃ k r, r ∈ roots ∧ anc k i = Some r.
Proof.
  intros Hh Hroots. induction 1 as [r Hr|p c _ (k & r & Hr & Hk) Hc].
  - by exists 0, r.
  - exists (S k), r. split; [done|]. simpl.
    apply (proj2 Hh) in Hc. by rewrite Hc.
Qed.



End Sorted.

End Tree.


Lemma smallTrace_acyclic : Acyclic smallTrace.
Proof.
  intros i Hi. simpl in Hi.
  destruct i as [|[|[|[|i]]]]; [| | | |lia].
  - by exists 0, 0.
  - by exists 1, 0.
  - by exists 1, 0.
  - by exists 2, 0.
Qed.


End TreeFacts.

(** * Further properties *)

Module TruncateFacts.
Import Js Regex Logs Spec RegexFacts MaskFacts.
Local Open Scope nat_scope.

Lemma singleSpaced_solid_tail f x y :
  singleSpaced f x = true → Forall (λ c, isSpace c = false) y → y ≠ [] →
  singleSpaced f (x ++ y) = true.
Proof.
  intros Hx Hy Hne. revert f Hx.
  induction x as [|c x IH]; intros f Hx; simpl in *.
  - destruct Hy as [|d y Hd Hy]; [done|]. simpl. rewrite Hd. clear Hne.
    induction Hy as [|e y He Hy IH]; [done|]. simpl. by rewrite He.
  - destruct (isSpace c); [|by apply IH].
    apply andb_true_iff in Hx as [H1 H2]. rewrite H1. simpl. by apply IH.
Qed.

Lemma cleaned_settled m :
  let cleaned := trim (replaceAll reSpaces (codes " ") m) in
  singleSpaced false cleaned = true ∧ noLead cleaned ∧ noLead (rev cleaned).
Proof.
  simpl. change (codes " ") with [32%N]. rewrite W_squeeze. split; [|split].
  - unfold trim. apply singleSpaced_trimEnd.
    eapply singleSpaced_trimStart. apply squeeze_spaced.
  - apply trim_noLead.
  - apply trim_noTrail.
Qed.

Lemma cleaned_fixed s :
  singleSpaced false s = true → noLead s → noLead (rev s) →
  trim (replaceAll reSpaces (codes " ") s) = s.
Proof.
  intros H1 H2 H3. change (codes " ") with [32%N].
  rewrite W_squeeze, squeeze_fixed by done. by apply trim_fixed.
Qed.

Lemma truncateMessage_settled m :
  singleSpaced false (truncateMessage m) = true
  ∧ noLead (truncateMessage m) ∧ noLead (rev (truncateMessage m)).
Proof.
  unfold truncateMessage.
  destruct (cleaned_settled m) as (H1 & H2 & H3). simpl in *.
  set (cleaned := trim (replaceAll reSpaces (codes " ") m)) in *.
  destruct (Z.leb_spec (Z.of_nat (length cleaned)) 100) as [Hle|Hgt]; [done|].
  split; [|split].
  - apply singleSpaced_solid_tail; [|by repeat constructor|done].
    apply (singleSpaced_app _ _ (drop 100 cleaned)). by rewrite take_drop.
  - destruct cleaned as [|c cleaned']; [simpl in Hgt; lia|done].
  - by rewrite rev_app_distr.
Qed.

(** X1: the result of [truncateMessage] has at most 103 code units, its
    white space is single spaces and it does not start with white space. *)
Theorem truncateMessage_bounded m :
  length (truncateMessage m) ≤ 103
  ∧ singleSpaced false (truncateMessage m) = true
  ∧ noLead (truncateMessage m).
Proof.
  destruct (truncateMessage_settled m) as (Hsp & Hlead & _).
  split; [|done]. unfold truncateMessage.
  set (cleaned := trim (replaceAll reSpaces (codes " ") m)).
  destruct (Z.leb_spec (Z.of_nat (length cleaned)) 100) as [Hle|Hgt]; [lia|].
  rewrite length_app, length_take.
  change (length (codes "...")) with 3. lia.
Qed.

(** X2: [truncateMessage] is idempotent. *)
Theorem truncateMessage_idempotent m :
  truncateMessage (truncateMessage m) = truncateMessage m.
Proof.
  destruct (truncateMessage_settled m) as (Hsp & Hlead & Htrail).
  assert (Hcut : ∀ s,
    truncateMessage s
    = let cleaned := trim (replaceAll reSpaces (codes " ") s) in
      if (Z.of_nat (length cleaned) <=? 100)%Z then cleaned
      else take 100 cleaned ++ codes "...") by done.
  rewrite (Hcut (truncateMessage m)). simpl.
  rewrite cleaned_fixed by done.
  destruct (Z.leb_spec (Z.of_nat (length (truncateMessage m))) 100)
    as [Hle|Hgt]; [done|].
  rewrite (Hcut m) in *. simpl in *.
  set (cleaned := trim (replaceAll reSpaces (codes " ") m)) in *.
  destruct (Z.leb_spec (Z.of_nat (length cleaned)) 100) as [Hle'|Hgt']; [lia|].
  assert (Hl : length (take 100 cleaned) = 100) by (rewrite length_take; lia).
  by rewrite take_app_length' by done.
Qed.

End TruncateFacts.

Module BoundFacts.
Import Js Regex Num Time Backend Logs Spec RegexFacts TimeFacts RangeFacts MaskFacts.

(** X3: every pattern is in the form that the last steps of
    [extractPattern] give: strings in double and in single quotes are
    masked, white space is single spaces, and there is none at the ends. *)
Theorem extractPattern_settled m : Settled (extractPattern m).
Proof. apply maskQuoted_settled. Qed.

Lemma roundDouble_large z : 2 ^ 53 < Z.abs z → 2 ^ 53 <= Z.abs (roundDouble z).
Proof.
  intros Hz. unfold roundDouble.
  rewrite (proj2 (Z.leb_gt _ _)) by done.
  set (a := Z.abs z) in *. set (e := Z.log2 a - 52).
  assert (Ha : 0 < a) by lia.
  pose proof (Z.log2_spec a Ha) as [Hlo Hhi].
  assert (53 <= Z.log2 a).
  { apply Z.log2_le_pow2; lia. }
  assert (He : 1 <= e) by (unfold e; lia).
  assert (Hpow : 2 ^ Z.log2 a = 2 ^ 52 * 2 ^ e).
  { rewrite <- Z.pow_add_r by lia. f_equal. unfold e. lia. }
  assert (H2e : 2 <= 2 ^ e).
  { change 2 with (2 ^ 1) at 1. apply Z.pow_le_mono_r; lia. }
  assert (Hq : 2 ^ 52 <= a / 2 ^ e).
  { apply Z.div_le_lower_bound; lia. }
  set (q := a / 2 ^ e) in *. set (r := a mod 2 ^ e).
  set (q' := if 2 * r <? 2 ^ e then q
             else if 2 ^ e <? 2 * r then q + 1
             else if Z.even q then q else q + 1).
  assert (q <= q') by (unfold q'; repeat case_match; lia).
  assert (2 ^ 53 <= q' * 2 ^ e).
  { change (2 ^ 53) with (2 ^ 52 * 2). apply Z.mul_le_mono_nonneg; lia. }
  rewrite Z.abs_mul.
  assert (Z.abs (Z.sgn z) = 1) as -> by lia.
  destruct (2 ^ 1024 <=? q' * 2 ^ e); lia.
Qed.

Lemma newDate_invalid v : ¬ validTime v → newDate (roundDouble v) = None.
Proof.
  intros Hv. unfold newDate, validTime, maxTime in *.
  destruct (Z_le_gt_dec (Z.abs v) (2 ^ 53)) as [Hle|Hgt].
  - rewrite roundDouble_exact by done.
    by rewrite (proj2 (Z.leb_gt _ _)) by lia.
  - pose proof (roundDouble_large v ltac:(lia)).
    by rewrite (proj2 (Z.leb_gt _ _)) by lia.
Qed.

(** X5: a time string that is neither digits with a unit of [m], [h] or [d]
    nor a date that the engine parses stands for the clock itself; as
    [from], without a [to], it leaves a window with no length, from the
    clock to the clock. *)
Theorem unparsed_time_is_now Date_parse s now :
  (¬ ∃ ds u, digitsUnit isMHD s ds u) → Date_parse s = None →
  parseRelativeTime Date_parse s now = Some now
  ∧ (s ≠ [] →
     parseTimeRange Date_parse (Some s) None now
     = Some {| from := now; to := now |}).
Proof.
  intros Hno Hd.
  assert (H : parseRelativeTime Date_parse s now = Some now).
  { unfold parseRelativeTime.
    destruct (matchValueUnit reRelative s) as [[v u]|] eqn:Hm.
    - apply matchValueUnit_sound in Hm. destruct Hno. eauto.
    - by rewrite Hd. }
  split; [done|]. intros Hne. unfold parseTimeRange.
  destruct s as [|c s]; [done|]. by rewrite H.
Qed.

Lemma unparsed_time_is_now_witness :
  parseTimeRange (λ _, None) (Some (codes "30s")) None 1705320000000
  = Some {| from := 1705320000000; to := 1705320000000 |}.
Proof.
  refine (proj2 (unparsed_time_is_now (λ _, None) (codes "30s") 1705320000000
                   _ eq_refl) _); [|discriminate].
  intros (ds & u & Hs & _ & _ & Hu).
  change (codes "30s") with (codes "30" ++ [ch "s"]) in Hs.
  apply app_inj_tail in Hs as [_ <-]. vm_compute in Hu. discriminate.
Defined.

(** X6: a relative [from] that lies before the first instant of a [Date]
    makes [parseTimeRange] throw, whatever [to] is. *)
Theorem far_bound_throws Date_parse s ds u to_ clock :
  digitsUnit isMHD s ds u →
  digitsValue ds * unitMs u <= 2 ^ 53 →
  ¬ validTime (clock - digitsValue ds * unitMs u) →
  parseTimeRange Date_parse (Some s) to_ clock = None.
Proof.
  intros Hs Hexact Hfar.
  assert (H : parseRelativeTime Date_parse s clock = None).
  { unfold parseRelativeTime, reRelative.
    rewrite (matchValueUnit_complete isMHD s ds u isMHD_not_digit Hs).
    destruct Hs as (_ & _ & Hdig & Hu).
    pose proof (digitsValue_nonneg ds Hdig) as Hnn.
    unfold parseInt, mul, sub.
    destruct (isMHD_cases u Hu) as [-> | [-> | ->]];
      change (unitMs _) with (60 * 1000) in *||
      change (unitMs _) with (60 * 60 * 1000) in *||
      change (unitMs _) with (24 * 60 * 60 * 1000) in *; simpl N.eqb; cbv iota.
    all: match goal with |- newDate (roundDouble (_ - ?p)) = None =>
           match type of Hexact with _ * ?U <= _ =>
             assert (p = digitsValue ds * U) as ->
               by (exact_round; lia)
           end
         end.
    all: apply newDate_invalid.
    all: done. }
  unfold parseTimeRange.
  assert (s ≠ []) as Hne by (destruct Hs as (-> & _); by destruct ds).
  destruct s as [|c s]; [done|]. by rewrite H.
Qed.

Lemma far_bound_throws_witness :
  parseTimeRange (λ _, None) (Some (codes "101000000d")) None 1705320000000
  = None.
Proof.
  refine (far_bound_throws (λ _, None) (codes "101000000d")
            (codes "101000000") (ch "d") None 1705320000000 _ _ _).
  - by repeat split; repeat constructor.
  - vm_compute. discriminate.
  - vm_compute. intros H. by apply H.
Defined.

End BoundFacts.

Module IpFacts.
Import Js Regex Logs Spec MaskTerms RegexFacts MaskFacts.
Local Open Scope nat_scope.

Lemma run_split s : s = digitRun s ++ afterRun s.
Proof.
  induction s as [|c s IH]; [done|]. simpl.
  destruct (isDigit c); [simpl; by f_equal|done].
Qed.

Lemma digitRun_digits s : Forall (λ c, isDigit c = true) (digitRun s).
Proof.
  induction s as [|c s IH]; [constructor|]. simpl.
  destruct (isDigit c) eqn:Hc; by constructor.
Qed.

Lemma afterRun_head s :
  match afterRun s with c :: _ => isDigit c = false | [] => True end.
Proof.
  induction s as [|c s IH]; [done|]. simpl.
  destruct (isDigit c) eqn:Hc; [done|]. by simpl.
Qed.

Lemma run_app ds s2 :
  Forall (λ c, isDigit c = true) ds →
  match s2 with c :: _ => isDigit c = false | [] => True end →
  digitRun (ds ++ s2) = ds ∧ afterRun (ds ++ s2) = s2.
Proof.
  induction 1 as [|c ds Hc _ IH]; intros Hs2; simpl.
  - destruct s2 as [|c s2]; [done|]. simpl. by rewrite Hs2.
  - rewrite Hc. destruct (IH Hs2) as [-> ->]. done.
Qed.

Lemma isDigit_word c : isDigit c = true → isWord c = true.
Proof. unfold isWord. by intros ->. Qed.

Lemma nonword_nondigit (s : jsstring) :
  isWordAt (head s) = false →
  match s with c :: _ => isDigit c = false | [] => True end.
Proof.
  destruct s as [|c s]; [done|]. simpl. intros H.
  destruct (isDigit c) eqn:Hc; [|done]. apply isDigit_word in Hc. congruence.
Qed.

(** [/\b\d+\b/] matches at a position exactly when no word character is
    before it, a digit is at it, and no word character follows the run of
    digits; it takes the run. *)
Lemma matchNumber_sound prev s n :
  matchLen reNumber prev s = Some n →
  isWordAt prev = false ∧ digitRun s ≠ []
  ∧ isWordAt (head (afterRun s)) = false ∧ n = length (digitRun s).
Proof.
  unfold matchLen, reNumber, AtLeast. simpl.
  destruct (xorb (isWordAt prev) (isWordAt (head s))) eqn:Hb; [|done].
  destruct (rep isDigit _ 1 None prev s) as [[k ns]|] eqn:Hrep; [|done].
  apply rep_sound in Hrep as (s1 & s2 & -> & Hlen & Hdig & Hlo & _ & Hk).
  destruct (xorb (isWordAt (lastOr prev s1)) (isWordAt (head s2))) eqn:Hb2;
    [|done].
  simpl in Hk. injection Hk as <-. simpl. intros [= <-].
  destruct s1 as [|c s1]; [simpl in *; lia|].
  assert (isWordAt (head s2) = false) as Hs2.
  { destruct (last_is_Some (c :: s1)) as [_ [d Hd]]; [done|].
    unfold lastOr in Hb2. rewrite Hd in Hb2.
    assert (d ∈ c :: s1) as Hin.
    { apply last_Some in Hd as [l' ->]. apply elem_of_app. right.
      apply list_elem_of_here. }
    rewrite Forall_forall in Hdig. apply Hdig, isDigit_word in Hin.
    simpl in Hb2. rewrite Hin in Hb2. by destruct (isWordAt (head s2)). }
  destruct (run_app (c :: s1) s2 Hdig (nonword_nondigit _ Hs2)) as [-> ->].
  split_and!; try done; [|lia].
  inversion_clear Hdig as [|? ? Hc _]. apply isDigit_word in Hc.
  simpl in Hb. rewrite Hc in Hb. by destruct (isWordAt prev).
Qed.

Lemma matchNumber_complete prev s :
  isWordAt prev = false → digitRun s ≠ [] →
  isWordAt (head (afterRun s)) = false →
  matchLen reNumber prev s = Some (length (digitRun s)).
Proof.
  intros Hprev Hne Hafter. rewrite (run_split s) at 1.
  pose proof (digitRun_digits s) as Hdig.
  unfold matchLen, reNumber, AtLeast. simpl.
  destruct (digitRun s) as [|c ds] eqn:Hrun; [done|].
  inversion Hdig as [|? ? Hc _]; subst. apply isDigit_word in Hc as Hw.
  simpl head. simpl isWordAt. rewrite Hprev, Hw. simpl xorb. cbv iota.
  rewrite (rep_run isDigit _ 1 prev (c :: ds) (afterRun s) [0]); auto.
  - simpl. f_equal. lia.
  - simpl. lia.
  - pose proof (afterRun_head s). by destruct (afterRun s).
  - simpl. destruct (last_is_Some (c :: ds)) as [_ [d Hd]]; [done|].
    unfold lastOr. rewrite Hd.
    assert (d ∈ c :: ds) as Hin.
    { apply last_Some in Hd as [l' ->]. apply elem_of_app. right.
      apply list_elem_of_here. }
    rewrite Forall_forall in Hdig. apply Hdig, isDigit_word in Hin.
    simpl. rewrite Hin, Hafter. done.
Qed.

Lemma matchNumber_word prev s :
  isWordAt prev = true → matchLen reNumber prev s = None.
Proof.
  intros Hp. destruct (matchLen reNumber prev s) as [n|] eqn:Hm; [|done].
  apply matchNumber_sound in Hm as (H & _). congruence.
Qed.

Lemma matchNumber_nondigit prev s :
  digitRun s = [] → matchLen reNumber prev s = None.
Proof.
  intros Hp. destruct (matchLen reNumber prev s) as [n|] eqn:Hm; [|done].
  by apply matchNumber_sound in Hm as (_ & H & _).
Qed.

(** *** Strings without a match *)

Lemma NoMatch_nil r prev : matchLen r prev [] = None → NoMatch r prev [].
Proof.
  intros H t1 t2 Ht. symmetry in Ht. apply app_eq_nil in Ht as [-> ->]. done.
Qed.

Lemma NoMatch_cons r prev c t :
  matchLen r prev (c :: t) = None → NoMatch r (Some c) t →
  NoMatch r prev (c :: t).
Proof.
  intros H0 Ht t1 t2 E. destruct t1 as [|d t1]; simpl in E.
  - by subst.
  - injection E as <- E. rewrite lastOr_cons. by apply Ht.
Qed.

Lemma NoMatch_tail r prev c t : NoMatch r prev (c :: t) → NoMatch r (Some c) t.
Proof.
  intros H t1 t2 E. rewrite <- (lastOr_cons prev). apply H. by rewrite E.
Qed.

(** Where an expression matches nowhere, its replacement changes
    nothing. *)
Lemma replaceFrom_NoMatch r repl prev t :
  NoMatch r prev t → replaceFrom r repl 0 prev t = t.
Proof.
  revert prev. induction t as [|c t IH]; intros prev H.
  - pose proof (H [] [] eq_refl) as H0. unfold lastOr in H0. simpl in H0.
    simpl. by rewrite H0.
  - rewrite replaceFrom_miss by apply (H [] (c :: t) eq_refl).
    f_equal. apply IH. by eapply NoMatch_tail.
Qed.

(** *** The number step *)

Lemma number_nil prev : replaceFrom reNumber (codes "<N>") 0 prev [] = [].
Proof. simpl replaceFrom. by rewrite matchNumber_nondigit. Qed.

Lemma number_hit prev s n :
  matchLen reNumber prev s = Some n →
  replaceFrom reNumber (codes "<N>") 0 prev s
  = codes "<N>"
    ++ replaceFrom reNumber (codes "<N>") 0 (lastOr prev (digitRun s))
         (afterRun s).
Proof.
  intros Hm. apply matchNumber_sound in Hm as Hs.
  destruct Hs as (_ & Hne & _ & ->).
  destruct (digitRun s) as [|c ds] eqn:Hrun; [done|].
  pose proof (run_split s) as Hsplit. rewrite Hrun in Hsplit.
  assert (Ht : take (S (length ds)) s = c :: ds).
  { rewrite Hsplit. apply (take_app_length (c :: ds)). }
  assert (Hd : drop (S (length ds)) s = afterRun s).
  { rewrite Hsplit at 1. apply (drop_app_length (c :: ds)). }
  rewrite (replaceFrom_hit _ _ _ _ (length ds)); [|done|].
  - by rewrite Ht, Hd.
  - rewrite Hsplit, length_app. simpl. lia.
Qed.

(** After a word character the scan copies the digits at hand. *)
Lemma word_copied prev s :
  isWordAt prev = true →
  ∃ r, replaceFrom reNumber (codes "<N>") 0 prev s = digitRun s ++ r
       ∧ head r = head (afterRun s).
Proof.
  revert prev. induction s as [|c s IH]; intros prev Hp.
  - exists []. by rewrite number_nil.
  - simpl digitRun. simpl afterRun. destruct (isDigit c) eqn:Hc.
    + rewrite replaceFrom_miss by (by apply matchNumber_word).
      destruct (IH (Some c)) as (r & -> & Hr).
      { simpl. by apply isDigit_word. }
      by exists r.
    + rewrite replaceFrom_miss.
      * eexists. split; [reflexivity|done].
      * apply matchNumber_nondigit. simpl. by rewrite Hc.
Qed.

Lemma number_nomatch s prev prev' :
  isWordAt prev' = isWordAt prev ∨ isWordAt (head s) = false →
  NoMatch reNumber prev' (replaceFrom reNumber (codes "<N>") 0 prev s).
Proof.
  remember (length s) as n eqn:Hn. revert s prev prev' Hn.
  induction n as [n IH] using lt_wf_ind. intros s prev prev' -> Hctx.
  destruct s as [|c s].
  - rewrite number_nil. by apply NoMatch_nil, matchNumber_nondigit.
  - destruct (matchLen reNumber prev (c :: s)) as [k|] eqn:Hm.
    + rewrite (number_hit _ _ _ Hm).
      apply matchNumber_sound in Hm as (_ & Hne & Hafter & _).
      assert (Hshort : length (afterRun (c :: s)) < length (c :: s)).
      { rewrite (run_split (c :: s)) at 2. rewrite length_app.
        destruct (digitRun (c :: s)); [done|simpl; lia]. }
      pose proof (IH _ Hshort (afterRun (c :: s))
                    (lastOr prev (digitRun (c :: s))) (Some 62%N) eq_refl
                    (or_intror Hafter)) as Hrest.
      change (codes "<N>") with [60%N; 78%N; 62%N] at 1. simpl app.
      repeat (apply NoMatch_cons; [by apply matchNumber_nondigit|]).
      exact Hrest.
    + rewrite replaceFrom_miss by done.
      pose proof (IH (length s) ltac:(simpl; lia) s (Some c) (Some c) eq_refl
                    (or_introl eq_refl)) as Hrest.
      apply NoMatch_cons; [|done].
      destruct (isDigit c) eqn:Hc;
        [|apply matchNumber_nondigit; simpl; by rewrite Hc].
      destruct (matchLen reNumber prev' _) as [k|] eqn:Hk; [|done].
      exfalso. apply matchNumber_sound in Hk as (Hp' & _ & Hafter & _).
      destruct (word_copied (Some c) s) as (r & Hr & Hhead).
      { simpl. by apply isDigit_word. }
      rewrite Hr in Hafter.
      assert (afterRun (c :: digitRun s ++ r) = r) as Hrun.
      { apply (run_app (c :: digitRun s) r).
        - constructor; [done|apply digitRun_digits].
        - pose proof (afterRun_head s) as Hh.
          destruct r as [|x r]; [done|]. simpl in Hhead.
          destruct (afterRun s) as [|y ?]; [done|].
          simpl in Hhead. by injection Hhead as ->. }
      rewrite Hrun, Hhead in Hafter.
      assert (isWordAt prev = false) as Hp.
      { destruct Hctx as [<-|Hw]; [done|].
        simpl in Hw. apply isDigit_word in Hc. congruence. }
      rewrite matchNumber_complete in Hm; [done|done| |].
      * simpl. by rewrite Hc.
      * simpl. by rewrite Hc.
Qed.

(** *** The address step *)

Lemma matchHere_wordb r prev s :
  matchHere (WordB :: r) prev s
  = if xorb (isWordAt prev) (isWordAt (head s))
    then cons 0 <$> matchHere r prev s else None.
Proof. reflexivity. Qed.

Lemma matchHere_cls p lo hi r prev s :
  matchHere (Cls p lo hi :: r) prev s
  = match rep p (matchHere r) lo hi prev s with
    | Some (n, ns) => Some (n :: ns)
    | None => None
    end.
Proof. reflexivity. Qed.

(** Where [/\b\d{1,3}\.\d{1,3}\.\d{1,3}\.\d{1,3}\b/] matches, so does
    [/\b\d+\b/]. *)
Lemma matchIp_number prev s n :
  matchLen reIp prev s = Some n → is_Some (matchLen reNumber prev s).
Proof.
  unfold matchLen at 1, reIp, Between.
  rewrite matchHere_wordb.
  destruct (xorb (isWordAt prev) (isWordAt (head s))) eqn:Hb; [|done].
  rewrite matchHere_cls.
  destruct (rep isDigit _ 1 (Some 3) prev s) as [[k ns]|] eqn:Hrep; [|done].
  intros _.
  apply rep_sound in Hrep as (s1 & s2 & -> & Hlen & Hdig & Hlo & _ & Hk).
  unfold Lit in Hk. rewrite matchHere_lit in Hk.
  destruct s2 as [|x s2]; [done|].
  destruct (N.eqb_spec (N_of_ascii ".") x) as [<-|]; [|done].
  destruct s1 as [|c s1]; [simpl in *; lia|].
  destruct (run_app (c :: s1) (N_of_ascii "." :: s2) Hdig) as [Hrun Hafter];
    [done|].
  rewrite matchNumber_complete; [done| | |].
  - inversion_clear Hdig as [|? ? Hc _]. apply isDigit_word in Hc.
    simpl in Hb. rewrite Hc in Hb. by destruct (isWordAt prev).
  - by rewrite Hrun.
  - by rewrite Hafter.
Qed.

Lemma NoMatch_number_ip prev t :
  NoMatch reNumber prev t → NoMatch reIp prev t.
Proof.
  intros H t1 t2 E.
  destruct (matchLen reIp _ t2) as [n|] eqn:Hm; [|done].
  apply matchIp_number in Hm as [k Hk]. by rewrite (H t1 t2 E) in Hk.
Qed.

(** X22: the substitution of IPv4 addresses in [extractPattern] never
    changes the string: it comes after the substitution of numbers, which
    leaves no run of digits between word boundaries for an address to
    start with. *)
Theorem ip_step_dead s :
  replaceAll reIp (codes "<IP>") (replaceAll reNumber (codes "<N>") s)
  = replaceAll reNumber (codes "<N>") s.
Proof.
  unfold replaceAll at 1. apply replaceFrom_NoMatch, NoMatch_number_ip.
  apply number_nomatch. by left.
Qed.

End IpFacts.

Module DurationFacts.
Import Js Regex Num Time Backend Logs Spec WindowTerms RegexFacts TimeFacts RangeFacts.

Lemma roundDouble_nonneg z : 0 <= z → 0 <= roundDouble z.
Proof.
  intros Hz. unfold roundDouble.
  destruct (Z.abs z <=? 2 ^ 53); [done|].
  assert (0 <= Z.sgn z) by lia.
  apply Z.mul_nonneg_nonneg; [done|].
  set (a := Z.abs z). set (e := Z.log2 a - 52).
  assert (0 <= 2 ^ e) by (apply Z.pow_nonneg; lia).
  assert (0 <= a / 2 ^ e) by (apply Z_div_nonneg_nonneg; [unfold a; lia|done]).
  destruct (2 ^ 1024 <=? _); [lia|].
  repeat case_match; apply Z.mul_nonneg_nonneg; lia.
Qed.

Lemma mul_nonneg a b : 0 <= a → 0 <= b → 0 <= mul a b.
Proof. intros. apply roundDouble_nonneg. lia. Qed.

Lemma isSMHD_cases u :
  isSMHD u = true → u = ch "s" ∨ u = ch "m" ∨ u = ch "h" ∨ u = ch "d".
Proof.
  unfold isSMHD. intros H. repeat (apply orb_true_iff in H as [H|H]);
    apply N.eqb_eq in H; auto.
Qed.

Lemma parseDurationToMs_nonneg s : 0 <= parseDurationToMs s.
Proof.
  unfold parseDurationToMs.
  destruct (matchValueUnit reDuration s) as [[v u]|] eqn:Hm;
    [|by vm_compute].
  apply matchValueUnit_sound in Hm as (_ & _ & Hdig & _).
  pose proof (digitsValue_nonneg v Hdig) as Hnn.
  assert (0 <= parseInt v) by by apply roundDouble_nonneg.
  repeat case_match; repeat apply mul_nonneg; lia.
Qed.

(** X4: a run of decimal digits [N] followed by [s], [m], [h] or [d] makes
    [parseDurationToMs] return [N] times the milliseconds of the unit, when
    the product is exact in a double; and the function never returns a
    negative number. *)
Theorem parseDurationToMs_value s :
  0 <= parseDurationToMs s
  ∧ ∀ ds u, digitsUnit isSMHD s ds u →
      digitsValue ds * unitMs u <= 2 ^ 53 →
      parseDurationToMs s = digitsValue ds * unitMs u.
Proof.
  split; [apply parseDurationToMs_nonneg|].
  intros ds u Hs Hexact. unfold parseDurationToMs, reDuration.
    rewrite (matchValueUnit_complete isSMHD s ds u isSMHD_not_digit Hs).
    destruct Hs as (_ & _ & Hdig & Hu).
    pose proof (digitsValue_nonneg ds Hdig) as Hnn.
    unfold parseInt, mul.
    destruct (isSMHD_cases u Hu) as [-> | [-> | [-> | ->]]];
      change (unitMs _) with 1000 in *||
      change (unitMs _) with (60 * 1000) in *||
      change (unitMs _) with (60 * 60 * 1000) in *||
      change (unitMs _) with (24 * 60 * 60 * 1000) in *; simpl N.eqb; cbv iota.
    all: exact_round.
    all: lia.
Qed.

Lemma parseDurationToMs_value_witness :
  parseDurationToMs (codes "90s") = 90000.
Proof.
  refine (proj2 (parseDurationToMs_value (codes "90s")) (codes "90") (ch "s") _ _).
  - by repeat split; repeat constructor.
  - vm_compute. discriminate.
Defined.

End DurationFacts.

Module WindowFacts.
Import Js Regex Num Time Backend Logs Spec WindowTerms RegexFacts TimeFacts RangeFacts DurationFacts.

(** X7: [comparePeriods] counts two windows that are adjacent and equally
    long: with [p] the milliseconds of the period (at most [2^52]), it asks
    for the count of the query from [now − p] to [now] and then from
    [now − 2p] to [now − p], nothing else, and reports these bounds. *)
Theorem comparePeriods_windows query period now :
  validTime now →
  parseDurationToMs period <= 2 ^ 52 →
  validTime (now - 2 * parseDurationToMs period) →
  let p := parseDurationToMs period in
  ∃ prog, comparePeriods query period now = Some prog
    ∧ ∀ h : Handler RawLog,
        issued h prog = [countRequest query (now - p) now;
                         countRequest query (now - 2 * p) (now - p)]
        ∧ (let r := run h prog in
           w_from (current r) = now - p ∧ w_to (current r) = now
           ∧ w_from (previous r) = now - 2 * p
           ∧ w_to (previous r) = w_from (current r)
           ∧ w_from (previous r) <= w_to (previous r) <= w_to (current r)).
Proof.
  intros Hnow Hp Hprev p.
  pose proof (parseDurationToMs_nonneg period) as Hnn.
  fold p in Hnn, Hp, Hprev.
  assert (Hcur : validTime (now - p)) by (unfold validTime in *; lia).
  apply maxTime_exact in Hnow as Hn', Hprev as Hp', Hcur as Hc'.
  unfold comparePeriods. fold p. unfold sub, mul.
  rewrite (roundDouble_exact (now - p)) by done.
  rewrite (roundDouble_exact (p * 2)) by lia.
  replace (now - p * 2) with (now - 2 * p) by lia.
  rewrite (roundDouble_exact (now - 2 * p)) by done.
  rewrite !newDate_valid by done. simpl.
  eexists. split; [reflexivity|]. intros h. simpl.
  split; [done|]. repeat split; lia.
Qed.

Lemma comparePeriods_windows_witness :
  ∃ prog, comparePeriods (codes "status:error") (codes "1h") 1700000000000
          = Some prog
    ∧ issued (demoCounts 1700000000000) prog
      = [countRequest (codes "status:error") 1699996400000 1700000000000;
         countRequest (codes "status:error") 1699992800000 1699996400000].
Proof.
  assert (E : parseDurationToMs (codes "1h") = 3600000) by (vm_compute; reflexivity).
  destruct (comparePeriods_windows (codes "status:error") (codes "1h")
              1700000000000) as (prog & Hprog & Hh).
  - unfold validTime, maxTime. lia.
  - rewrite E. lia.
  - rewrite E. unfold validTime, maxTime. lia.
  - exists prog. split; [done|].
    destruct (Hh (demoCounts 1700000000000)) as [Hi _].
    rewrite Hi, E. reflexivity.
Defined.

Lemma StronglySorted_rev {A} (R : relation A) l :
  StronglySorted R l → StronglySorted (flip R) (rev l).
Proof.
  induction 1 as [|x l _ IH Hx]; simpl; [constructor|].
  apply StronglySorted_app. split_and!.
  - intros a b Ha Hb. apply list_elem_of_singleton in Hb as ->.
    apply list_elem_of_In, in_rev, list_elem_of_In in Ha.
    rewrite Forall_forall in Hx. by apply Hx.
  - done.
  - apply SSorted_cons; constructor.
Qed.

(** X8: [getLogContext] asks for at most 50 logs in each of the two windows
    that meet at the target instant [t], [t − before, t] newest first and
    [t, t + after] oldest first, and returns the page of the first in
    reverse: if the backend answers in the order asked for, both lists are
    oldest first. *)
Theorem getLogContext_order Date_parse options t :
  Date_parse (c_timestamp options) = Some t →
  let b := parseDurationToMs (default (codes "5m") (c_before options)) in
  let a := parseDurationToMs (default (codes "5m") (c_after options)) in
  validTime t → validTime (t - b) → validTime (t + a) →
  ∃ prog, getLogContext Date_parse options = Some prog
    ∧ ∀ h : Handler RawLog,
      ∃ reqBefore reqAfter,
        issued h prog = [ReqList reqBefore; ReqList reqAfter]
        ∧ f_from (l_filter reqBefore) = Instant (t - b)
        ∧ f_to (l_filter reqBefore) = Instant t
        ∧ f_from (l_filter reqAfter) = Instant t
        ∧ f_to (l_filter reqAfter) = Instant (t + a)
        ∧ l_limit reqBefore = 50 ∧ l_limit reqAfter = 50
        ∧ l_sort reqBefore = codes "-timestamp"
        ∧ l_sort reqAfter = codes "timestamp"
        ∧ (run h prog).1 = rev (normalizeLog <$> onList h reqBefore)
        ∧ (run h prog).2 = normalizeLog <$> onList h reqAfter
        ∧ (newestFirst (normalizeLog <$> onList h reqBefore) →
           oldestFirst (run h prog).1).
Proof.
  intros Ht b a Hvt Hvb Hva.
  apply maxTime_exact in Hvb as Hb', Hva as Ha'.
  unfold getLogContext, contextWindows. rewrite Ht. simpl. fold b a.
  unfold sub, add. rewrite !roundDouble_exact by done.
  rewrite !newDate_valid by done. simpl.
  eexists. split; [reflexivity|]. intros h. simpl.
  eexists _, _. split_and!; try reflexivity.
  intros Hs. by apply StronglySorted_rev in Hs.
Qed.

Lemma getLogContext_order_witness :
  ∃ prog, getLogContext (λ _, Some 1700000000000) demoContext = Some prog
    ∧ ∀ h : Handler RawLog,
      ∃ reqBefore reqAfter,
        issued h prog = [ReqList reqBefore; ReqList reqAfter]
        ∧ f_from (l_filter reqBefore) = Instant (1700000000000 - 300000)
        ∧ f_to (l_filter reqAfter) = Instant (1700000000000 + 120000).
Proof.
  destruct (getLogContext_order (λ _, Some 1700000000000) demoContext
              1700000000000 eq_refl) as (prog & Hprog & Hh).
  - vm_compute. discriminate.
  - vm_compute. discriminate.
  - vm_compute. discriminate.
  - exists prog. split; [exact Hprog|]. intros h.
    destruct (Hh h) as (r1 & r2 & H1 & H2 & _ & _ & H5 & _).
    exists r1, r2. split; [exact H1|]. split; [exact H2|exact H5].
Defined.

End WindowFacts.

Module TopMessageFacts.
Import Js Regex Num Time Backend Logs Spec SummaryTerms PatternFacts.

Lemma assoc_setAssoc {V} k0 k (v : V) m :
  assoc k0 (setAssoc k v m) = if decide (k0 = k) then Some v else assoc k0 m.
Proof.
  induction m as [|[k' v'] m IH]; simpl.
  - destruct (decide (k = k0)) as [->|?].
    + by rewrite decide_True.
    + by rewrite decide_False by done.
  - destruct (decide (k' = k)) as [->|Hk]; simpl.
    + destruct (decide (k = k0)) as [->|?].
      * by rewrite decide_True.
      * by rewrite decide_False by done.
    + destruct (decide (k' = k0)) as [->|?].
      * by rewrite decide_False by done.
      * done.
Qed.

Lemma setAssoc_keys {V} k (v : V) m :
  (setAssoc k v m).*1 = if decide (k ∈ m.*1) then m.*1 else m.*1 ++ [k].
Proof.
  induction m as [|[k' v'] m IH]; csimpl.
  - done.
  - destruct (decide (k' = k)) as [->|Hk]; csimpl.
    + rewrite decide_True; [done|apply list_elem_of_here].
    + rewrite IH. destruct (decide (k ∈ m.*1)) as [Hin|Hin].
      * rewrite decide_True; [done|by apply list_elem_of_further].
      * rewrite decide_False; [done|].
        intros [?|?]%elem_of_cons; [by subst|done].
Qed.

Lemma setAssoc_NoDup {V} k (v : V) m : NoDup m.*1 → NoDup (setAssoc k v m).*1.
Proof.
  intros Hnd. rewrite setAssoc_keys. case_decide as Hin; [done|].
  apply NoDup_app. split_and!; [done| |apply NoDup_singleton].
  intros x Hx ->%list_elem_of_singleton. done.
Qed.

Lemma heard_snoc m data log :
  heard m (data ++ [log])
  = heard m data + (if decide (truncatedOf log = m) then 1 else 0).
Proof.
  unfold heard. rewrite filter_app, length_app.
  rewrite filter_cons, filter_nil. case_decide; simpl; lia.
Qed.

Lemma heard_nonneg m data : 0 <= heard m data.
Proof. unfold heard. lia. Qed.

Lemma heard_pos log data : log ∈ data → 0 < heard (truncatedOf log) data.
Proof.
  intros Hin. unfold heard.
  assert (log ∈ filter (λ l, truncatedOf l = truncatedOf log) data) as H
    by (by apply list_elem_of_filter).
  destruct (filter _ data); [by apply elem_of_nil in H|simpl; lia].
Qed.

(** The counts of the messages of a page. *)
Lemma messageCounts_spec data :
  let M := fold_left countMessage data [] in
  NoDup M.*1
  ∧ ∀ m, assoc m M
         = if decide (0 < heard m data) then Some (heard m data) else None.
Proof.
  induction data as [|log data IH] using rev_ind; simpl.
  - split; [constructor|]. done.
  - rewrite fold_left_app. simpl. destruct IH as [Hnd Hm].
    set (M := fold_left countMessage data []) in *.
    split; [by apply setAssoc_NoDup|].
    intros m. unfold countMessage. fold (truncatedOf log).
    rewrite assoc_setAssoc, heard_snoc.
    pose proof (heard_nonneg m data).
    destruct (decide (m = truncatedOf log)) as [->|Hne].
    + rewrite (decide_True (P := truncatedOf log = truncatedOf log)) by done.
      rewrite decide_True by lia.
      rewrite Hm. case_decide; simpl; f_equal; lia.
    + rewrite (decide_False (P := truncatedOf log = m)) by done.
      rewrite Z.add_0_r. apply Hm.
Qed.

Lemma topMessages_spec data :
  topMessagesSpec data
    (take 10 (sortBy (λ a b, b.2 - a.2) (fold_left countMessage data []))).
Proof.
  destruct (messageCounts_spec data) as [Hnd Hm]. simpl in *.
  set (M := fold_left countMessage data []) in *.
  set (S := sortBy (λ a b : jsstring * Z, b.2 - a.2) M).
  assert (HP : S ≡ₚ M) by apply sortBy_perm.
  assert (HS : StronglySorted (rankedBy snd (λ _ _, True)) S).
  { apply (sortBy_sorted snd (λ _ _ : jsstring * Z, True)).
    clear. induction M; constructor; [done|]. by apply Forall_forall. }
  assert (Hle : ∀ a b : jsstring * Z, rankedBy snd (λ _ _, True) a b → b.2 <= a.2).
  { intros a b [?|[? _]]; lia. }
  assert (Hval : ∀ m c, (m, c) ∈ S → c = heard m data ∧ 0 < c).
  { intros m c Hin. rewrite HP in Hin.
    apply (elem_assoc _ _ _ Hnd) in Hin. rewrite Hm in Hin.
    case_decide; by simplify_eq. }
  assert (HndS : NoDup S.*1) by (by rewrite HP).
  rewrite <- (take_drop 10 S) in HS, HndS.
  split_and!.
  - rewrite length_take. lia.
  - rewrite fmap_app in HndS. by apply NoDup_app in HndS as [? _].
  - intros m c Hin. apply Hval. rewrite <- (take_drop 10 S).
    apply elem_of_app. by left.
  - intros i j e1 e2 Hij H1 H2. apply Hle.
    apply StronglySorted_app_1_l in HS.
    by eapply (StronglySorted_lookup _ _ i j).
  - intros log Hin.
    pose proof (heard_pos log data Hin) as Hpos.
    assert (Hk : (truncatedOf log, heard (truncatedOf log) data) ∈ S).
    { rewrite HP. apply assoc_Some_elem. rewrite Hm. by rewrite decide_True. }
    rewrite <- (take_drop 10 S) in Hk. apply elem_of_app in Hk as [Hk|Hk].
    + left. apply list_elem_of_fmap. by eexists (_, _).
    + right. split.
      * rewrite length_take. apply Nat.min_l.
        destruct (decide (10 ≤ length S)%nat) as [|Hn]; [done|].
        rewrite drop_ge in Hk by lia. by apply elem_of_nil in Hk.
      * intros e He.
        apply (Hle e (truncatedOf log, heard (truncatedOf log) data)).
        by apply (StronglySorted_app_1_elem_of _ _ _ _ _ HS).
Qed.

(** X9: whatever the backend answers, the top messages of [getErrorSummary]
    are read from a page of at most 500 error logs, the last of the four
    requests: at most ten different truncated messages, each with the
    number of logs of the page that carry it, larger counts first, and no
    message left out that more logs carry than one that is kept. *)
Theorem errorSummary_topMessages Date_parse options now prog
    (h : Handler RawLog) :
  getErrorSummary Date_parse options now = Some prog →
  ∃ byServiceReq byStatusReq totalReq pageReq,
    issued h prog = [ReqAggregate byServiceReq; ReqAggregate byStatusReq;
                     ReqAggregate totalReq; ReqList pageReq]
    ∧ l_limit pageReq = 500
    ∧ f_query (l_filter pageReq) = errorQuery (e_service options)
    ∧ topMessagesSpec (onList h pageReq) (topMessages (run h prog)).
Proof.
  unfold getErrorSummary. intros H.
  destruct (parseTimeRange _ _ _ _) as [tr|]; [|done].
  simpl in H. injection H as <-. simpl.
  eexists _, _, _, _. split_and!; try reflexivity.
  apply topMessages_spec.
Qed.

Lemma errorSummary_topMessages_witness :
  ∃ prog, getErrorSummary (λ _, None) noOptions 1705320000000 = Some prog
    ∧ ∃ byServiceReq byStatusReq totalReq pageReq,
        issued demoLogs prog
        = [ReqAggregate byServiceReq; ReqAggregate byStatusReq;
           ReqAggregate totalReq; ReqList pageReq]
        ∧ l_limit pageReq = 500
        ∧ f_query (l_filter pageReq) = errorQuery (e_service noOptions)
        ∧ topMessagesSpec (onList demoLogs pageReq)
            (topMessages (run demoLogs prog)).
Proof.
  assert (E : parseTimeRange (λ _, None) None None 1705320000000
              = Some {| from := 1705319100000; to := 1705320000000 |})
    by (vm_compute; reflexivity).
  assert (E' : ∃ prog, getErrorSummary (λ _, None) noOptions 1705320000000
                       = Some prog).
  { unfold getErrorSummary. simpl e_from. simpl e_to. rewrite E.
    eexists. reflexivity. }
  destruct E' as [prog E']. exists prog. split; [exact E'|].
  exact (errorSummary_topMessages _ _ _ prog demoLogs E').
Defined.

End TopMessageFacts.

Module ClusterFacts.
Import Js Num Time Backend Logs Spec PatternFacts.

Lemma sumZ_perm l1 l2 : l1 ≡ₚ l2 → sumZ l1 = sumZ l2.
Proof.
  unfold sumZ. induction 1; simpl; lia.
Qed.

Lemma sumZ_app l1 l2 : sumZ (l1 ++ l2) = sumZ l1 + sumZ l2.
Proof. unfold sumZ. induction l1; simpl; lia. Qed.

Lemma sumZ_ge0 l : Forall (λ x, 0 <= x) l → 0 <= sumZ l.
Proof. unfold sumZ. induction 1; simpl; lia. Qed.

Lemma sum_indicator (k0 : jsstring) K :
  NoDup K →
  sumZ ((λ k, if decide (k0 = k) then 1 else 0) <$> K)
  = if decide (k0 ∈ K) then 1 else 0.
Proof.
  unfold sumZ. induction 1 as [|k K Hk Hnd IH]; [done|]. csimpl.
  rewrite IH. destruct (decide (k0 = k)) as [->|Hne].
  - rewrite decide_False by done.
    rewrite decide_True; [done|apply list_elem_of_here].
  - destruct (decide (k0 ∈ K)) as [Hin|Hin].
    + rewrite decide_True; [done|by apply list_elem_of_further].
    + rewrite decide_False; [done|].
      by intros [?|?]%elem_of_cons.
Qed.

Lemma sum_pointwise {A} (f g : A → Z) l :
  sumZ ((λ x, f x + g x) <$> l) = sumZ (f <$> l) + sumZ (g <$> l).
Proof. unfold sumZ. induction l; csimpl; lia. Qed.

(** The clusters of distinct keys that cover a page count each of its
    logs once. *)
Lemma occurrences_total K data :
  NoDup K → (∀ log, log ∈ data → keyOf log ∈ K) →
  sumZ ((λ k, occurrences k data) <$> K) = Z.of_nat (length data).
Proof.
  intros Hnd. induction data as [|log data IH]; intros Hall.
  - unfold occurrences. simpl. clear. unfold sumZ. by induction K.
  - assert (Hocc : ∀ k, occurrences k (log :: data)
                        = occurrences k data
                          + if decide (keyOf log = k) then 1 else 0).
    { intros k. unfold occurrences. rewrite filter_cons.
      case_decide; simpl length; lia. }
    rewrite (list_fmap_ext (λ k, occurrences k (log :: data))
               (λ k, occurrences k data
                     + if decide (keyOf log = k) then 1 else 0) K)
      by (intros; apply Hocc).
    rewrite (sum_pointwise (λ k, occurrences k data)).
    rewrite IH; [|intros l Hl; apply Hall; by apply list_elem_of_further].
    rewrite sum_indicator by done.
    rewrite decide_True; [simpl length; lia|].
    apply Hall, list_elem_of_here.
Qed.

Lemma map_counts_total data :
  let m := fold_left addLog data [] in
  sumZ ((λ e : jsstring * (Z * jsstring), e.2.1) <$> m)
  = Z.of_nat (length data)
  ∧ Forall (λ e : jsstring * (Z * jsstring), 0 < e.2.1) m.
Proof.
  simpl. pose proof (fold_clustered data) as Hc.
  pose proof (map_keys_NoDup data) as Hnd. simpl in Hnd.
  set (m := fold_left addLog data []) in *.
  assert (Hcount : ∀ e, e ∈ m → e.2.1 = occurrences e.1 data
                                 ∧ 0 < e.2.1).
  { intros [k [c smp]] He. simpl.
    apply (elem_assoc _ _ _ Hnd) in He.
    destruct (clustered_entry _ _ Hc k c smp He) as (i & log & Hf & _ & ->).
    split; [done|].
    apply list_find_Some in Hf as (Hi & Hk & _).
    unfold occurrences.
    assert (log ∈ filter (λ l, keyOf l = k) data) as Hin.
    { apply list_elem_of_filter. split; [done|].
      by eapply list_elem_of_lookup_2. }
    destruct (filter _ data); [by apply elem_of_nil in Hin|simpl; lia]. }
  split.
  - rewrite <- (occurrences_total m.*1 data Hnd (clustered_all _ _ Hc)).
    rewrite <- list_fmap_compose. f_equal.
    apply list_fmap_ext. intros i e He. simpl.
    apply Hcount. by eapply list_elem_of_lookup_2.
  - apply Forall_forall. intros e He. by apply Hcount.
Qed.

(** X23: the counts of the patterns that [getLogPatterns] returns are
    positive and add up to at most the number of logs of the page, which
    is [totalLogs]; they add up to it exactly when fewer than fifty
    patterns are returned, no cluster being cut then. *)
Theorem patterns_total Date_parse options now prog (h : Handler RawLog) :
  getLogPatterns Date_parse options now = Some prog →
  let r := run h prog in
  Forall (λ e, 0 < count e) (patterns r)
  ∧ sumZ (count <$> patterns r) <= totalLogs r
  ∧ ((length (patterns r) < 50)%nat →
     sumZ (count <$> patterns r) = totalLogs r).
Proof.
  unfold getLogPatterns. intros H.
  destruct (parseTimeRange _ _ _ _) as [tr|]; [|done].
  simpl in H. injection H as <-. simpl.
  set (data := onList h _).
  destruct (map_counts_total data) as [Hsum Hpos]. simpl in Hsum, Hpos.
  unfold patternsOf.
  set (m := fold_left addLog data []) in *.
  set (sorted := sortBy (λ a b : jsstring * (Z * jsstring), b.2.1 - a.2.1) m).
  assert (HP : sorted ≡ₚ m) by apply sortBy_perm.
  assert (Hpos' : Forall (λ e : jsstring * (Z * jsstring), 0 < e.2.1) sorted)
    by (by rewrite HP).
  assert (Hsum' : sumZ ((λ e : jsstring * (Z * jsstring), e.2.1) <$> sorted)
                  = Z.of_nat (length data)).
  { rewrite <- Hsum. apply sumZ_perm. by rewrite HP. }
  rewrite <- list_fmap_compose.
  change (count ∘ _) with (λ e : jsstring * (Z * jsstring), e.2.1).
  rewrite <- (take_drop 50 sorted) in Hsum', Hpos'.
  rewrite fmap_app, sumZ_app in Hsum'.
  apply Forall_app in Hpos' as [Hp1 Hp2].
  split_and!.
  - apply Forall_fmap. by apply (Forall_impl _ _ _ Hp1).
  - assert (0 <= sumZ ((λ e : jsstring * (Z * jsstring), e.2.1)
                         <$> drop 50 sorted)).
    { apply sumZ_ge0, Forall_fmap.
      apply (Forall_impl _ _ _ Hp2). simpl. lia. }
    lia.
  - rewrite length_fmap, length_take. intros Hlt.
    rewrite drop_ge in Hsum' by lia. simpl in Hsum'. unfold sumZ in *.
    simpl in Hsum'. lia.
Qed.

Lemma patterns_total_witness :
  ∃ prog,
    getLogPatterns (λ _, None)
      {| p_query := codes "*"; p_from := None; p_to := None;
         p_limit := None |} 1705320000000 = Some prog
    ∧ Forall (λ e, 0 < count e) (patterns (run demoLogs prog))
    ∧ sumZ (count <$> patterns (run demoLogs prog))
      <= totalLogs (run demoLogs prog)
    ∧ ((length (patterns (run demoLogs prog)) < 50)%nat →
       sumZ (count <$> patterns (run demoLogs prog))
       = totalLogs (run demoLogs prog)).
Proof.
  assert (E : parseTimeRange (λ _, None) None None 1705320000000
              = Some {| from := 1705319100000; to := 1705320000000 |})
    by (vm_compute; reflexivity).
  assert (E' : ∃ prog, getLogPatterns (λ _, None)
      {| p_query := codes "*"; p_from := None; p_to := None;
         p_limit := None |} 1705320000000 = Some prog).
  { unfold getLogPatterns. simpl p_from. simpl p_to. rewrite E.
    eexists. reflexivity. }
  destruct E' as [prog E']. exists prog. split; [exact E'|].
  exact (patterns_total _ _ _ prog demoLogs E').
Defined.

End ClusterFacts.

Module TailOrderFacts.
Import Js Num Time Backend Logs Spec TailTerms TailFacts.

Lemma strLt_irrefl a : strLt a a = false.
Proof.
  induction a as [|x a IH]; [done|]. simpl.
  rewrite N.ltb_irrefl, N.eqb_refl. by rewrite IH.
Qed.

Lemma strLt_asym a b : strLt a b = true → strLt b a = false.
Proof.
  revert b. induction a as [|x a IH]; intros [|y b]; simpl; try done.
  intros [H|[H1 H2]%andb_true_iff]%orb_true_iff.
  - apply N.ltb_lt in H.
    rewrite (proj2 (N.ltb_ge y x)) by lia.
    rewrite (proj2 (N.eqb_neq y x)) by lia. done.
  - apply N.eqb_eq in H1 as ->.
    rewrite N.ltb_irrefl, N.eqb_refl. simpl. by apply IH.
Qed.

Lemma strLe_refl a : strLe a a.
Proof. apply strLt_irrefl. Qed.

Lemma strLe_trans a b c : strLe a b → strLe b c → strLe a c.
Proof.
  unfold strLe. revert b c.
  induction a as [|x a IH]; intros [|y b] [|z c]; simpl; try done.
  intros H1 H2.
  apply orb_false_iff in H1 as [H1 H1'], H2 as [H2 H2'].
  apply N.ltb_ge in H1, H2.
  apply orb_false_iff. split; [apply N.ltb_ge; lia|].
  destruct (N.eqb_spec z x) as [->|Hzx]; [|done]. simpl.
  assert (y = x) as -> by lia.
  rewrite N.eqb_refl in H1', H2'. simpl in *. by eapply IH.
Qed.

Section WithCallback.
Variable onLog : NormalizedLog → bool.

(** What the loop over a page hands to the callback. *)
Lemma pollLoop_delivers data st :
  let r := pollLoop onLog data st in
  NoDup (id <$> (r.1.2))
  ∧ (∀ x, x ∈ (r.1.2) → (id x ∉ seenIds st) ∧ id x ∈ seenIds (r.1.1)
               ∧ x ∈ normalizeLog <$> data)
  ∧ (NoDup (seenIds st) → NoDup (seenIds (r.1.1)))
  ∧ strLe (lastTimestamp st) (lastTimestamp (r.1.1))
  ∧ (r.2 = true → ∀ x, x ∈ (r.1.2) → strLe (timestamp x) (lastTimestamp (r.1.1)))
  ∧ running (r.1.1) = running st.
Proof.
  revert st. induction data as [|log data IH]; intros st; simpl.
  - split_and!; try done.
    + constructor.
    + by intros x ?%elem_of_nil.
    + apply strLe_refl.
    + by intros _ x ?%elem_of_nil.
  - case_bool_decide as Hseen.
    + specialize (IH st). destruct (pollLoop onLog data st) as [[st' out] ok].
      simpl in *. destruct IH as (H1 & H2 & H3 & H4 & H5 & H6). split_and!; try done.
      intros x Hx. destruct (H2 x Hx) as (? & ? & ?). split_and!; try done.
      by apply list_elem_of_further.
    + destruct (onLog (normalizeLog log)).
      * match goal with |- context [pollLoop onLog data ?s] =>
          specialize (IH s); pose proof (pollLoop_appends onLog data s) as Happ;
          destruct (pollLoop onLog data s) as [[st' out] ok] end.
        simpl in *. destruct Happ as [added Happ].
        destruct IH as (H1 & H2 & H3 & H4 & H5 & H6).
        assert (Hstep : strLe (lastTimestamp st)
                  (if strLt (lastTimestamp st) (timestamp (normalizeLog log))
                   then timestamp (normalizeLog log) else lastTimestamp st)).
        { destruct (strLt _ _) eqn:E; [by apply strLt_asym|apply strLe_refl]. }
        assert (Hnew : strLe (timestamp (normalizeLog log))
                  (if strLt (lastTimestamp st) (timestamp (normalizeLog log))
                   then timestamp (normalizeLog log) else lastTimestamp st)).
        { destruct (strLt _ _) eqn:E; [apply strLe_refl|done]. }
        split_and!.
        -- apply NoDup_cons. split; [|done].
           intros [x [Hid Hx]]%list_elem_of_fmap.
           destruct (H2 x Hx) as (Hn & _). apply Hn. rewrite <- Hid.
           apply elem_of_app. right. apply list_elem_of_here.
        -- intros x [->|Hx]%elem_of_cons.
           ++ split_and!; [done| |apply list_elem_of_here].
              rewrite Happ. apply elem_of_app. left. apply elem_of_app.
              right. apply list_elem_of_here.
           ++ destruct (H2 x Hx) as (Hn & Hi & Hd). split_and!; [|done|].
              ** intros Hin. apply Hn. apply elem_of_app. by left.
              ** by apply list_elem_of_further.
        -- intros Hnd. apply H3. apply NoDup_app. split_and!; [done| |].
           ++ intros x Hx ->%list_elem_of_singleton. done.
           ++ apply NoDup_singleton.
        -- by eapply strLe_trans.
        -- intros Hok x [->|Hx]%elem_of_cons; [|by apply H5].
           by eapply strLe_trans.
        -- done.
      * simpl. split_and!; try done.
        -- apply NoDup_singleton.
        -- intros x ->%list_elem_of_singleton. split_and!; [done| |].
           ++ apply elem_of_app. right. apply list_elem_of_here.
           ++ apply list_elem_of_here.
        -- intros Hnd. apply NoDup_app. split_and!; [done| |].
           ++ intros x Hx ->%list_elem_of_singleton. done.
           ++ apply NoDup_singleton.
        -- apply strLe_refl.
Qed.


(** X11: the time stamp from which the live tail asks never goes back: after
    a poll it is not before what it was, and after a poll that completes
    it is not before the time stamp of any log handed over. *)
Theorem tail_timestamp_monotone answer st c st' out :
  poll onLog answer st = (c, st', out) →
  strLe (lastTimestamp st) (lastTimestamp st')
  ∧ (c = Completed → ∀ x, x ∈ out → strLe (timestamp x) (lastTimestamp st')).
Proof.
  unfold poll. destruct (running st); simpl.
  2: { intros [= <- <- <-]. split; [apply strLe_refl|done]. }
  destruct answer as [data|].
  2: { intros [= <- <- <-]. split; [apply strLe_refl|done]. }
  pose proof (pollLoop_delivers data st) as H.
  destruct (pollLoop onLog data st) as [[st1 out1] ok]. simpl in H.
  destruct H as (_ & _ & _ & H4 & H5 & _).
  destruct ok; intros [= <- <- <-].
  - assert (lastTimestamp (boundSeen st1) = lastTimestamp st1) as ->.
    { unfold boundSeen. by case_match. }
    split; [done|]. intros _. by apply H5.
  - split; [done|]. done.
Qed.


End WithCallback.


Lemma tail_timestamp_monotone_witness :
  let r := poll (λ _, true) (Some [logWithId 7]) (tailStart (codes "2024")) in
  strLe (codes "2024") (lastTimestamp (r.1.2))
  ∧ (r.1.1 = Completed →
     ∀ x, x ∈ r.2 → strLe (timestamp x) (lastTimestamp (r.1.2))).
Proof.
  intros r.
  refine (tail_timestamp_monotone (λ _, true) (Some [logWithId 7])
            (tailStart (codes "2024"))
            (r.1.1) (r.1.2) (r.2) _).
  change (r = (r.1.1, r.1.2, r.2)). by destruct r as [[? ?] ?].
Defined.


End TailOrderFacts.

Module QueryFacts.
Import Js Regex Num Time Backend Logs LogQueries Spec QueryTerms.
Import RegexFacts TimeFacts RangeFacts.

Lemma runPaged_bind {A B} h (m : Paged A) (f : A → Paged B) :
  runPaged h (bindPaged m f) = runPaged h (f (runPaged h m)).
Proof. induction m as [a|r k IH]; simpl; [done|]. apply IH. Qed.

Lemma issuedPaged_bind {A B} h (m : Paged A) (f : A → Paged B) :
  issuedPaged h (bindPaged m f)
  = issuedPaged h m ++ issuedPaged h (f (runPaged h m)).
Proof. induction m as [a|r k IH]; simpl; [done|]. by rewrite IH. Qed.

(** X13: [searchLogs] makes one request, for [min(limit, 1000)] logs (100
    without a limit) and so never for more than 1000, oldest first only
    when the sort is ["timestamp"]; its total is the number of logs of the
    page and its cursor the one of the page. *)
Theorem searchLogs_request Date_parse options now prog (h : ListRequest → Page) :
  searchLogs Date_parse options now = Some prog →
  ∃ req, issuedPaged h prog = [req]
    ∧ l_limit req = Z.min (default 100 (o_limit options)) 1000
    ∧ l_limit req <= 1000
    ∧ (o_limit options = None → l_limit req = 100)
    ∧ (l_sort req = codes "timestamp"
       ↔ o_sort options = Some (codes "timestamp"))
    ∧ (l_sort req ≠ codes "timestamp" → l_sort req = codes "-timestamp")
    ∧ f_query (l_filter req) = o_query options
    ∧ runPaged h prog = resultOf (h req) (timeRange (runPaged h prog))
    ∧ total (runPaged h prog) = Z.of_nat (length (logs (runPaged h prog))).
Proof.
  unfold searchLogs. intros H.
  destruct (parseTimeRange _ _ _ _) as [tr|]; [|done].
  simpl in H. injection H as <-. simpl.
  eexists. split; [reflexivity|]. simpl. split_and!; try done.
  - lia.
  - by intros ->.
  - case_bool_decide; [done|]. split; [discriminate|done].
  - by case_bool_decide.
  - unfold resultOf. simpl. by rewrite length_fmap.
Qed.

(** *** Default windows *)

Lemma parseTimeRange_offsets Date_parse from_ to_ now a b :
  validTime now →
  Offset (15 * 60 * 1000) from_ a → Offset 0 to_ b →
  validTime (now - a) → validTime (now - b) →
  parseTimeRange Date_parse from_ to_ now
  = Some {| from := now - a; to := now - b |}.
Proof.
  intros Hnow Ha Hb Hva Hvb. unfold parseTimeRange.
  pose proof (bound_resolves Date_parse _ _ _ now Hnow Ha Hva) as Hf.
  pose proof (bound_resolves Date_parse _ _ _ now Hnow Hb Hvb) as Ht.
  change (mul (mul 15 60) 1000) with (15 * 60 * 1000).
  rewrite Hf by lia.
  assert (match to_ with
          | Some ((_ :: _) as t) => parseRelativeTime Date_parse t now
          | _ => Some now
          end = Some (now - b)) as ->; [|done].
  destruct to_ as [[|c t]|]; try apply Ht; try lia.
  all: inversion Hb as [? ? | ? ds u (Hs & _) _]; subst;
    try (by destruct ds); by rewrite Z.sub_0_r.
Qed.

Lemma offset_day : Offset (15 * 60 * 1000) (Some (codes "24h")) 86400000.
Proof.
  change 86400000 with (digitsValue (codes "24") * unitMs (ch "h")).
  apply OffsetRelative.
  - repeat split; [done|by repeat constructor].
  - vm_compute. discriminate.
Qed.

(** X14: without a [from], the logs of a trace and the list of services are
    looked for over the 24 hours before the clock; with an empty [from],
    over the 15 minutes before it. *)
Theorem default_window Date_parse traceId to_ now b :
  validTime now → Offset 0 to_ b → validTime (now - b) →
  validTime (now - 86400000) →
  let day := {| from := now - 86400000; to := now - b |} in
  let quarter := {| from := now - 900000; to := now - b |} in
  (∃ prog, getLogsByTraceId Date_parse traceId None to_ now = Some prog
     ∧ ∀ h : Handler RawLog, (run h prog).2 = day)
  ∧ (∃ prog, getLogsByTraceId Date_parse traceId (Some []) to_ now = Some prog
     ∧ ∀ h : Handler RawLog, (run h prog).2 = quarter)
  ∧ (∃ prog, listServices Date_parse None to_ now = Some prog
     ∧ ∀ h : Handler RawLog, (run h prog).2 = day)
  ∧ (∃ prog, listServices Date_parse (Some []) to_ now = Some prog
     ∧ ∀ h : Handler RawLog, (run h prog).2 = quarter).
Proof.
  intros Hnow Hb Hvb Hday day quarter.
  assert (Hq : validTime (now - 15 * 60 * 1000))
    by (unfold validTime, maxTime in *; lia).
  pose proof (parseTimeRange_offsets Date_parse (Some (codes "24h")) to_ now
                _ b Hnow offset_day Hb Hday Hvb) as H1.
  pose proof (parseTimeRange_offsets Date_parse (Some []) to_ now
                _ b Hnow (OffsetDefault _ (Some []) eq_refl) Hb Hq Hvb) as H2.
  unfold getLogsByTraceId, listServices. simpl default.
  rewrite H1, H2. simpl.
  split_and!; eexists; (split; [reflexivity|done]).
Qed.

Lemma default_window_witness :
  ∃ prog, getLogsByTraceId (λ _, None) (codes "abc") None None 1700000000000
          = Some prog
    ∧ ∀ h : Handler RawLog,
        (run h prog).2 = {| from := 1700000000000 - 86400000;
                            to := 1700000000000 - 0 |}.
Proof.
  refine (proj1 (default_window (λ _, None) (codes "abc") None 1700000000000 0
                   _ _ _ _)).
  - vm_compute. discriminate.
  - by apply OffsetDefault.
  - vm_compute. discriminate.
  - vm_compute. discriminate.
Defined.

(** *** Several queries at once *)

Lemma searchAll_spec Date_parse queries i clock prog (h : ListRequest → Page) :
  searchAll Date_parse queries i clock = Some prog →
  ∃ trs, length trs = length queries
    ∧ issuedPaged h prog = zip_with requestOf queries trs
    ∧ runPaged h prog
      = zip_with (λ q tr, (q_name q, resultOf (h (requestOf q tr)) tr))
          queries trs.
Proof.
  revert i prog. induction queries as [|q queries IH]; intros i prog; simpl.
  - intros [= <-]. by exists [].
  - unfold searchLogs. simpl.
    destruct (parseTimeRange _ _ _ _) as [tr|]; [|done]. simpl.
    destruct (searchAll Date_parse queries (S i) clock) as [others|] eqn:Ho;
      [|done].
    simpl. intros [= <-].
    destruct (IH _ _ Ho) as (trs & Hlen & Hiss & Hrun).
    exists (tr :: trs). split_and!.
    + simpl. by rewrite Hlen.
    + simpl. rewrite issuedPaged_bind. simpl. rewrite app_nil_r.
      by rewrite Hiss.
    + simpl. rewrite !runPaged_bind. simpl. rewrite Hrun.
      unfold resultOf. simpl. by rewrite length_fmap.
Qed.

Lemma fold_setKey_last {V} (results : list (jsstring * V)) out i name r :
  results !! i = Some (name, r) →
  name ≠ codes "__proto__" →
  (∀ j r', (i < j)%nat → results !! j ≠ Some (name, r')) →
  fold_left (λ output nr, setKey nr.1 nr.2 output) results out !! name
  = Some r.
Proof.
  revert out i. induction results as [|[n0 r0] results IH]; intros out i Hi Hn Hlast;
    [done|].
  simpl. destruct i as [|i]; simpl in Hi.
  - injection Hi as -> ->.
    assert (Hkeep : ∀ l out0,
      (∀ j r', l !! j ≠ Some (name, r')) → out0 !! name = Some r →
      fold_left (λ output nr, setKey nr.1 nr.2 output) l out0 !! name = Some r).
    { induction l as [|[n1 r1] l IHl]; intros out0 Hl Hout; [done|].
      simpl. apply IHl.
      - intros j r'. apply (Hl (S j)).
      - unfold setKey. case_bool_decide; [done|].
        rewrite lookup_insert_ne; [done|].
        intros ->. by apply (Hl O r1). }
    apply Hkeep.
    + intros j r'. apply (Hlast (S j)). lia.
    + unfold setKey. rewrite bool_decide_false by done.
      apply lookup_insert_eq.
  - apply (IH _ i); [done|done|].
    intros j r' Hj. apply (Hlast (S j)). lia.
Qed.

Lemma fold_setKey_dom {V} (results : list (jsstring * V)) out name :
  is_Some (fold_left (λ output nr, setKey nr.1 nr.2 output) results out
           !! name) →
  is_Some (out !! name)
  ∨ (name ∈ results.*1 ∧ name ≠ codes "__proto__").
Proof.
  revert out. induction results as [|[n0 r0] results IH]; intros out; simpl;
    [by left|].
  intros [H|[H1 H2]]%IH.
  - unfold setKey in H. case_bool_decide as Hp; [by left|].
    destruct (decide (n0 = name)) as [->|Hne].
    + right. split; [apply list_elem_of_here|done].
    + rewrite lookup_insert_ne in H by done. by left.
  - right. split; [by apply list_elem_of_further|done].
Qed.

(** X15: [multiQuery] makes one request for each query, in their order and
    each for 100 logs, newest first; its result has an entry for a name
    only if a query bears it, and the entry of a name is the result of the
    last query that bears it. *)
Theorem multiQuery_last_wins Date_parse queries clock prog
    (h : ListRequest → Page) :
  multiQuery Date_parse queries clock = Some prog →
  ∃ trs, length trs = length queries
    ∧ issuedPaged h prog = zip_with requestOf queries trs
    ∧ (∀ name, is_Some (runPaged h prog !! name) →
         name ∈ q_name <$> queries)
    ∧ ∀ i q tr, queries !! i = Some q → trs !! i = Some tr →
        q_name q ≠ codes "__proto__" →
        (∀ j q', (i < j)%nat → queries !! j = Some q' →
                 q_name q' ≠ q_name q) →
        runPaged h prog !! q_name q
        = Some (resultOf (h (requestOf q tr)) tr).
Proof.
  unfold multiQuery.
  destruct (searchAll Date_parse queries 0 clock) as [searches|] eqn:Hs;
    [|done].
  simpl. intros [= <-].
  destruct (searchAll_spec _ _ _ _ _ h Hs) as (trs & Hlen & Hiss & Hrun).
  exists trs. rewrite issuedPaged_bind, runPaged_bind. simpl.
  rewrite app_nil_r, Hrun. split_and!; [done|done| |].
  - intros name [H|[H _]]%fold_setKey_dom.
    + rewrite lookup_empty in H. by destruct H.
    + apply list_elem_of_fmap in H as ([n r] & -> & H).
      apply list_elem_of_lookup in H as [i H].
      apply lookup_zip_with_Some in H as (q & tr & [= -> ->] & Hq & Htr).
      apply list_elem_of_fmap. exists q. split; [done|].
      by eapply list_elem_of_lookup_2.
  - intros i q tr Hq Htr Hproto Hlast.
    apply (fold_setKey_last _ _ i); [|done|].
    + rewrite lookup_zip_with. by rewrite Hq, Htr.
    + intros j r' Hj Hl.
      apply lookup_zip_with_Some in Hl as (q' & tr' & [= Hn ->] & Hq' & Htr').
      by apply (Hlast j q').
Qed.

Lemma searchLogs_request_witness :
  ∃ prog, searchLogs (λ _, None) demoSearch 1705320000000 = Some prog
    ∧ ∃ req, issuedPaged demoPages prog = [req]
        ∧ l_limit req = 1000
        ∧ l_sort req = codes "-timestamp".
Proof.
  assert (E : parseTimeRange (λ _, None) None None 1705320000000
              = Some {| from := 1705319100000; to := 1705320000000 |})
    by (vm_compute; reflexivity).
  assert (E' : ∃ prog, searchLogs (λ _, None) demoSearch 1705320000000
                       = Some prog).
  { unfold searchLogs. simpl o_from. simpl o_to. rewrite E.
    eexists. reflexivity. }
  destruct E' as [prog E']. exists prog. split; [exact E'|].
  destruct (searchLogs_request _ _ _ prog demoPages E')
    as (req & Hi & Hl & _ & _ & Hiff & Hs & _).
  exists req. split; [exact Hi|]. split; [exact Hl|].
  apply Hs. intros H. apply Hiff in H. discriminate.
Defined.

Lemma multiQuery_last_wins_witness :
  ∃ prog, multiQuery (λ _, None) demoQueries (λ _, 1705320000000) = Some prog
    ∧ ∃ trs, length trs = length demoQueries
        ∧ issuedPaged demoPages prog = zip_with requestOf demoQueries trs.
Proof.
  assert (E : parseTimeRange (λ _, None) None None 1705320000000
              = Some {| from := 1705319100000; to := 1705320000000 |})
    by (vm_compute; reflexivity).
  assert (E' : ∃ prog, multiQuery (λ _, None) demoQueries
                         (λ _, 1705320000000) = Some prog).
  { unfold multiQuery, demoQueries, searchAll, searchLogs.
    simpl o_from. simpl o_to. rewrite E. eexists. reflexivity. }
  destruct E' as [prog E']. exists prog. split; [exact E'|].
  destruct (multiQuery_last_wins _ _ _ prog demoPages E')
    as (trs & Hlen & Hiss & _).
  exists trs. split; [exact Hlen|exact Hiss].
Defined.

End QueryFacts.

Module HierarchyFacts.
Import Js Num Time Backend Spans SpanQueries Spec TraceTerms TreeFacts.
Local Open Scope nat_scope.

Lemma maxOf_spec l :
  match maxOf l with
  | None => l = []
  | Some d => d ∈ l ∧ ∀ x, x ∈ l → (x ≤ d)%Z
  end.
Proof.
  destruct l as [|d0 l]; simpl; [done|].
  revert d0. induction l as [|y l IH]; intros d0; simpl.
  - split; [apply list_elem_of_here|]. by intros x ->%list_elem_of_singleton.
  - destruct (IH (Z.max d0 y)) as [Hin Hle]. split.
    + apply elem_of_cons in Hin as [Hm|Hin].
      * rewrite Hm. destruct (Z.max_spec d0 y) as [[_ ->]|[_ ->]].
        -- apply list_elem_of_further, list_elem_of_here.
        -- apply list_elem_of_here.
      * by do 2 apply list_elem_of_further.
    + intros x [->|[->|Hx]%elem_of_cons]%elem_of_cons.
      * specialize (Hle (Z.max d0 y) (list_elem_of_here _ _)). lia.
      * specialize (Hle (Z.max d0 y) (list_elem_of_here _ _)). lia.
      * apply Hle. by apply list_elem_of_further.
Qed.

Lemma filter_index {A} (P : A → Prop) `{∀ x, Decision (P x)}
    (Q : nat → Prop) `{∀ i, Decision (Q i)} (l : list A) l' j :
  drop j l = l' →
  (∀ i s, l !! i = Some s → (Q i ↔ P s)) →
  omap (λ i, l !! i) (filter Q (seq j (length l'))) = filter P l'.
Proof.
  intros Hdrop HQ. revert j Hdrop.
  induction l' as [|s l' IH]; intros j Hdrop; [done|].
  assert (l !! j = Some s) as Hj.
  { pose proof (lookup_drop l j 0) as Hl.
    rewrite Hdrop, Nat.add_0_r in Hl. by rewrite <- Hl. }
  assert (drop (S j) l = l') as Hdrop'.
  { by rewrite <- Nat.add_1_r, <- drop_drop, Hdrop. }
  csimpl. rewrite !filter_cons.
  destruct (decide (Q j)) as [Hq|Hq], (decide (P s)) as [Hp|Hp].
  - csimpl. rewrite Hj. csimpl. f_equal. by apply IH.
  - by apply (HQ j s Hj) in Hq.
  - by apply (HQ j s Hj) in Hp.
  - by apply IH.
Qed.

Section Hierarchy.
Variable spans : list NormalizedSpan.
Hypothesis distinct : NoDup (spanId <$> spans).
Variable Date_parse : jsstring → option Z.

(** What [getTraceHierarchy] takes for a root span is what the tree has
    for a root. *)
Lemma isRootSpan_parentOf i s :
  spans !! i = Some s →
  parentOf spans i = None ↔ isRootSpan spans s = true.
Proof.
  intros Hi. unfold parentOf, isRootSpan. rewrite Hi. simpl.
  destruct (parentId s) as [[|c pid]|] eqn:Hp; simpl; try done.
  rewrite negb_true_iff.
  destruct (list_find _ spans) as [[j y]|] eqn:Hf; simpl.
  - split; [done|]. intros Hex.
    apply list_find_Some in Hf as (Hj & Hy & _).
    assert (existsb (λ p, bool_decide (Some (spanId p) = Some (c :: pid))) spans
            = true) as Ht; [|congruence].
    apply existsb_exists. exists y. split.
    + apply list_elem_of_In. by eapply list_elem_of_lookup_2.
    + apply bool_decide_eq_true. by rewrite Hy.
  - split; [|done]. intros _.
    apply list_find_None in Hf. rewrite Forall_forall in Hf.
    destruct (existsb _ spans) eqn:Hex; [|done].
    apply existsb_exists in Hex as (y & Hy & Hb).
    apply bool_decide_eq_true in Hb. injection Hb as Hb.
    by apply list_elem_of_In, Hf in Hy.
Qed.

Lemma buildTraceTree_roots fuel :
  length spans ≤ fuel →
  ∃ heap roots,
    buildTraceTree Date_parse fuel spans = Some (heap, roots)
    ∧ rootSpansOf (heap, roots)
      = filter (λ s, isRootSpan spans s = true) spans
    ∧ length (rootSpansOf (heap, roots)) = length roots.
Proof.
  intros Hfuel. unfold buildTraceTree.
  set (heap0 := (λ span, {| span := span; children := []; depth := 0 |})
                  <$> spans).
  destruct (linkNodes_spec spans distinct spans 0 heap0 []) as
    (heap1 & roots & -> & Hl1 & Hroots & Hch1 & Hsp1 & Hd1).
  { done. } { unfold heap0. by rewrite length_fmap. }
  simpl in Hroots.
  assert (Hr : ∀ r, r ∈ roots ↔ r < length spans ∧ parentOf spans r = None).
  { intros r. rewrite Hroots, list_elem_of_filter, elem_of_seq.
    split; [intros [? ?]|intros [? ?]]; split; auto with lia. }
  assert (Linked spans heap1) as Hh1.
  { split; [done|]. intros p c. rewrite Hch1.
    assert (childrenAt heap0 p = []) as ->.
    { unfold childrenAt, heap0. rewrite list_lookup_fmap.
      by destruct (spans !! p). }
    simpl. rewrite list_elem_of_filter, elem_of_seq. split; [by intros [? _]|].
    intros Hp. split; [done|]. destruct (par_lt spans c p Hp). lia. }
  set (Keeps := λ h : Heap,
         Linked spans h ∧ ∀ i, span <$> h !! i = span <$> heap1 !! i).
  assert (∃ heap2, forEach (λ h root, setDepth fuel h root 0) heap1 roots
                   = Some heap2 ∧ Keeps heap2) as (heap2 & H2 & Hk2).
  { assert (is_Some (forEach (λ h root, setDepth fuel h root 0) heap1 roots))
      as [heap2 H2].
    { apply (forEach_is_Some _ (Linked spans)); [|done]. intros h r Hrr Hh.
      apply Hr in Hrr as [Hrn Hrp].
      destruct (setDepth_returns spans fuel h r 0 0) as [h' Hh']; auto.
      { by exists r. }
      exists h'. split; [done|].
      destruct (setDepth_deepens spans fuel h r 0 0 h') as (Hs & _); auto.
      { by exists r. }
      by eapply SameTree_Linked. }
    exists heap2. split; [done|].
    eapply (forEach_inv _ Keeps); [| |exact H2].
    - intros h r h' Hrr [Hh Hsp] Hh'. apply Hr in Hrr as [Hrn Hrp].
      destruct (setDepth_deepens spans fuel h r 0 0 h') as (Hs & _); auto.
      { by exists r. }
      split; [by eapply SameTree_Linked|].
      intros i. destruct Hs as [_ Hs]. destruct (Hs i) as [_ ->]. apply Hsp.
    - by split. }
  rewrite H2. simpl.
  assert (∃ heap3, forEach (λ h root, sortChildren Date_parse fuel h root)
                     heap2 roots = Some heap3 ∧ Keeps heap3)
    as (heap3 & H3 & Hk3).
  { assert (is_Some (forEach (λ h root, sortChildren Date_parse fuel h root)
                       heap2 roots)) as [heap3 H3].
    { apply (forEach_is_Some _ (Linked spans)); [|by destruct Hk2].
      intros h r Hrr Hh. apply Hr in Hrr as [Hrn Hrp].
      destruct (sortChildren_returns spans Date_parse fuel h r 0) as [h' Hh'];
        auto.
      { by exists r. }
      exists h'. split; [done|].
      destruct (sortChildren_ordered Date_parse fuel h r h' Hh') as [Hs _].
      by eapply SameTree_Linked. }
    exists heap3. split; [done|].
    eapply (forEach_inv _ Keeps); [| |exact H3].
    - intros h r h' Hrr [Hh Hsp] Hh'.
      destruct (sortChildren_ordered Date_parse fuel h r h' Hh') as [Hs _].
      split; [by eapply SameTree_Linked|].
      intros i. destruct Hs as [_ Hs]. destruct (Hs i) as [_ ->]. apply Hsp.
    - done. }
  rewrite H3. simpl. exists heap3, roots. split; [done|].
  destruct Hk3 as [_ Hsp3].
  assert (Hspan : ∀ i, span <$> heap3 !! i = spans !! i).
  { intros i. rewrite Hsp3, Hsp1. unfold heap0. rewrite list_lookup_fmap.
    by destruct (spans !! i). }
  assert (Hsame : ∀ l : list nat,
            omap (λ r, span <$> heap3 !! r) l = omap (λ i, spans !! i) l).
  { induction l as [|x l IH]; [done|]. csimpl. by rewrite Hspan, IH. }
  unfold rootSpansOf. simpl. rewrite Hsame. split.
  - rewrite Hroots.
    apply (filter_index (λ s, isRootSpan spans s = true)
             (λ i, parentOf spans i = None) spans spans 0); [done|].
    intros i s Hi. by apply isRootSpan_parentOf.
  - assert (Hall : Forall (λ r, r < length spans) roots).
    { apply Forall_forall. by intros r [? _]%Hr. }
    clear -Hall. induction Hall as [|r l Hr _ IH]; [done|]. csimpl.
    destruct (lookup_lt_is_Some_2 spans r Hr) as [x ->]. csimpl. by rewrite IH.
Qed.

End Hierarchy.

(** X16: [getTraceHierarchy] asks for at most 1000 spans of the trace; when
    their ids differ, its total duration is the longest duration among the
    spans at the roots of the tree it returns, a span without duration
    counting for 0, and it is absent exactly when the tree has no root. *)
Theorem traceHierarchy_duration Date_parse toISOString fuel traceId from_ to_
    now prog (h : Handler RawSpan) :
  getTraceHierarchy Date_parse toISOString fuel traceId from_ to_ now
  = Some prog →
  ∃ req, issued h prog = [ReqList req] ∧ l_limit req = 1000%Z
    ∧ f_query (l_filter req) = codes "trace_id:" ++ traceId
    ∧ let spans := normalizeSpan toISOString <$> onList h req in
      NoDup (spanId <$> spans) → length spans ≤ fuel →
      ∃ r, run h prog = Some r ∧ h_spans r = spans
        ∧ totalSpans r = Z.of_nat (length spans)
        ∧ length (rootSpansOf (h_tree r)) = length (h_tree r).2
        ∧ (totalDuration r = None ↔ (h_tree r).2 = [])
        ∧ ∀ d, totalDuration r = Some d →
            (∃ s, s ∈ rootSpansOf (h_tree r) ∧ durationOf s = d)
            ∧ ∀ s, s ∈ rootSpansOf (h_tree r) → (durationOf s ≤ d)%Z.
Proof.
  unfold getTraceHierarchy. intros H.
  destruct (parseTimeRange _ _ _ _) as [tr|]; [|done].
  simpl in H. injection H as <-. simpl.
  eexists. split; [reflexivity|]. split; [done|]. split; [done|].
  intros Hnd Hfuel.
  set (spans := normalizeSpan toISOString <$> _) in *.
  destruct (buildTraceTree_roots spans Hnd Date_parse fuel Hfuel)
    as (heap & roots & -> & Hroot & Hlen).
  simpl. eexists. split; [reflexivity|]. simpl.
  split; [done|]. split; [done|]. split; [done|].
  rewrite <- Hroot.
  pose proof (maxOf_spec ((λ s, default 0%Z (duration s))
                            <$> rootSpansOf (heap, roots))) as Hmax.
  destruct (maxOf _) as [d|].
  - destruct Hmax as [Hin Hle]. split.
    + split; [done|]. intros ->. simpl in Hin. by apply elem_of_nil in Hin.
    + intros d' [= <-]. split.
      * apply list_elem_of_fmap in Hin as (s & -> & Hs). by exists s.
      * intros s Hs. apply Hle. apply list_elem_of_fmap. by exists s.
  - apply fmap_nil_inv in Hmax. split; [|done]. split; [|done].
    intros _. rewrite Hmax in Hlen. by destruct roots.
Qed.

Lemma traceHierarchy_duration_witness :
  ∃ prog,
    getTraceHierarchy (λ _, None) (λ _, []) 2 (codes "t") None None
      1705320000000 = Some prog
    ∧ ∃ r, run demoTrace prog = Some r
        ∧ (totalDuration r = None ↔ (h_tree r).2 = []).
Proof.
  assert (E : parseTimeRange (λ _, None) (Some (codes "24h")) None
                1705320000000
              = Some {| from := 1705233600000; to := 1705320000000 |})
    by (vm_compute; reflexivity).
  assert (E' : ∃ prog,
    getTraceHierarchy (λ _, None) (λ _, []) 2 (codes "t") None None
      1705320000000 = Some prog).
  { unfold getTraceHierarchy. simpl default. rewrite E. eexists. reflexivity. }
  destruct E' as [prog E']. exists prog. split; [exact E'|].
  destruct (traceHierarchy_duration _ _ _ _ _ _ _ prog demoTrace E')
    as (req & _ & _ & _ & H).
  destruct H as (r & Hr & _ & _ & _ & Hnone & _).
  - apply (bool_decide_unpack _). vm_compute. exact I.
  - simpl. lia.
  - exists r. split; [exact Hr|exact Hnone].
Defined.

End HierarchyFacts.

Module OrderFacts.
Import Js Num Time Backend Spans Spec OrderTerms PatternFacts TreeFacts.
Local Open Scope nat_scope.

Lemma insertBy_ext {A} (c c' : A → A → Z) x l :
  (∀ y, y ∈ l → c x y = c' x y) → insertBy c x l = insertBy c' x l.
Proof.
  induction l as [|y l IH]; intros H; simpl; [done|].
  rewrite (H y (list_elem_of_here _ _)).
  rewrite IH; [done|]. intros z Hz. apply H. by apply list_elem_of_further.
Qed.

Lemma sortBy_ext {A} (c c' : A → A → Z) l :
  (∀ x y, x ∈ l → y ∈ l → c x y = c' x y) → sortBy c l = sortBy c' l.
Proof.
  induction l as [|x l IH]; intros H; simpl; [done|].
  rewrite IH.
  - apply insertBy_ext. intros y Hy. rewrite sortBy_perm in Hy.
    apply H; [apply list_elem_of_here|by apply list_elem_of_further].
  - intros y z Hy Hz. apply H; by apply list_elem_of_further.
Qed.

(** A loop that settles something for each of its elements, and keeps
    what it has settled. *)
Lemma forEach_settles {S A} (body : S → A → option S) (P : S → Prop)
    (Q : A → S → Prop) l :
  (∀ s x s', x ∈ l → P s → body s x = Some s' →
     P s' ∧ Q x s' ∧ ∀ y, Q y s → Q y s') →
  ∀ s s', P s → forEach body s l = Some s' → P s' ∧ ∀ x, x ∈ l → Q x s'.
Proof.
  induction l as [|x l IH]; intros Hstep s s' Hs Hrun; simpl in Hrun.
  - injection Hrun as <-. split; [done|]. by intros x ?%elem_of_nil.
  - destruct (body s x) as [s1|] eqn:Hx; [|done].
    destruct (Hstep s x s1 (list_elem_of_here _ _) Hs Hx) as (H1 & Hq & Hkeep).
    assert (Hstep' : ∀ s0 y s0', y ∈ l → P s0 → body s0 y = Some s0' →
                       P s0' ∧ Q y s0' ∧ ∀ z, Q z s0 → Q z s0').
    { intros s0 y s0' Hy. apply Hstep. by apply list_elem_of_further. }
    destruct (IH Hstep' s1 s' H1 Hrun) as [H' Hall]. split; [done|].
    intros y [->|Hy]%elem_of_cons; [|by apply Hall].
    assert (Hkeeps : ∀ l0 s0 s0', (∀ s2 z s2', z ∈ l0 → P s2 →
                body s2 z = Some s2' → P s2' ∧ ∀ w, Q w s2 → Q w s2') →
              P s0 → forEach body s0 l0 = Some s0' → Q x s0 → Q x s0').
    { clear. induction l0 as [|z l0 IHl]; intros s0 s0' Hst Hp Hr Hq;
        simpl in Hr; [by injection Hr as <-|].
      destruct (body s0 z) as [s2|] eqn:Hz; [|done].
      destruct (Hst s0 z s2 (list_elem_of_here _ _) Hp Hz) as [Hp2 Hk].
      apply (IHl s2 s0'); auto.
      intros s3 w s3' Hw. apply Hst. by apply list_elem_of_further. }
    apply (Hkeeps l s1 s'); auto.
    intros s2 z s2' Hz Hp2 Hb. destruct (Hstep' s2 z s2' Hz Hp2 Hb) as (? & _ & ?).
    done.
Qed.

Section Order.
Variable spans : list NormalizedSpan.
Variable Date_parse : jsstring → option Z.
Hypothesis parsed : ∀ s, s ∈ spans → is_Some (Date_parse (timestamp s)).
Hypothesis distinct : NoDup (spanId <$> spans).

Definition Kept (h : Heap) : Prop := ∀ i, span <$> h !! i = spans !! i.

Lemma Kept_Ordered h h' : Ordered h h' → Kept h → Kept h'.
Proof. intros [[_ Hs] _] Hk i. destruct (Hs i) as [_ ->]. apply Hk. Qed.

(** On the nodes of the heap the comparison of the sort is the difference
    of the starts. *)
Lemma byTimestamp_start h a b :
  Kept h → (a < length spans) → (b < length spans) →
  byTimestamp Date_parse h a b = (startOf Date_parse spans a - startOf Date_parse spans b)%Z.
Proof.
  intros Hk Ha Hb. unfold byTimestamp, startOf.
  pose proof (Hk a) as Hka. pose proof (Hk b) as Hkb.
  destruct (lookup_lt_is_Some_2 spans a Ha) as [sa Hsa].
  destruct (lookup_lt_is_Some_2 spans b Hb) as [sb Hsb].
  rewrite Hsa in Hka |- *. rewrite Hsb in Hkb |- *.
  destruct (h !! a) as [na|]; [|done]. destruct (h !! b) as [nb|]; [|done].
  simpl in *. injection Hka as ->. injection Hkb as ->.
  destruct (parsed sa) as [ta ->]; [by eapply list_elem_of_lookup_2|].
  destruct (parsed sb) as [tb ->]; [by eapply list_elem_of_lookup_2|].
  done.
Qed.

Lemma sorted_by_start h cs :
  Kept h → Forall (λ c, c < length spans) cs →
  StronglySorted (λ a b, (startOf Date_parse spans a ≤ startOf Date_parse spans b)%Z)
    (sortBy (byTimestamp Date_parse h) cs).
Proof.
  intros Hk Hcs.
  rewrite (sortBy_ext _ (λ a b, (- startOf Date_parse spans b) - (- startOf Date_parse spans a))%Z).
  - pose proof (sortBy_sorted (λ a, (- startOf Date_parse spans a)%Z) (λ _ _ : nat, True) cs) as H.
    simpl in H. eapply StronglySorted_impl_elem; [|apply H].
    + intros a b _ _ [?|[? _]]; lia.
    + clear. induction cs; constructor; [done|]. by apply Forall_forall.
  - intros a b Ha Hb. rewrite Forall_forall in Hcs.
    rewrite byTimestamp_start by auto. lia.
Qed.

Lemma childrenAt_set cs node h m :
  childrenAt (alter (setChildren cs) node h) m
  = if decide (m = node ∧ node < length h) then cs else childrenAt h m.
Proof.
  unfold childrenAt. destruct (decide (m = node)) as [->|Hne].
  - rewrite list_lookup_alter_eq.
    destruct (h !! node) as [x|] eqn:Hx; simpl.
    + rewrite decide_True; [done|]. split; [done|]. by eapply lookup_lt_Some.
    + rewrite decide_False; [done|]. intros [_ Hlt].
      apply lookup_ge_None in Hx. lia.
  - rewrite list_lookup_alter_ne by done.
    rewrite decide_False; [done|]. by intros [? _].
Qed.

(** A visit of the sort leaves in order the children of each node below
    the one it visits, and leaves in order what was. *)
Lemma sortChildren_sorts fuel h node h' :
  Linked spans h → Kept h →
  sortChildren Date_parse fuel h node = Some h' →
  (∀ m k, ancestor spans k m = Some node → ChildrenByStart Date_parse spans h' m)
  ∧ (∀ m, ChildrenByStart Date_parse spans h m → ChildrenByStart Date_parse spans h' m).
Proof.
  revert h node h'. induction fuel as [|fuel IH]; intros h node h' Hl Hk;
    simpl; [done|].
  set (sorted := sortBy (byTimestamp Date_parse h) (childrenAt h node)).
  set (heap1 := alter (setChildren sorted) node h).
  intros Hrun.
  assert (Hperm : sorted ≡ₚ childrenAt h node) by apply sortBy_perm.
  assert (Hvalid : Forall (λ c, c < length spans) (childrenAt h node)).
  { apply Forall_forall. intros c Hc. apply (proj2 Hl) in Hc.
    by destruct (par_lt spans c node Hc). }
  assert (Hsorted : StronglySorted (λ a b, (startOf Date_parse spans a ≤ startOf Date_parse spans b)%Z) sorted)
    by (by apply sorted_by_start).
  pose proof (Ordered_set sorted node h Hperm) as Ho1. fold heap1 in Ho1.
  assert (Hl1 : Linked spans heap1) by (eapply SameTree_Linked; [apply Ho1|done]).
  assert (Hk1 : Kept heap1) by (by eapply Kept_Ordered).
  assert (Hnode : ChildrenByStart Date_parse spans heap1 node).
  { unfold ChildrenByStart, heap1. rewrite childrenAt_set.
    case_decide as Hd; [done|].
    assert (childrenAt h node = []) as E.
    { unfold childrenAt. destruct (h !! node) eqn:Hx; [|done].
      destruct Hd. split; [done|]. by eapply lookup_lt_Some. }
    rewrite E. constructor. }
  assert (Hmono1 : ∀ m, ChildrenByStart Date_parse spans h m → ChildrenByStart Date_parse spans heap1 m).
  { intros m Hm. unfold ChildrenByStart, heap1. rewrite childrenAt_set.
    by case_decide. }
  destruct (forEach_settles
              (λ h0 child, sortChildren Date_parse fuel h0 child)
              (λ h0, Linked spans h0 ∧ Kept h0
                     ∧ ∀ m, ChildrenByStart Date_parse spans heap1 m → ChildrenByStart Date_parse spans h0 m)
              (λ c h0, ∀ m k, ancestor spans k m = Some c → ChildrenByStart Date_parse spans h0 m)
              sorted) with (s := heap1) (s' := h') as [(Hl' & Hk' & Hmono) Hall];
    [|by split_and!|done|].
  { intros s x s' Hx (Hls & Hks & Hms) Hb.
    destruct (IH s x s' Hls Hks Hb) as [Hi Hii].
    pose proof (sortChildren_ordered Date_parse fuel s x s' Hb) as Ho.
    split_and!.
    - eapply SameTree_Linked; [apply Ho|done].
    - by eapply Kept_Ordered.
    - intros m Hm. by apply Hii, Hms.
    - done.
    - intros y Hy m k Hmk. by apply Hii, (Hy m k). }
  split.
  - intros m [|k] Hmk.
    + simpl in Hmk. injection Hmk as ->. by apply Hmono.
    + apply anc_S_r in Hmk as (c & Hc & Hpar).
      apply (Hall c) with (k := k); [|done].
      rewrite Hperm. by apply (proj2 Hl).
  - intros m Hm. by apply Hmono, Hmono1.
Qed.

(** X24: for spans with pairwise different ids whose timestamps all parse,
    [buildTraceTree] returns (with a recursion depth of the number of spans
    at hand) a tree in which the children of every node reachable from a
    root are in the order of their start times, earliest first. *)
Theorem children_by_time fuel :
  length spans ≤ fuel →
  ∃ heap roots,
    buildTraceTree Date_parse fuel spans = Some (heap, roots)
    ∧ ∀ p, Reachable heap roots p → ChildrenByStart Date_parse spans heap p.
Proof.
  intros Hfuel. unfold buildTraceTree.
  set (heap0 := (λ span, {| span := span; children := []; depth := 0 |})
                  <$> spans).
  destruct (linkNodes_spec spans distinct spans 0 heap0 []) as
    (heap1 & roots & -> & Hl1 & Hroots & Hch1 & Hsp1 & Hd1).
  { done. } { unfold heap0. by rewrite length_fmap. }
  simpl in Hroots.
  assert (Hr : ∀ r, r ∈ roots ↔ r < length spans ∧ parentOf spans r = None).
  { intros r. rewrite Hroots, list_elem_of_filter, elem_of_seq.
    split; [intros [? ?]|intros [? ?]]; split; auto with lia. }
  assert (Linked spans heap1) as Hh1.
  { split; [done|]. intros p c. rewrite Hch1.
    assert (childrenAt heap0 p = []) as ->.
    { unfold childrenAt, heap0. rewrite list_lookup_fmap.
      by destruct (spans !! p). }
    simpl. rewrite list_elem_of_filter, elem_of_seq. split; [by intros [? _]|].
    intros Hp. split; [done|]. destruct (par_lt spans c p Hp). lia. }
  assert (Kept heap1) as Hk1.
  { intros i. rewrite Hsp1. unfold heap0. rewrite list_lookup_fmap.
    by destruct (spans !! i). }
  set (Keeps := λ h : Heap, Linked spans h ∧ Kept h).
  assert (∃ heap2, forEach (λ h root, setDepth fuel h root 0) heap1 roots
                   = Some heap2 ∧ Keeps heap2) as (heap2 & H2 & Hl2 & Hk2).
  { assert (is_Some (forEach (λ h root, setDepth fuel h root 0) heap1 roots))
      as [heap2 H2].
    { apply (forEach_is_Some _ (Linked spans)); [|done]. intros h r Hrr Hh.
      apply Hr in Hrr as [Hrn Hrp].
      destruct (setDepth_returns spans fuel h r 0 0) as [h' Hh']; auto.
      { by exists r. }
      exists h'. split; [done|].
      destruct (setDepth_deepens spans fuel h r 0 0 h') as (Hs & _); auto.
      { by exists r. }
      by eapply SameTree_Linked. }
    exists heap2. split; [done|].
    eapply (forEach_inv _ Keeps); [| |exact H2].
    - intros h r h' Hrr [Hh Hsp] Hh'. apply Hr in Hrr as [Hrn Hrp].
      destruct (setDepth_deepens spans fuel h r 0 0 h') as (Hs & _); auto.
      { by exists r. }
      split; [by eapply SameTree_Linked|].
      intros i. destruct Hs as [_ Hs]. destruct (Hs i) as [_ ->]. apply Hsp.
    - by split. }
  rewrite H2. simpl.
  assert (is_Some (forEach (λ h root, sortChildren Date_parse fuel h root)
                     heap2 roots)) as [heap3 H3].
  { apply (forEach_is_Some _ (Linked spans)); [|done].
    intros h r Hrr Hh. apply Hr in Hrr as [Hrn Hrp].
    destruct (sortChildren_returns spans Date_parse fuel h r 0) as [h' Hh'];
      auto.
    { by exists r. }
    exists h'. split; [done|].
    destruct (sortChildren_ordered Date_parse fuel h r h' Hh') as [Hs _].
    by eapply SameTree_Linked. }
  rewrite H3. simpl. exists heap3, roots. split; [done|].
  destruct (forEach_settles
              (λ h root, sortChildren Date_parse fuel h root) Keeps
              (λ r h, ∀ m k, ancestor spans k m = Some r → ChildrenByStart Date_parse spans h m)
              roots) with (s := heap2) (s' := heap3) as [[Hl3 Hk3] Hall];
    [|by split|done|].
  { intros s x s' Hx [Hls Hks] Hb.
    destruct (sortChildren_sorts fuel s x s' Hls Hks Hb) as [Hi Hii].
    pose proof (sortChildren_ordered Date_parse fuel s x s' Hb) as Ho.
    split; [split|split; [done|]].
    - eapply SameTree_Linked; [apply Ho|done].
    - by eapply Kept_Ordered.
    - intros y Hy m k Hmk. by apply Hii, (Hy m k). }
  intros p Hp.
  destruct (reachable_rooted spans heap3 roots p Hl3) as (k & r & Hrr & Hk);
    auto.
  { by intros r [_ ?]%Hr. }
  by apply (Hall r Hrr p k).
Qed.

End Order.

Lemma children_by_time_witness :
  ∃ heap roots,
    buildTraceTree (λ s, Some (digitsValue s)) 4 smallTrace
    = Some (heap, roots)
    ∧ ∀ p, Reachable heap roots p →
           ChildrenByStart (λ s, Some (digitsValue s)) smallTrace heap p.
Proof.
  refine (children_by_time smallTrace (λ s, Some (digitsValue s)) _ _ 4 _).
  - intros s _. by eexists.
  - apply (bool_decide_unpack _). vm_compute. exact I.
  - vm_compute. lia.
Defined.

End OrderFacts.

Module CliFacts.
Import Js Backend Cli CliTerms.
Local Open Scope nat_scope.

Lemma startsWith_split p s : startsWith p s = true → s = p ++ drop (length p) s.
Proof.
  unfold startsWith. intros H%bool_decide_eq_true.
  rewrite <- H at 1. by rewrite take_drop.
Qed.

Lemma startsWith_app p s : startsWith p (p ++ s) = true.
Proof.
  unfold startsWith. apply bool_decide_eq_true. by rewrite take_app_length.
Qed.

Lemma lookup_setArg key value result k :
  setArg key value result !! k
  = if bool_decide (key = k ∧ key ≠ codes "__proto__") then Some value
    else result !! k.
Proof.
  unfold setArg. case_bool_decide as Hp.
  - rewrite bool_decide_false; [done|]. by intros [_ ?].
  - destruct (decide (key = k)) as [->|Hne].
    + rewrite lookup_insert_eq. by rewrite bool_decide_true.
    + rewrite lookup_insert_ne by done.
      rewrite bool_decide_false; [done|]. by intros [? _].
Qed.

(** What the loop adds to the object. *)
Lemma parseArgsFrom_sound args result k v :
  parseArgsFrom args result !! k = Some v →
  result !! k = Some v
  ∨ (codes "--" ++ k ∈ args
     ∧ (v = codes "true" ∨ (v ∈ args ∧ isValue v))).
Proof.
  remember (length args) as n eqn:Hn. revert args result Hn.
  induction n as [n IH] using lt_wf_ind. intros args result ->.
  assert (IH' : ∀ args' result',
    length args' < length args →
    parseArgsFrom args' result' !! k = Some v →
    result' !! k = Some v
    ∨ (codes "--" ++ k ∈ args'
       ∧ (v = codes "true" ∨ (v ∈ args' ∧ isValue v)))).
  { intros args' result' Hlt. by eapply IH. }
  clear IH.
  destruct args as [|arg rest]; [by left|]. cbn [parseArgsFrom].
  destruct (startsWith (codes "--") arg) eqn:Harg.
  - apply startsWith_split in Harg as Hsplit.
    change (length (codes "--")) with 2 in Hsplit.
    assert (Hset : ∀ value res0,
      setArg (drop 2 arg) value res0 !! k = Some v →
      res0 !! k = Some v ∨ (drop 2 arg = k ∧ v = value)).
    { intros value res0. rewrite lookup_setArg. case_bool_decide as Hk.
      - intros [= <-]. right. by destruct Hk.
      - by left. }
    assert (Hkey : drop 2 arg = k → codes "--" ++ k ∈ arg :: rest).
    { intros <-. rewrite <- Hsplit. apply list_elem_of_here. }
    destruct rest as [|nextArg rest'].
    + simpl. intros [?|[Hk ->]]%Hset; [by left|]. right. split; [auto|by left].
    + destruct (truthy (Some nextArg) && negb (startsWith (codes "--") nextArg))
        eqn:Hnext.
      * intros H. apply IH' in H; [|simpl; lia].
        destruct H as [[?|[Hk ->]]%Hset|[Hin Hv]].
        -- by left.
        -- right. split; [auto|]. right.
           apply andb_true_iff in Hnext as [H1 H2%negb_true_iff].
           split; [apply list_elem_of_further, list_elem_of_here|].
           split; [by destruct nextArg|done].
        -- right. split; [by do 2 apply list_elem_of_further|].
           destruct Hv as [?|[? ?]]; [by left|right].
           split; [by do 2 apply list_elem_of_further|done].
      * intros H. apply IH' in H; [|simpl; lia].
        destruct H as [[?|[Hk ->]]%Hset|[Hin Hv]].
        -- by left.
        -- right. split; [auto|by left].
        -- right. split; [by apply list_elem_of_further|].
           destruct Hv as [?|[? ?]]; [by left|right].
           split; [by apply list_elem_of_further|done].
  - intros H. apply IH' in H; [|simpl; lia].
    destruct H as [?|[Hin Hv]]; [by left|right].
    split; [by apply list_elem_of_further|].
    destruct Hv as [?|[? ?]]; [by left|right].
    split; [by apply list_elem_of_further|done].
Qed.

(** X17: every flag that [parseArgs] returns stands in the arguments with
    its two dashes, and its value is ["true"] or an argument that is not
    empty and does not start with two dashes. *)
Theorem parseArgs_sound args k v :
  parseArgs args !! k = Some v →
  codes "--" ++ k ∈ args
  ∧ (v = codes "true" ∨ (v ∈ args ∧ isValue v)).
Proof.
  intros H. apply parseArgsFrom_sound in H as [H|H]; [|done].
  by rewrite lookup_empty in H.
Qed.

Lemma parseArgs_sound_witness :
  codes "--from" ∈ [codes "--from"; codes "1h"; codes "--pretty"]
  ∧ (codes "1h" = codes "true"
     ∨ (codes "1h" ∈ [codes "--from"; codes "1h"; codes "--pretty"]
        ∧ isValue (codes "1h"))).
Proof.
  apply (parseArgs_sound [codes "--from"; codes "1h"; codes "--pretty"]
           (codes "from") (codes "1h")).
  vm_compute. reflexivity.
Defined.

Lemma parseArgsFrom_flagArgs kvs result :
  Forall (λ kv, isValue kv.2 ∧ kv.1 ≠ codes "__proto__") kvs →
  parseArgsFrom (flagArgs kvs) result
  = fold_left (λ m kv, <[kv.1 := kv.2]> m) kvs result.
Proof.
  intros H. revert result. induction H as [|[k v] kvs [[Hne Hv] Hk] _ IH];
    intros result; [done|].
  change (flagArgs ((k, v) :: kvs)) with ((codes "--" ++ k) :: v :: flagArgs kvs).
  cbn [parseArgsFrom]. rewrite (startsWith_app (codes "--") k).
  simpl in Hv, Hk, Hne. rewrite Hv.
  assert (truthy (Some v) = true) as -> by (by destruct v).
  simpl. rewrite IH. unfold setArg. by rewrite bool_decide_false.
Qed.

(** X18: flags written each with its value are read back: [parseArgs] of
    [--k1 v1 --k2 v2 ...] is the map from each [k] to the last value given
    for it, when no value is empty or starts with two dashes. *)
Theorem parseArgs_roundtrip kvs :
  Forall (λ kv, isValue kv.2 ∧ kv.1 ≠ codes "__proto__") kvs →
  parseArgs (flagArgs kvs) = list_to_map (rev kvs).
Proof.
  intros H. unfold parseArgs. rewrite parseArgsFrom_flagArgs by done.
  rewrite <- fold_left_rev_right. generalize (rev kvs). clear.
  induction l as [|[k v] l IH]; [done|]. simpl. by rewrite IH.
Qed.

(** *** Global flags and dispatch *)

Lemma outputFlag_spec args f :
  outputFlag args f
  = {| pretty := pretty f; site := site f;
       output := lastOutput args (output f) |}.
Proof.
  revert f. induction args as [|arg rest IH]; intros f; simpl.
  - by destruct f.
  - rewrite IH. by destruct (_ && _).
Qed.

Lemma extract_output args f :
  output (extractGlobalFlagsFrom args f) = lastOutput args (output f).
Proof.
  revert f. induction args as [|arg rest IH]; intros f; simpl; [done|].
  rewrite IH. case_bool_decide as H1; simpl.
  - subst arg. by rewrite bool_decide_false.
  - case_bool_decide as H2; simpl.
    + subst arg. rewrite bool_decide_false by done. simpl. by destruct (truthy _).
    + by destruct (_ && _).
Qed.

Lemma extract_pretty args f :
  pretty (extractGlobalFlagsFrom args f) = true
  ↔ pretty f = true ∨ codes "--pretty" ∈ args.
Proof.
  revert f. induction args as [|arg rest IH]; intros f; simpl.
  - split; [by left|]. intros [?|?%elem_of_nil]; done.
  - rewrite IH, elem_of_cons. case_bool_decide as H1; simpl.
    + subst arg. split; [intros _; right; by left|by left].
    + assert (∀ g : GlobalFlags, pretty g = pretty f →
                (pretty g = true ∨ codes "--pretty" ∈ rest
                 ↔ pretty f = true ∨ codes "--pretty" = arg
                   ∨ codes "--pretty" ∈ rest)) as Hg.
      { intros g ->. split; [intros [?|?]; auto|].
        intros [?|[?|?]]; auto; by subst. }
      repeat case_match; by apply Hg.
Qed.

Lemma lastOutput_cases args :
  (∀ o, lastOutput args o = o) ∨ (∃ v, ∀ o, lastOutput args o = v).
Proof.
  induction args as [|arg rest IH]; simpl; [by left|].
  destruct (_ && _).
  - right. destruct IH as [Hid|[v Hv]]; [|by exists v].
    exists (head rest). intros o. apply Hid.
  - done.
Qed.

(** X19: [--pretty] is set exactly when it is one of the arguments, the
    output file is the value of the last [--output] that has one, and the
    second loop over [--output] in [main] changes nothing. *)
Theorem globalFlags_spec args :
  let flags := extractGlobalFlags args in
  (pretty flags = true ↔ codes "--pretty" ∈ args)
  ∧ output flags = lastOutput args None
  ∧ outputFlag args flags = flags.
Proof.
  simpl. unfold extractGlobalFlags. split_and!.
  - rewrite extract_pretty. simpl. split; [by intros [?|?]|by right].
  - by rewrite extract_output.
  - rewrite outputFlag_spec. rewrite extract_output. simpl.
    set (f := extractGlobalFlagsFrom _ _).
    assert (lastOutput args (lastOutput args None) = output f) as ->.
    { unfold f. rewrite extract_output. simpl.
      destruct (lastOutput_cases args) as [Hid|[v Hv]].
      - by rewrite !Hid.
      - by rewrite !Hv. }
    by destruct f.
Qed.

Lemma isValue_positional v : isValue v → isPositional v = true.
Proof.
  intros [_ Hv]. unfold isPositional.
  assert (∀ p, startsWith (codes "--" ++ p) v = true → False) as Hno.
  { intros p Hp%startsWith_split. rewrite Hp in Hv.
    rewrite <- app_assoc in Hv. by rewrite startsWith_app in Hv. }
  destruct (startsWith (codes "--pretty") v) eqn:H1;
    [by destruct (Hno (codes "pretty"))|].
  destruct (startsWith (codes "--site") v) eqn:H2;
    [by destruct (Hno (codes "site"))|].
  destruct (startsWith (codes "--output") v) eqn:H3;
    [by destruct (Hno (codes "output"))|].
  done.
Qed.

Lemma parseArgs_value v : isValue v → parseArgs [v] = ∅.
Proof. intros [_ Hv]. unfold parseArgs. simpl. by rewrite Hv. Qed.

(** X20: the first argument after [errors] or [services] never reaches the
    handler, which takes the place of a subcommand: a single flag with
    its value, as in [errors --from 1h], leaves the handler with the value
    alone and so with no option at all. *)
Theorem first_flag_lost apiKey appKey key v :
  truthy apiKey = true → truthy appKey = true →
  isPositional (codes "--" ++ key) = true → isValue v →
  (∃ flags,
     main apiKey appKey [codes "errors"; codes "--" ++ key; v]
     = ErrorsCommand [v] flags)
  ∧ handleErrorsCommand [v] = noErrorOptions
  ∧ (∃ flags,
       main apiKey appKey [codes "services"; codes "--" ++ key; v]
       = ServicesCommand [v] flags)
  ∧ handleServicesCommand [v] = (None, None).
Proof.
  intros Hapi Happ Hkey Hv. pose proof (isValue_positional v Hv) as Hpos.
  assert (Hfilter : ∀ c, isPositional c = true →
    filter (λ arg, isPositional arg = true) [c; codes "--" ++ key; v]
    = [c; codes "--" ++ key; v]).
  { intros c Hc. rewrite !filter_cons, filter_nil.
    by rewrite !decide_True by done. }
  unfold main, validateEnvVars. rewrite Hapi, Happ. simpl negb. cbv iota.
  split_and!.
  - rewrite (Hfilter (codes "errors")) by done. simpl. eauto.
  - unfold handleErrorsCommand. by rewrite parseArgs_value.
  - rewrite (Hfilter (codes "services")) by done. simpl. eauto.
  - unfold handleServicesCommand. by rewrite parseArgs_value.
Qed.

Lemma first_flag_lost_witness :
  (∃ flags,
     main (Some (codes "k")) (Some (codes "a"))
       [codes "errors"; codes "--" ++ codes "from"; codes "1h"]
     = ErrorsCommand [codes "1h"] flags)
  ∧ handleErrorsCommand [codes "1h"] = noErrorOptions
  ∧ (∃ flags,
       main (Some (codes "k")) (Some (codes "a"))
         [codes "services"; codes "--" ++ codes "from"; codes "1h"]
       = ServicesCommand [codes "1h"] flags)
  ∧ handleServicesCommand [codes "1h"] = (None, None).
Proof.
  apply (first_flag_lost (Some (codes "k")) (Some (codes "a")) (codes "from")
           (codes "1h")); try reflexivity.
  split; [discriminate|reflexivity].
Defined.

(** X21: the value of a global flag stays among the arguments: after
    [--site] at the head, its value is taken as the command, and the run
    ends as an unknown command unless the value is the name of one. *)
Theorem site_value_taken_as_command apiKey appKey v rest :
  truthy apiKey = true → truthy appKey = true →
  isPositional v = true →
  v ∉ [codes "logs"; codes "metrics"; codes "errors"; codes "services"] →
  ∃ flags,
    main apiKey appKey (codes "--site" :: v :: rest)
    = UnknownCommand (Some v) flags.
Proof.
  intros Hapi Happ Hpos Hv.
  unfold main, validateEnvVars. rewrite Hapi, Happ. simpl negb. cbv iota.
  set (flags := outputFlag _ _). clearbody flags.
  rewrite !filter_cons. rewrite decide_False by done.
  rewrite decide_True by done. simpl.
  rewrite !bool_decide_false; [eauto|..];
    intros [= ->]; apply Hv; repeat constructor.
Qed.

Lemma site_value_taken_as_command_witness :
  ∃ flags,
    main (Some (codes "k")) (Some (codes "a"))
      [codes "--site"; codes "datadoghq.eu"; codes "logs"; codes "search"]
    = UnknownCommand (Some (codes "datadoghq.eu")) flags.
Proof.
  apply site_value_taken_as_command; try reflexivity.
  intros H. repeat (apply elem_of_cons in H as [H|H]; [discriminate|]).
  by apply elem_of_nil in H.
Defined.

Lemma parseArgs_roundtrip_witness :
  parseArgs (flagArgs [(codes "from", codes "1h"); (codes "query", codes "*");
                       (codes "from", codes "2h")])
  = list_to_map (rev [(codes "from", codes "1h"); (codes "query", codes "*");
                      (codes "from", codes "2h")]).
Proof.
  apply parseArgs_roundtrip.
  repeat constructor; simpl; discriminate.
Defined.

End CliFacts.
